(** * blockscopy: copying TSDB blocks between two buckets

    A shallow embedding of [cmd/blockscopy/main.go] and the properties of
    its copy-decision engine: tenant filtering, marker file names, the
    per-block eligibility checks, the ordered object copy and the
    completion marker. *)

From Stdlib Require Import ZArith Ascii String List Lia Bool.
From stdpp Require Import base decidable option list sorting strings gmap.
From Equations Require Import Equations.

Local Open Scope Z_scope.

(** * Part I: the model *)

(** ** Go strings

    A Go string is a sequence of bytes; [string] is a sequence of [ascii]
    (one byte each).  [+:+] is concatenation. *)

Module strings.

(** [strings.CutPrefix]: the rest of [s] after [prefix], when [s] starts
    with it. *)
Fixpoint CutPrefix (s prefix : string) {struct prefix} : option string :=
  match prefix, s with
  | EmptyString, _ => Some s
  | String p ps, String c cs => if bool_decide (c = p) then CutPrefix cs ps else None
  | String _ _, EmptyString => None
  end.

Definition HasPrefix (s prefix : string) : bool :=
  bool_decide (is_Some (CutPrefix s prefix)).

Definition TrimPrefix (s prefix : string) : string :=
  default s (CutPrefix s prefix).

(** [strings.TrimSuffix]: [s] without the trailing [suffix], when it ends
    with it. *)
Fixpoint TrimSuffix (s suffix : string) : string :=
  match s with
  | EmptyString => EmptyString
  | String c cs =>
      if bool_decide (s = suffix) then EmptyString else String c (TrimSuffix cs suffix)
  end.

(** [strings.Cut]: the text before and after the first instance of [sep]. *)
Fixpoint Cut (s sep : string) : option (string * string) :=
  match CutPrefix s sep with
  | Some rest => Some (EmptyString, rest)
  | None =>
      match s with
      | EmptyString => None
      | String c cs => (fun '(before, after) => (String c before, after)) <$> Cut cs sep
      end
  end.

(** [strings.SplitN s sep n] for [n >= 0] and a non-empty [sep]: at most
    [n] substrings, the last one the unsplit remainder. *)
Fixpoint SplitN (s sep : string) (n : nat) : list string :=
  match n with
  | O => []
  | S O => [s]
  | S n' =>
      match Cut s sep with
      | Some (before, after) => before :: SplitN after sep n'
      | None => [s]
      end
  end.

(** The last byte of a string, [s[len(s)-1:]]. *)
Fixpoint lastByte (s : string) : string :=
  match s with
  | EmptyString => EmptyString
  | String c EmptyString => s
  | String _ cs => lastByte cs
  end.

End strings.

Module filepath.

Definition isSep (c : ascii) : bool := bool_decide (c = "/"%char).

Fixpoint dropSeps (l : list ascii) : list ascii :=
  match l with
  | c :: l' => if isSep c then dropSeps l' else l
  | [] => []
  end.

Fixpoint takeElem (l : list ascii) : list ascii :=
  match l with
  | c :: l' => if isSep c then [] else c :: takeElem l'
  | [] => []
  end.

(** [filepath.Base] on a Unix path: trailing slashes are stripped, the last
    element is returned; ["."] for the empty path and ["/"] for a path of
    slashes only.  The scan runs from the end, so on the reversed bytes. *)
Definition Base (path : string) : string :=
  if bool_decide (path = EmptyString) then "."
  else
    let stripped := dropSeps (rev (list_ascii_of_string path)) in
    let elem := takeElem stripped in
    if bool_decide (elem = []) then "/"
    else string_of_list_ascii (rev elem).

End filepath.

(** ** Block identifiers

    Modelled from the spec: the block identifier library (oklog/ulid) is
    imported by main.go and is not part of the sources.  The spec calls a
    block ID a 26-character, base-32-style sortable identifier with a
    canonical string form.  A ULID is a [[16]byte]; its text form is 26
    Crockford base-32 digits, the first carrying the 3 top bits.  [Parse]
    is the library's lenient parser: it checks the length and that the
    first digit does not overflow 128 bits, and maps unknown characters
    through the decoding table (0xFF) without rejecting them. *)

Module ulid.

Definition ULID : Type := list Z.

#[global] Instance ULID_eq_dec : EqDecision ULID := list_eq_dec.
#[global] Instance ULID_countable : Countable ULID := list_countable.
#[global] Instance ULID_inhabited : Inhabited ULID := populate [].
#[global] Instance ascii_inhabited : Inhabited ascii := populate "000"%char.

(** The zero value [ulid.ULID{}]. *)
Definition zero : ULID := replicate 16 0.

(** What the array type [[16]byte] guarantees. *)
Definition wf (id : ULID) : Prop :=
  length id = 16%nat ∧ Forall (fun b => 0 ≤ b < 256) id.

Definition EncodedSize : nat := 26.

Definition Encoding : string := "0123456789ABCDEFGHJKMNPQRSTVWXYZ".

(** [Encoding[i]]. *)
Definition enc (i : Z) : ascii :=
  nth (Z.to_nat i) (list_ascii_of_string Encoding) "0"%char.

Definition lower : string := "0123456789abcdefghjkmnpqrstvwxyz".

Fixpoint indexOf (c : ascii) (l : list ascii) (i : Z) : option Z :=
  match l with
  | [] => None
  | x :: l' => if bool_decide (x = c) then Some i else indexOf c l' (i + 1)
  end.

(** The decoding table [dec[c]]: the digit of [c] in either case, 0xFF for
    a byte that is no digit. *)
Definition dec (c : ascii) : Z :=
  match indexOf c (list_ascii_of_string Encoding) 0 with
  | Some i => i
  | None => default 255 (indexOf c (list_ascii_of_string lower) 0)
  end.

(** [x << n] on [uint8]. *)
Definition shl8 (x n : Z) : Z := Z.shiftl x n mod 256.

(** Five bytes are eight digits. *)
Definition digits5 (a b c d e : Z) : list Z :=
  [ Z.shiftr (Z.land a 248) 3;
    Z.lor (Z.shiftl (Z.land a 7) 2) (Z.shiftr (Z.land b 192) 6);
    Z.shiftr (Z.land b 62) 1;
    Z.lor (Z.shiftl (Z.land b 1) 4) (Z.shiftr (Z.land c 240) 4);
    Z.lor (Z.shiftl (Z.land c 15) 1) (Z.shiftr (Z.land d 128) 7);
    Z.shiftr (Z.land d 124) 2;
    Z.lor (Z.shiftl (Z.land d 3) 3) (Z.shiftr (Z.land e 224) 5);
    Z.land e 31 ].

(** The 26 digit values of [MarshalTextTo]: byte 0 gives two digits, the
    bytes 1-5, 6-10 and 11-15 eight digits each. *)
Definition digits (id : ULID) : list Z :=
  let b k := id !!! k in
  [ Z.shiftr (Z.land (b 0%nat) 224) 5; Z.land (b 0%nat) 31 ]
  ++ digits5 (b 1%nat) (b 2%nat) (b 3%nat) (b 4%nat) (b 5%nat)
  ++ digits5 (b 6%nat) (b 7%nat) (b 8%nat) (b 9%nat) (b 10%nat)
  ++ digits5 (b 11%nat) (b 12%nat) (b 13%nat) (b 14%nat) (b 15%nat).

(** [ULID.String]. *)
Definition String (id : ULID) : string :=
  string_of_list_ascii (enc <$> digits id).

(** Eight digits are five bytes; every shift is a [uint8] shift. *)
Definition bytes5 (x0 x1 x2 x3 x4 x5 x6 x7 : Z) : list Z :=
  [ Z.lor (shl8 x0 3) (Z.shiftr x1 2);
    Z.lor (Z.lor (shl8 x1 6) (shl8 x2 1)) (Z.shiftr x3 4);
    Z.lor (shl8 x3 4) (Z.shiftr x4 1);
    Z.lor (Z.lor (shl8 x4 7) (shl8 x5 2)) (Z.shiftr x6 3);
    Z.lor (shl8 x6 5) x7 ].

Definition bytes (v : list Z) : ULID :=
  let x k := v !!! k in
  [ Z.lor (shl8 (x 0%nat) 5) (x 1%nat) ]
  ++ bytes5 (x 2%nat) (x 3%nat) (x 4%nat) (x 5%nat) (x 6%nat) (x 7%nat) (x 8%nat) (x 9%nat)
  ++ bytes5 (x 10%nat) (x 11%nat) (x 12%nat) (x 13%nat) (x 14%nat) (x 15%nat) (x 16%nat) (x 17%nat)
  ++ bytes5 (x 18%nat) (x 19%nat) (x 20%nat) (x 21%nat) (x 22%nat) (x 23%nat) (x 24%nat) (x 25%nat).

Inductive parseError := ErrDataSize | ErrOverflow.

(** [ulid.Parse]: [ErrDataSize] unless the text has 26 bytes,
    [ErrOverflow] when the first byte is above ['7']. *)
Definition Parse (s : string) : parseError + ULID :=
  let v := list_ascii_of_string s in
  if negb (bool_decide (length v = EncodedSize)) then inl ErrDataSize
  else if (N.ltb (N_of_ascii "7"%char) (N_of_ascii (v !!! 0%nat))) then inl ErrOverflow
  else inr (bytes (dec <$> v)).

End ulid.

(** ** Names of marker files *)

Definition delim : string := "/".
(** [bucketindex.MarkersPathname], [block.MetaFilename] and
    [metadata.DeletionMarkFilename] of the imported Cortex and Thanos
    packages. *)
Definition MarkersPathname : string := "markers".
Definition MetaFilename : string := "meta.json".
Definition DeletionMarkFilename : string := "deletion-mark.json".

Definition CopiedMarkFilename : string := "copied".

(** [CopiedToBucketMarkFilename] (main.go:458-461),
    [fmt.Sprintf("%s/%s-%s-%s", ...)]. *)
Definition CopiedToBucketMarkFilename (blockID : ulid.ULID) (targetBucket : string) : string :=
  MarkersPathname +:+ "/" +:+ ulid.String blockID +:+ "-" +:+ CopiedMarkFilename
    +:+ "-" +:+ targetBucket.

(** [IsCopiedToBucketMarkFilename] (main.go:466-484). *)
Definition IsCopiedToBucketMarkFilename (name : string) : bool * ulid.ULID * string :=
  match strings.SplitN name "-" 3 with
  | [part0; part1; part2] =>
      if negb (bool_decide (part1 = CopiedMarkFilename)) then (false, ulid.zero, "")
      else
        match ulid.Parse (filepath.Base part0) with
        | inl _ => (false, ulid.zero, "")
        | inr id => (true, id, part2)
        end
  | _ => (false, ulid.zero, "")
  end.

(** Modelled from the spec: [bucketindex.IsBlockDeletionMarkFilename] is
    imported from Cortex and not part of the sources.  The spec (4.3) gives
    the pattern [<blockID>-deletion-mark.json]; the function splits at the
    first ["-"] and parses the base name of the first part as a block ID. *)
Definition IsBlockDeletionMarkFilename (name : string) : ulid.ULID * bool :=
  match strings.SplitN name "-" 2 with
  | [part0; part1] =>
      if negb (bool_decide (part1 = DeletionMarkFilename)) then (ulid.zero, false)
      else
        match ulid.Parse (filepath.Base part0) with
        | inl _ => (ulid.zero, false)
        | inr id => (id, true)
        end
  | _ => (ulid.zero, false)
  end.

(** Modelled from the spec: [block.IsBlockDir] is imported from Thanos and
    not part of the sources.  The spec (4.2) keeps the entries that parse
    as a block ID; the function parses the base name of the path. *)
Definition IsBlockDir (path : string) : ulid.ULID * bool :=
  match ulid.Parse (filepath.Base path) with
  | inl _ => (ulid.zero, false)
  | inr id => (id, true)
  end.

(** ** Errors, configuration, the object store *)

(** A non-nil Go [error].  [Wrapped msg cause] is what [errors.Wrapf(cause,
    msg)] returns, [MultiError] the aggregate of [ForEachUser]. *)
#[warnings="-register-all"]
Inductive error :=
| errorString (msg : string)
| ParseError (e : ulid.parseError)
| Wrapped (msg : string) (cause : error)
| MultiError (errs : list error).

(** [errors.Wrapf(err, msg)] and [errors.Wrap]: nil stays nil. *)
Definition Wrapf (err : option error) (msg : string) : option error :=
  Wrapped msg <$> err.

(** [config] (main.go:36-48).  Durations are [int64] nanoseconds. *)
Record config := {
  sourceBucket : string;
  destBucket : string;
  minBlockDuration : Z;
  tenantConcurrency : Z;
  blocksConcurrency : Z;
  copyPeriod : Z;
  enabledUsers : list string;
  disabledUsers : list string;
  dryRun : bool;
  httpListen : string
}.

(** The two fields of [metadata.Meta] the program reads, [int64]
    milliseconds. *)
Record Meta := { MinTime : Z; MaxTime : Z }.

Definition zeroMeta : Meta := {| MinTime := 0; MaxTime := 0 |}.

(** [blockMarkers] (main.go:373-376). *)
Record blockMarkers := { deletion : bool; copied : bool }.

(** A missing key of a Go map reads as the zero value. *)
#[global] Instance blockMarkers_inhabited : Inhabited blockMarkers :=
  populate {| deletion := false; copied := false |}.

(** [metrics] (main.go:63-68): four counters. *)
Record metrics := {
  copyCyclesSucceeded : nat;
  copyCyclesFailed : nat;
  blocksCopied : nat;
  blocksCopyFailed : nat
}.

Inductive level := Debug | Info | Error.

(** A logger is its context ([log.With] key-value pairs). *)
Definition logger : Type := list (string * string).

(** What a run does to the outside, in order. *)
Inductive event :=
| EvLog (lvl : level) (ctx : logger) (msg : string)
| EvList (bkt prefix : string)
| EvRead (bkt name : string)
| EvCopy (srcBkt dstBkt name : string)
| EvWrite (bkt name : string).

(** The state a run works on: the objects of every bucket, keyed by bucket
    and object name, the counters, and the trace of events so far. *)
Record world := {
  objects : gmap (string * string) string;
  counters : metrics;
  trace : list event
}.

(** The faults of the object store and the JSON decoder, which the program
    only sees through their results. *)
Record extern := {
  clientErr : option error;
  listErr : string → string → option error;
  readErr : string → string → option error;
  decodeMeta : string → error + Meta;
  closeErr : string → string → option error;
  copyErr : string → string → string → option error;
  writeErr : string → string → option error
}.

Definition ErrObjectNotExist : error := errorString "storage: object doesn't exist".

(** [int64] wrap-around. *)
Definition wrap64 (z : Z) : Z := (z + 2 ^ 63) mod 2 ^ 64 - 2 ^ 63.

(** [time.Millisecond], in nanoseconds. *)
Definition Millisecond : Z := 1000000.
Definition Hour : Z := 3600 * 1000 * Millisecond.

(** ** The state monad of a run *)

Definition IO (A : Type) : Type := world → A * world.

#[global] Instance IO_ret : MRet IO := fun A a w => (a, w).
#[global] Instance IO_bind : MBind IO :=
  fun A B f m w => let '(a, w') := m w in f a w'.

Definition emit (e : event) : IO unit :=
  fun w => (tt, {| objects := objects w; counters := counters w; trace := trace w ++ [e] |}).

Definition Log (lvl : level) (ctx : logger) (msg : string) : IO unit :=
  emit (EvLog lvl ctx msg).

Definition getObjects : IO (gmap (string * string) string) :=
  fun w => (objects w, w).

Definition putObject (bkt name data : string) : IO unit :=
  fun w => (tt, {| objects := <[(bkt, name) := data]> (objects w);
                   counters := counters w; trace := trace w |}).

Definition incr (f : metrics → metrics) : IO unit :=
  fun w => (tt, {| objects := objects w; counters := f (counters w); trace := trace w |}).

Definition incCopyCyclesSucceeded (m : metrics) : metrics :=
  {| copyCyclesSucceeded := S (copyCyclesSucceeded m); copyCyclesFailed := copyCyclesFailed m;
     blocksCopied := blocksCopied m; blocksCopyFailed := blocksCopyFailed m |}.
Definition incCopyCyclesFailed (m : metrics) : metrics :=
  {| copyCyclesSucceeded := copyCyclesSucceeded m; copyCyclesFailed := S (copyCyclesFailed m);
     blocksCopied := blocksCopied m; blocksCopyFailed := blocksCopyFailed m |}.
Definition incBlocksCopied (m : metrics) : metrics :=
  {| copyCyclesSucceeded := copyCyclesSucceeded m; copyCyclesFailed := copyCyclesFailed m;
     blocksCopied := S (blocksCopied m); blocksCopyFailed := blocksCopyFailed m |}.
Definition incBlocksCopyFailed (m : metrics) : metrics :=
  {| copyCyclesSucceeded := copyCyclesSucceeded m; copyCyclesFailed := copyCyclesFailed m;
     blocksCopied := blocksCopied m; blocksCopyFailed := S (blocksCopyFailed m) |}.

(** ** The object store client

    Modelled from the spec: the storage client (cloud.google.com/go/storage)
    is imported and not part of the sources.  The spec (6) gives its
    interface: a listing by prefix, recursive or grouped by the next path
    segment, a read, a write and a server-side copy, each of which can
    fail. *)

(** [storage.ObjectAttrs]: a synthetic directory has [Prefix] set, an object
    its [Name]. *)
Record ObjectAttrs := { Prefix : string; Name : string }.

(** The object names of a bucket, in the store's (lexicographic) order. *)
Definition bucketNames (objs : gmap (string * string) string) (bkt : string) : list string :=
  merge_sort String.le
    (omap (fun '(b, n, _) => if bool_decide (b = bkt) then Some n else None)
          (map_to_list objs)).

(** The answer to [bkt.Objects(ctx, &storage.Query{Prefix, Delimiter})]: the
    objects under the prefix; with a delimiter, those with the delimiter in
    the rest of their name are grouped under their common prefix. *)
Definition queryObjects (objs : gmap (string * string) string)
    (bkt prefix delimiter : string) : list ObjectAttrs :=
  let under := filter (fun n => strings.HasPrefix n prefix = true) (bucketNames objs bkt) in
  if bool_decide (delimiter = "") then (fun n => {| Prefix := ""; Name := n |}) <$> under
  else
    let group n := fst <$> strings.Cut (strings.TrimPrefix n prefix) delimiter in
    ((fun n => {| Prefix := ""; Name := n |}) <$> filter (fun n => group n = None) under)
    ++ ((fun d => {| Prefix := prefix +:+ d +:+ delimiter; Name := "" |})
          <$> remove_dups (omap group under)).

(** Running the iterator to its end: an error of [it.Next()], or all
    entries. *)
Definition Objects (E : extern) (bkt prefix delimiter : string) : IO (error + list ObjectAttrs) :=
  emit (EvList bkt prefix);;
  match listErr E bkt prefix with
  | Some err => mret (inl err)
  | None => objs ← getObjects; mret (inr (queryObjects objs bkt prefix delimiter))
  end.

(** [obj.NewReader(ctx)]: the contents, or an error. *)
Definition NewReader (E : extern) (bkt name : string) : IO (error + string) :=
  emit (EvRead bkt name);;
  match readErr E bkt name with
  | Some err => mret (inl err)
  | None =>
      objs ← getObjects;
      mret (match objs !! (bkt, name) with
            | Some data => inr data
            | None => inl ErrObjectNotExist
            end)
  end.

(** [destObj.CopierFrom(srcObj).Run(ctx)]: a server-side copy of one
    object. *)
Definition copierRun (E : extern) (srcBkt destBkt name : string) : IO (option error) :=
  emit (EvCopy srcBkt destBkt name);;
  match copyErr E srcBkt destBkt name with
  | Some err => mret (Some err)
  | None =>
      objs ← getObjects;
      match objs !! (srcBkt, name) with
      | Some data => putObject destBkt name data;; mret None
      | None => mret (Some ErrObjectNotExist)
      end
  end.

(** [obj.NewWriter(ctx)] closed at once: an empty object. *)
Definition writeEmpty (E : extern) (bkt name : string) : IO (option error) :=
  emit (EvWrite bkt name);;
  match writeErr E bkt name with
  | Some err => mret (Some err)
  | None => putObject bkt name "";; mret None
  end.

(** ** Listing *)

(** The loop body of [listPrefix] (main.go:435-448) over the entries. *)
Fixpoint relativePaths (prefix : string) (objs : list ObjectAttrs) (result : list string)
    : error + list string :=
  match objs with
  | [] => inr result
  | obj :: rest =>
      let path := if negb (bool_decide (Prefix obj = "")) then Prefix obj else Name obj in
      if strings.HasPrefix path prefix
      then relativePaths prefix rest (result ++ [strings.TrimPrefix path prefix])
      else inl (errorString ("listPrefix: path has invalid prefix: " +:+ path
                               +:+ ", expected prefix: " +:+ prefix))
  end.

(** [listPrefix] (main.go:409-452). *)
Definition listPrefix (E : extern) (bkt prefix : string) (recursive : bool)
    : IO (error + list string) :=
  let prefix :=
    if bool_decide (0 < String.length prefix)%nat
       && negb (bool_decide (strings.lastByte prefix = delim))
    then prefix +:+ delim else prefix in
  r ← Objects E bkt prefix (if recursive then "" else delim);
  match r with
  | inl err => mret (inl (Wrapped ("listPrefix: error listing " +:+ prefix) err))
  | inr objs => mret (relativePaths prefix objs [])
  end.

(** [trimDelimSuffix] (main.go:403-407). *)
Definition trimDelimSuffix (items : list string) : list string :=
  (fun item => strings.TrimSuffix item delim) <$> items.

(** [listTenants] (main.go:342-351). *)
Definition listTenants (E : extern) (bkt : string) : IO (error + list string) :=
  r ← listPrefix E bkt "" false;
  match r with
  | inl err => mret (inl err)
  | inr users => mret (inr (trimDelimSuffix users))
  end.

(** [listBlocksForTenant] (main.go:353-370). *)
Definition listBlocksForTenant (E : extern) (bkt tenantID : string)
    : IO (error + list ulid.ULID) :=
  r ← listPrefix E bkt tenantID false;
  match r with
  | inl err => mret (inl err)
  | inr items =>
      mret (inr (omap (fun b => let '(id, ok) := IsBlockDir b in
                                if ok then Some id else None)
                      (trimDelimSuffix items)))
  end.

(** The loop body of [listBlockMarkersForTenant] (main.go:387-397) for one
    listed name. *)
Definition addMarker (destinationBucket : string)
    (result : gmap ulid.ULID blockMarkers) (m : string) : gmap ulid.ULID blockMarkers :=
  let result :=
    let '(id, ok) := IsBlockDeletionMarkFilename m in
    if ok then <[id := {| deletion := true; copied := copied (result !!! id) |}]> result
    else result in
  let '(ok, id, targetBucket) := IsCopiedToBucketMarkFilename m in
  if ok && bool_decide (targetBucket = destinationBucket)
  then <[id := {| deletion := deletion (result !!! id); copied := true |}]> result
  else result.

(** [listBlockMarkersForTenant] (main.go:378-401). *)
Definition listBlockMarkersForTenant (E : extern) (bkt tenantID destinationBucket : string)
    : IO (error + gmap ulid.ULID blockMarkers) :=
  r ← listPrefix E bkt (tenantID +:+ delim +:+ MarkersPathname) false;
  match r with
  | inl err => mret (inl err)
  | inr markers => mret (inr (foldl (addMarker destinationBucket) ∅ markers))
  end.

(** ** Copying one block *)

(** The reorder loop of [copySingleBlock] (main.go:286-293), from index
    [ix] on.  [append(paths[:ix], paths[ix+1:]...)] followed by
    [append(paths, block.MetaFilename)] writes within the capacity of the
    slice, so the loop works on a sequence of constant length.  The [else]
    branch increments [ix], and so does the loop header after either
    branch. *)
Equations? reorderFrom (paths : list string) (ix : nat) : list string
    by wf (length paths - ix)%nat lt :=
  reorderFrom paths ix with decide (ix < length paths)%nat => {
    | right _ := paths;
    | left Hlt with bool_decide (paths !!! ix = MetaFilename)
                    && bool_decide (ix < length paths - 1)%nat => {
        | true := reorderFrom (take ix paths ++ drop (S ix) paths ++ [MetaFilename]) (S ix);
        | false := reorderFrom paths (S (S ix)) } }.
Proof.
  - rewrite !length_app, length_take, length_drop. simpl. lia.
  - lia.
Qed.

Definition reorder (paths : list string) : list string := reorderFrom paths 0.

Definition blockPath (tenantID : string) (blockID : ulid.ULID) (p : string) : string :=
  tenantID +:+ delim +:+ ulid.String blockID +:+ delim +:+ p.

(** The copy loop of [copySingleBlock] (main.go:295-306). *)
Fixpoint copyPaths (E : extern) (tenantID : string) (blockID : ulid.ULID)
    (srcBkt destBkt : string) (paths : list string) : IO (option error) :=
  match paths with
  | [] => mret None
  | p :: rest =>
      let fullPath := blockPath tenantID blockID p in
      err ← copierRun E srcBkt destBkt fullPath;
      match err with
      | Some e => mret (Some (Wrapped ("copySingleBlock: failed to copy " +:+ fullPath) e))
      | None => copyPaths E tenantID blockID srcBkt destBkt rest
      end
  end.

(** [copySingleBlock] (main.go:278-309). *)
Definition copySingleBlock (E : extern) (tenantID : string) (blockID : ulid.ULID)
    (srcBkt destBkt : string) : IO (option error) :=
  r ← listPrefix E srcBkt (tenantID +:+ delim +:+ ulid.String blockID) true;
  match r with
  | inl err =>
      mret (Some (Wrapped ("copySingleBlock: failed to list block files for "
                             +:+ tenantID +:+ "/" +:+ ulid.String blockID) err))
  | inr paths => copyPaths E tenantID blockID srcBkt destBkt (reorder paths)
  end.

(** [uploadCopiedMarkerFile] (main.go:311-317). *)
Definition uploadCopiedMarkerFile (E : extern) (bkt tenantID : string)
    (blockID : ulid.ULID) (targetBucketName : string) : IO (option error) :=
  err ← writeEmpty E bkt (tenantID +:+ delim +:+ CopiedToBucketMarkFilename blockID targetBucketName);
  mret (Wrapf err "uploadCopiedMarkerFile").

(** [loadMetaJSONFile] (main.go:319-340).  The reader is closed before the
    decoding error is looked at; the last [errors.Wrapf] wraps [err], which
    is nil at that point, so a failed close returns the zero [Meta] and no
    error. *)
Definition loadMetaJSONFile (E : extern) (bkt tenantID : string) (blockID : ulid.ULID)
    : IO (Meta * option error) :=
  let name := blockPath tenantID blockID MetaFilename in
  r ← NewReader E bkt name;
  match r with
  | inl err => mret (zeroMeta, Some (Wrapped ("failed to read " +:+ name) err))
  | inr data =>
      let closeErr := closeErr E bkt name in
      match decodeMeta E data with
      | inl err => mret (zeroMeta, Some (Wrapped ("read " +:+ name) err))
      | inr m =>
          match closeErr with
          | Some _ => mret (zeroMeta, Wrapf None ("close reader for " +:+ name))
          | None => mret (m, None)
          end
      end
  end.

(** ** The per-block decision *)

(** How a guarded part of a function body ends: with a [return], or by
    falling through to the statement after it. *)
Inductive flow := Return (err : option error) | Proceed.

(** The minimum-duration check (main.go:220-232). *)
Definition checkMinDuration (E : extern) (cfg : config) (lg : logger)
    (tenantID : string) (blockID : ulid.ULID) : IO flow :=
  if 0 <? minBlockDuration cfg then
    '(meta, err) ← loadMetaJSONFile E (sourceBucket cfg) tenantID blockID;
    match err with
    | Some e =>
        Log Error lg "skipping block, failed to read meta.json file";;
        mret (Return (Some e))
    | None =>
        let blockDuration := wrap64 (Millisecond * wrap64 (MaxTime meta - MinTime meta)) in
        if blockDuration <? minBlockDuration cfg then
          Log Debug lg "skipping block, block duration is smaller than minimum duration";;
          mret (Return None)
        else mret Proceed
    end
  else mret Proceed.

(** The dry-run check and the copy (main.go:234-256). *)
Definition copyOrDryRun (E : extern) (cfg : config) (lg : logger)
    (tenantID : string) (blockID : ulid.ULID) : IO (option error) :=
  if dryRun cfg then
    Log Info lg "would copy block, but skipping due to dry-run";;
    mret None
  else
    Log Info lg "copying block";;
    err ← copySingleBlock E tenantID blockID (sourceBucket cfg) (destBucket cfg);
    match err with
    | Some e =>
        incr incBlocksCopyFailed;;
        Log Error lg "failed to copy block";;
        mret (Some e)
    | None =>
        incr incBlocksCopied;;
        Log Info lg "block copied successfully";;
        err ← uploadCopiedMarkerFile E (sourceBucket cfg) tenantID blockID (destBucket cfg);
        match err with
        | Some e =>
            Log Error lg "failed to upload copied-marker file for block";;
            mret (Some e)
        | None => mret None
        end
    end.

(** The function run for every block of a tenant (main.go:202-257). *)
Definition processBlock (E : extern) (cfg : config) (lg : logger) (tenantID : string)
    (markers : gmap ulid.ULID blockMarkers) (blockIDStr : string) : IO (option error) :=
  match ulid.Parse blockIDStr with
  | inl e => mret (Some (ParseError e))
  | inr blockID =>
      let lg := lg ++ [("block", ulid.String blockID)] in
      if copied (markers !!! blockID) then
        Log Debug lg "skipping block because it has been copied already";;
        mret None
      else if deletion (markers !!! blockID) then
        Log Debug lg "skipping block because it is marked for deletion";;
        mret None
      else
        f ← checkMinDuration E cfg lg tenantID blockID;
        match f with
        | Return err => mret err
        | Proceed => copyOrDryRun E cfg lg tenantID blockID
        end
  end.

(** ** A copy cycle *)

(** Modelled from the spec: [concurrency.ForEachUser] (grafana/dskit) is
    imported and not part of the sources.  The spec (4.7) describes it: the
    function runs for every listed unit, a unit that fails does not stop
    the others, and the aggregate is an error if and only if a unit failed.
    The jobs run here one after the other, which is the schedule of a single
    worker (a concurrency of 1); workers are started only for a positive
    concurrency.  Cancellation is not modelled. *)
Fixpoint runJobs (userIDs : list string) (userFunc : string → IO (option error))
    : IO (list error) :=
  match userIDs with
  | [] => mret []
  | userID :: rest =>
      err ← userFunc userID;
      errs ← runJobs rest userFunc;
      mret (option_list err ++ errs)
  end.

Definition ForEachUser (userIDs : list string) (concurrency : Z)
    (userFunc : string → IO (option error)) : IO (option error) :=
  if bool_decide (userIDs = []) then mret None
  else if concurrency <=? 0 then mret None
  else
    errs ← runJobs userIDs userFunc;
    mret (if bool_decide (errs = []) then None else Some (MultiError errs)).

(** The sets are built from the configured lists (main.go:154-162). *)
Definition userSet (users : list string) : gset string :=
  foldl (fun s u => {[u]} ∪ s) ∅ users.

(** [isAllowedUser] (main.go:261-275).  The two Go maps
    [map[string]struct{}] are sets of tenant IDs. *)
Definition isAllowedUser (enabled disabled : gset string) (tenantID : string) : bool :=
  if bool_decide (0 < size enabled)%nat && negb (bool_decide (tenantID ∈ enabled))
  then false
  else if bool_decide (0 < size disabled)%nat && bool_decide (tenantID ∈ disabled)
  then false
  else true.

(** The function run for every tenant (main.go:177-258). *)
Definition processTenant (E : extern) (cfg : config) (lg : logger)
    (enabled disabled : gset string) (tenantID : string) : IO (option error) :=
  if negb (isAllowedUser enabled disabled tenantID) then mret None
  else
    let lg := lg ++ [("tenantID", tenantID)] in
    r ← listBlocksForTenant E (sourceBucket cfg) tenantID;
    match r with
    | inl err =>
        Log Error lg "failed to list blocks for tenant";;
        mret (Some (Wrapped ("failed to list blocks for tenant " +:+ tenantID) err))
    | inr blocks =>
        r ← listBlockMarkersForTenant E (sourceBucket cfg) tenantID (destBucket cfg);
        match r with
        | inl err =>
            Log Error lg "failed to list blocks markers for tenant";;
            mret (Some (Wrapped ("failed to list block markers for tenant " +:+ tenantID) err))
        | inr markers =>
            let blockIDs := ulid.String <$> blocks in
            ForEachUser blockIDs (blocksConcurrency cfg)
              (processBlock E cfg lg tenantID markers)
        end
    end.

(** [copyBlocks] (main.go:153-259). *)
Definition copyBlocks (E : extern) (cfg : config) (lg : logger) : IO (option error) :=
  let enabled := userSet (enabledUsers cfg) in
  let disabled := userSet (disabledUsers cfg) in
  match clientErr E with
  | Some err => mret (Some (Wrapped "failed to create client" err))
  | None =>
      r ← listTenants E (sourceBucket cfg);
      match r with
      | inl err => mret (Some (Wrapped "failed to list tenants" err))
      | inr tenants =>
          ForEachUser tenants (tenantConcurrency cfg)
            (processTenant E cfg lg enabled disabled)
      end
  end.

(** [runCopy] (main.go:140-151). *)
Definition runCopy (E : extern) (cfg : config) (lg : logger) : IO bool :=
  err ← copyBlocks E cfg lg;
  match err with
  | Some _ =>
      incr incCopyCyclesFailed;;
      Log Error lg "failed to copy blocks";;
      mret false
  | None =>
      incr incCopyCyclesSucceeded;;
      Log Info lg "finished copying blocks";;
      mret true
  end.

(** The ticker loop of [main] (main.go:131-137): one cycle per tick until
    the context is cancelled.  [ticks] holds the store faults of the cycle
    of each tick that arrives before the cancellation. *)
Fixpoint tickerLoop (ticks : list extern) (cfg : config) (lg : logger) : IO unit :=
  match ticks with
  | [] => mret tt
  | E :: rest => runCopy E cfg lg;; tickerLoop rest cfg lg
  end.

(** [main] (main.go:91-138), from the parsed flags on: the main line, with
    the exit status it ends on.  The metrics HTTP server that runs beside it
    in a goroutine (main.go:110-118) touches neither the buckets nor the
    counters; the exit it can cause is in [exitStatus] below. *)
Definition main (E : extern) (ticks : list extern) (cfg : config) : IO Z :=
  let lg : logger := [] in
  if bool_decide (sourceBucket cfg = "") || bool_decide (destBucket cfg = "")
     || bool_decide (sourceBucket cfg = destBucket cfg)
  then
    Log Error lg "no source or destination bucket, or buckets are the same";;
    mret 1
  else
    success ← runCopy E cfg lg;
    if copyPeriod cfg <=? 0 then mret (if success : bool then 0 else 1)
    else tickerLoop ticks cfg lg;; mret 0.

(** The exit status of the process.  With bad bucket names the process ends
    with status 1 before the goroutine of main.go:110-118 is started.
    Otherwise the goroutine serves the metrics beside the main line;
    [http.ListenAndServe] returns only with an error, and the goroutine then
    ends the process with [os.Exit(1)].  [httpErr] is that error when the
    server fails before the main line has ended the process, and [None] when
    it still serves at that point; then the status is the one of the main
    line. *)
Definition exitStatus (httpErr : option error) (E : extern) (ticks : list extern)
    (cfg : config) (w : world) : Z :=
  if bool_decide (sourceBucket cfg = "") || bool_decide (destBucket cfg = "")
     || bool_decide (sourceBucket cfg = destBucket cfg)
  then 1
  else
    match httpErr with
    | Some _ => 1
    | None => fst (main E ticks cfg w)
    end.

(** * Part II: notions used in the statements, and sample data *)

(** The byte [c] occurs in [s]. *)
Definition contains (c : ascii) (s : string) : Prop := c ∈ list_ascii_of_string s.

#[global] Instance contains_dec c s : Decision (contains c s).
Proof. unfold contains. apply _. Defined.

(** All values of a byte. *)
Definition byteRange : list Z := Z.of_nat <$> seq 0 256.

(** The block ID [01EZED0X3YZMNJ3NHGMJJKMHCR]. *)
Definition sampleID : ulid.ULID :=
  [1; 119; 220; 208; 116; 126; 253; 43; 33; 214; 48; 164; 165; 58; 69; 152].

(** A digit of the base-32 alphabet of block identifiers, in either case. *)
Definition base32Digit (c : ascii) : Prop :=
  c ∈ list_ascii_of_string ulid.Encoding ∨ c ∈ list_ascii_of_string ulid.lower.

(** A valid block identifier in the words of the spec (3, 4.2): a
    fixed-length text of 26 characters, each a base-32 digit; the first
    digit is not above ['7'], as 26 digits carry 130 bits and an identifier
    has 128. *)
Definition validBlockID (s : string) : Prop :=
  let v := list_ascii_of_string s in
  length v = 26%nat
  ∧ Forall base32Digit v
  ∧ (N_of_ascii (v !!! 0%nat) ≤ N_of_ascii "7")%N.

(** The shape [<validBlockID>-copied-<bucket>] of a copy marker name, in the
    words of the spec (4.3) and of the claim: a valid block identifier, the
    separator, the token [copied], the separator, and the bucket name. *)
Definition specMarkShape (name : string) : Prop :=
  ∃ blockID bucket,
    name = blockID +:+ "-" +:+ CopiedMarkFilename +:+ "-" +:+ bucket
    ∧ validBlockID blockID.

(** What the code asks of the text of a block identifier: 26 bytes, the
    first not above ['7']; the other bytes are not looked at. *)
Definition lenientBlockID (s : string) : Prop :=
  let v := list_ascii_of_string s in
  length v = 26%nat ∧ (N_of_ascii (v !!! 0%nat) ≤ N_of_ascii "7")%N.

(** The shape of the names the code takes for copy markers, on the bytes of
    the name: a first part without the separator, the token [copied], and
    the bucket name, where the last path element of the first part has the
    26 bytes of a block identifier.  It is wider than [specMarkShape]: the
    first part may be a path, as it is in the encoded marker path
    [markers/<blockID>-copied-<bucket>], and only the first of the 26 bytes
    is checked. *)
Definition copiedMarkShape (name : string) : Prop :=
  ∃ part0 bucket,
    name = part0 +:+ "-" +:+ CopiedMarkFilename +:+ "-" +:+ bucket
    ∧ ¬ contains "-" part0
    ∧ lenientBlockID (filepath.Base part0).

(** The world with more events in its trace. *)
Definition withEvents (w : world) (evs : list event) : world :=
  {| objects := objects w; counters := counters w; trace := trace w ++ evs |}.

(** The events that change a bucket. *)
Definition isWrite (e : event) : bool :=
  match e with
  | EvCopy _ _ _ | EvWrite _ _ => true
  | _ => false
  end.

(** A step from [w] to [w'] that reads only: buckets and counters stay, and
    the new events are no writes. *)
Definition readsOnly (w w' : world) : Prop :=
  ∃ evs, w' = withEvents w evs ∧ Forall (fun e => isWrite e = false) evs.

(** A step that leaves the buckets alone and adds no write event; counters
    may move. *)
Definition writesNothing (w w' : world) : Prop :=
  objects w' = objects w
  ∧ ∃ evs, trace w' = trace w ++ evs ∧ Forall (fun e => isWrite e = false) evs.

(** [m] keeps the relation [R] between the world before and after. *)
Definition keeps (R : world → world → Prop) {A : Type} (m : IO A) : Prop :=
  ∀ w, R w (snd (m w)).

(** The logger of a block: [log.With(logger, "block", blockID)]. *)
Definition blockLogger (lg : logger) (blockID : ulid.ULID) : logger :=
  lg ++ [("block", ulid.String blockID)].

(** The prefix [listPrefix] queries: with a trailing delimiter. *)
Definition queryPrefix (prefix : string) : string :=
  if bool_decide (0 < String.length prefix)%nat
     && negb (bool_decide (strings.lastByte prefix = delim))
  then prefix +:+ delim else prefix.

(** The path [listPrefix] reads off a listed entry. *)
Definition entryPath (obj : ObjectAttrs) : string :=
  if negb (bool_decide (Prefix obj = "")) then Prefix obj else Name obj.

(** The path of a block's copy marker in a bucket. *)
Definition markerPath (tenantID : string) (blockID : ulid.ULID) (bucket : string) : string :=
  tenantID +:+ delim +:+ CopiedToBucketMarkFilename blockID bucket.

(** Why copying one object fails, if it does: a fault of the store, or no
    such object in the source bucket. *)
Definition copyFault (E : extern) (objs : gmap (string * string) string)
    (srcBkt destBkt name : string) : option error :=
  match copyErr E srcBkt destBkt name with
  | Some e => Some e
  | None =>
      match objs !! (srcBkt, name) with
      | Some _ => None
      | None => Some ErrObjectNotExist
      end
  end.

(** The buckets after copying the objects [names], one after the other. *)
Definition copyAll (srcBkt destBkt : string) (names : list string)
    (objs : gmap (string * string) string) : gmap (string * string) string :=
  foldl (fun o n => match o !! (srcBkt, n) with
                    | Some data => <[(destBkt, n) := data]> o
                    | None => o
                    end) objs names.

Definition copyEvents (srcBkt destBkt : string) (names : list string) : list event :=
  EvCopy srcBkt destBkt <$> names.

(** A step that changes objects under the keys [K] only. *)
Definition changesOnly (K : string * string → Prop) (w w' : world) : Prop :=
  ∀ key, ¬ K key → objects w' !! key = objects w !! key.

(** A step that leaves the counters alone. *)
Definition countersKept (w w' : world) : Prop := counters w' = counters w.

(** The keys a block's processing may write: the objects of the block in
    the destination bucket and the block's copy marker in the source
    bucket. *)
Definition blockKeys (cfg : config) (tenantID : string) (blockID : ulid.ULID)
    (key : string * string) : Prop :=
  key = (sourceBucket cfg, markerPath tenantID blockID (destBucket cfg))
  ∨ ∃ p, key = (destBucket cfg, blockPath tenantID blockID p).

(** A step that leaves the source bucket alone, and in which an object that
    changes is an object of the destination bucket with a name in [K], now
    holding what the source object of that name holds. *)
Definition mirrors (srcBkt destBkt : string) (K : string → Prop) (w w' : world) : Prop :=
  (∀ n, objects w' !! (srcBkt, n) = objects w !! (srcBkt, n))
  ∧ ∀ key, objects w' !! key = objects w !! key
           ∨ ∃ n, key = (destBkt, n) ∧ K n
                  ∧ is_Some (objects w !! (srcBkt, n))
                  ∧ objects w' !! key = objects w !! (srcBkt, n).

(** A step that leaves the two cycle counters alone. *)
Definition cyclesKept (w w' : world) : Prop :=
  copyCyclesSucceeded (counters w') = copyCyclesSucceeded (counters w)
  ∧ copyCyclesFailed (counters w') = copyCyclesFailed (counters w).

(** A step that removes no object, changes an object of the bucket [srcBkt]
    only by writing an empty one, and leaves the buckets other than
    [srcBkt] and [destBkt] alone. *)
Definition grows (srcBkt destBkt : string) (w w' : world) : Prop :=
  (∀ key, is_Some (objects w !! key) → is_Some (objects w' !! key))
  ∧ (∀ n, objects w' !! (srcBkt, n) = objects w !! (srcBkt, n)
          ∨ objects w' !! (srcBkt, n) = Some "")
  ∧ (∀ bkt n, bkt ≠ srcBkt → bkt ≠ destBkt →
              objects w' !! (bkt, n) = objects w !! (bkt, n)).

(** The cycles counted so far, succeeded or failed. *)
Definition cycles (w : world) : nat :=
  (copyCyclesSucceeded (counters w) + copyCyclesFailed (counters w))%nat.

(** The accesses to the store that the configuration allows: listings and
    reads of the source bucket, copies from the source to the destination
    bucket, and writes of copy markers for the destination into the source
    bucket. *)
Definition allowedAccess (cfg : config) (e : event) : Prop :=
  match e with
  | EvLog _ _ _ => True
  | EvList bkt _ | EvRead bkt _ => bkt = sourceBucket cfg
  | EvCopy srcBkt destBkt _ => srcBkt = sourceBucket cfg ∧ destBkt = destBucket cfg
  | EvWrite bkt name =>
      bkt = sourceBucket cfg
      ∧ ∃ tenantID blockID, name = markerPath tenantID blockID (destBucket cfg)
  end.

(** A step whose events are all allowed accesses. *)
Definition accessesOnly (cfg : config) (w w' : world) : Prop :=
  ∃ evs, trace w' = trace w ++ evs ∧ Forall (allowedAccess cfg) evs.

(** ** Sample data *)

(** A JSON decoder for the three descriptors of the samples: blocks of 23
    hours, of 25 hours, and of 9223372036855 milliseconds. *)
Definition sampleDecode (data : string) : error + Meta :=
  if bool_decide (data = "{minTime:0,maxTime:82800000}")
  then inr {| MinTime := 0; MaxTime := 82800000 |}
  else if bool_decide (data = "{minTime:0,maxTime:90000000}")
  then inr {| MinTime := 0; MaxTime := 90000000 |}
  else if bool_decide (data = "{minTime:0,maxTime:9223372036855}")
  then inr {| MinTime := 0; MaxTime := 9223372036855 |}
  else inl (errorString "invalid character").

(** A store without faults. *)
Definition sampleExtern : extern :=
  {| clientErr := None;
     listErr := fun _ _ => None;
     readErr := fun _ _ => None;
     decodeMeta := sampleDecode;
     closeErr := fun _ _ => None;
     copyErr := fun _ _ _ => None;
     writeErr := fun _ _ => None |}.

(** A store on which copying the index of a block fails. *)
Definition indexFails : extern :=
  {| clientErr := None;
     listErr := fun _ _ => None;
     readErr := fun _ _ => None;
     decodeMeta := sampleDecode;
     closeErr := fun _ _ => None;
     copyErr := fun _ _ name =>
       if bool_decide (name = "t1/01EZED0X3YZMNJ3NHGMJJKMHCR/index")
       then Some (errorString "googleapi: Error 503") else None;
     writeErr := fun _ _ => None |}.

Definition sampleCfg : config :=
  {| sourceBucket := "src"; destBucket := "dst"; minBlockDuration := 24 * Hour;
     tenantConcurrency := 5; blocksConcurrency := 5; copyPeriod := 0;
     enabledUsers := []; disabledUsers := []; dryRun := false;
     httpListen := ":8080" |}.

Definition sampleTenant : string := "t1".
Definition sampleBlockStr : string := "01EZED0X3YZMNJ3NHGMJJKMHCR".

Definition noCounts : metrics :=
  {| copyCyclesSucceeded := 0; copyCyclesFailed := 0; blocksCopied := 0; blocksCopyFailed := 0 |}.

(** A source bucket with one block of tenant [t1]: two chunks, the index,
    the metadata descriptor [meta] and the tombstones, and more objects
    [extra]. *)
Definition sampleWorld (meta : string) (extra : list (string * string * string)) : world :=
  {| objects :=
       list_to_map
         ([ (("src", "t1/01EZED0X3YZMNJ3NHGMJJKMHCR/chunks/000001"), "chunk1");
            (("src", "t1/01EZED0X3YZMNJ3NHGMJJKMHCR/chunks/000002"), "chunk2");
            (("src", "t1/01EZED0X3YZMNJ3NHGMJJKMHCR/index"), "index");
            (("src", "t1/01EZED0X3YZMNJ3NHGMJJKMHCR/meta.json"), meta);
            (("src", "t1/01EZED0X3YZMNJ3NHGMJJKMHCR/tombstones"), "tombstones") ]
          ++ extra);
     counters := noCounts;
     trace := [] |}.

Definition meta23h : string := "{minTime:0,maxTime:82800000}".
Definition meta25h : string := "{minTime:0,maxTime:90000000}".
Definition metaLong : string := "{minTime:0,maxTime:9223372036855}".

(** The objects copied, in order: the names of the [EvCopy] events. *)
Definition copiedNames (tr : list event) : list string :=
  omap (fun e => match e with EvCopy _ _ name => Some name | _ => None end) tr.

(** A first cycle copies the sample block and writes its marker; the
    resolver of the second cycle finds the marker and the block is
    skipped. *)
Definition firstCycle : option error * world :=
  processBlock sampleExtern sampleCfg [] sampleTenant ∅ sampleBlockStr
    (sampleWorld meta25h []).

Definition secondListing : (error + gmap ulid.ULID blockMarkers) * world :=
  listBlockMarkersForTenant sampleExtern (sourceBucket sampleCfg) sampleTenant
    (destBucket sampleCfg) (snd firstCycle).

Definition secondMarkers : gmap ulid.ULID blockMarkers :=
  match fst secondListing with inr m => m | inl _ => ∅ end.

Definition run23h : option error * world :=
  processBlock sampleExtern sampleCfg [] sampleTenant ∅ sampleBlockStr (sampleWorld meta23h []).

Definition run25h : option error * world :=
  processBlock sampleExtern sampleCfg [] sampleTenant ∅ sampleBlockStr (sampleWorld meta25h []).

Definition runLong : option error * world :=
  processBlock sampleExtern sampleCfg [] sampleTenant ∅ sampleBlockStr (sampleWorld metaLong []).

Definition sampleMetaName : string := blockPath sampleTenant sampleID MetaFilename.

(** The sample block with both a copy marker for [dst] and a deletion
    marker. *)
Definition bothMarked : world :=
  sampleWorld meta25h
    [ (("src", "t1/markers/01EZED0X3YZMNJ3NHGMJJKMHCR-copied-dst"), "");
      (("src", "t1/markers/01EZED0X3YZMNJ3NHGMJJKMHCR-deletion-mark.json"), "{}") ].

Definition bothListing : (error + gmap ulid.ULID blockMarkers) * world :=
  listBlockMarkersForTenant sampleExtern "src" sampleTenant "dst" bothMarked.

Definition bothMarkers : gmap ulid.ULID blockMarkers :=
  match fst bothListing with inr m => m | inl _ => ∅ end.

Definition dryCfg : config :=
  {| sourceBucket := "src"; destBucket := "dst"; minBlockDuration := 24 * Hour;
     tenantConcurrency := 5; blocksConcurrency := 5; copyPeriod := 0;
     enabledUsers := []; disabledUsers := []; dryRun := true;
     httpListen := ":8080" |}.

Definition sameBucketCfg : config :=
  {| sourceBucket := "blocks"; destBucket := "blocks"; minBlockDuration := 24 * Hour;
     tenantConcurrency := 5; blocksConcurrency := 5; copyPeriod := 0;
     enabledUsers := []; disabledUsers := []; dryRun := false;
     httpListen := ":8080" |}.

Definition sampleListing : (error + list string) * world :=
  listPrefix indexFails "src" (sampleTenant +:+ delim +:+ ulid.String sampleID) true
    (sampleWorld meta25h []).

(** The metadata descriptor is listed once, at index [i]. *)
Definition metaOnlyAt (paths : list string) (i : nat) : Prop :=
  paths !! i = Some MetaFilename ∧ ∀ j, j ≠ i → paths !! j ≠ Some MetaFilename.

Definition plainListing : (error + list string) * world :=
  listPrefix sampleExtern "src" (sampleTenant +:+ delim +:+ ulid.String sampleID) true
    (sampleWorld meta25h []).

(** The sample block as [listBlocksForTenant] finds it. *)
Definition sampleBlocks : (error + list ulid.ULID) * world :=
  listBlocksForTenant sampleExtern "src" sampleTenant (sampleWorld meta25h []).

(** The sample block copied on a store without faults. *)
Definition plainCopy : option error * world :=
  copySingleBlock sampleExtern sampleTenant sampleID "src" "dst" (sampleWorld meta25h []).

(** The sample block copied on the store where the copy of the index
    fails. *)
Definition partialCopy : option error * world :=
  copySingleBlock indexFails sampleTenant sampleID "src" "dst" (sampleWorld meta25h []).

(** A store on which closing the reader of a metadata descriptor fails. *)
Definition closeFails : extern :=
  {| clientErr := None;
     listErr := fun _ _ => None;
     readErr := fun _ _ => None;
     decodeMeta := sampleDecode;
     closeErr := fun _ _ => Some (errorString "context canceled");
     copyErr := fun _ _ _ => None;
     writeErr := fun _ _ => None |}.

(** A store on which writing an object fails. *)
Definition writeFails : extern :=
  {| clientErr := None;
     listErr := fun _ _ => None;
     readErr := fun _ _ => None;
     decodeMeta := sampleDecode;
     closeErr := fun _ _ => None;
     copyErr := fun _ _ _ => None;
     writeErr := fun _ _ => Some (errorString "googleapi: Error 403") |}.

(** The sample block processed on the store where the marker cannot be
    written. *)
Definition unmarkedCycle : option error * world :=
  processBlock writeFails sampleCfg [] sampleTenant ∅ sampleBlockStr (sampleWorld meta25h []).

(** No object in any bucket. *)
Definition emptyWorld : world := {| objects := ∅; counters := noCounts; trace := [] |}.

(** A store on which listing the markers of tenant [t1] fails. *)
Definition markersListFails : extern :=
  {| clientErr := None;
     listErr := fun _ prefix =>
       if bool_decide (prefix = "t1/markers/")
       then Some (errorString "googleapi: Error 503") else None;
     readErr := fun _ _ => None;
     decodeMeta := sampleDecode;
     closeErr := fun _ _ => None;
     copyErr := fun _ _ _ => None;
     writeErr := fun _ _ => None |}.

(** * Part III: properties *)

(** ** Strings *)

Section string_facts.

Lemma contains_cons c x s : contains c (String x s) ↔ c = x ∨ contains c s.
Proof. unfold contains. simpl. apply elem_of_cons. Qed.

Lemma contains_nil c : ¬ contains c "".
Proof. unfold contains. simpl. apply not_elem_of_nil. Qed.

Lemma app_cons_s (x : ascii) (a b : string) : String x a +:+ b = String x (a +:+ b).
Proof. reflexivity. Qed.

Lemma app_nil_l_s (b : string) : "" +:+ b = b.
Proof. reflexivity. Qed.

Lemma contains_app c s t : contains c (s +:+ t) ↔ contains c s ∨ contains c t.
Proof.
  induction s as [|x s IH].
  - rewrite app_nil_l_s. split; [auto | intros [H | H]; [by apply contains_nil in H | done]].
  - rewrite app_cons_s, !contains_cons, IH. tauto.
Qed.

Lemma app_assoc_s (a b c : string) : (a +:+ b) +:+ c = a +:+ b +:+ c.
Proof. induction a as [|x a IH]; [done | by rewrite !app_cons_s, IH]. Qed.

Lemma app_nil_r_s (a : string) : a +:+ "" = a.
Proof. induction a as [|x a IH]; [done | by rewrite app_cons_s, IH]. Qed.

Lemma list_ascii_app (a b : string) :
  list_ascii_of_string (a +:+ b) = list_ascii_of_string a ++ list_ascii_of_string b.
Proof. induction a as [|x a IH]; [done | rewrite app_cons_s; simpl; by rewrite IH]. Qed.

Lemma CutPrefix_app (p r : string) : strings.CutPrefix (p +:+ r) p = Some r.
Proof.
  induction p as [|x p IH]; [reflexivity |].
  rewrite app_cons_s. simpl. by rewrite bool_decide_eq_true_2.
Qed.

Lemma CutPrefix_Some (s p r : string) : strings.CutPrefix s p = Some r → s = p +:+ r.
Proof.
  revert s. induction p as [|x p IH]; intros s; simpl.
  - by intros [= ->].
  - destruct s as [|c s]; [done |]. case_bool_decide as Hc; [|done].
    intros Hr%IH. by subst.
Qed.

Lemma HasPrefix_app (p r : string) : strings.HasPrefix (p +:+ r) p = true.
Proof. unfold strings.HasPrefix. rewrite CutPrefix_app. by apply bool_decide_eq_true_2. Qed.

Lemma HasPrefix_true (s p : string) :
  strings.HasPrefix s p = true ↔ ∃ r, s = p +:+ r.
Proof.
  unfold strings.HasPrefix. rewrite bool_decide_eq_true. split.
  - intros [r Hr]. exists r. by apply CutPrefix_Some.
  - intros [r ->]. rewrite CutPrefix_app. by eexists.
Qed.

Lemma TrimPrefix_app (p r : string) : strings.TrimPrefix (p +:+ r) p = r.
Proof. unfold strings.TrimPrefix. by rewrite CutPrefix_app. Qed.

(** Cutting at a one-byte separator. *)
Lemma Cut_char_cons (c x : ascii) (s : string) :
  strings.Cut (String x s) (String c "") =
    if bool_decide (x = c) then Some ("", s)
    else (fun '(before, after) => (String x before, after)) <$> strings.Cut s (String c "").
Proof.
  simpl. case_bool_decide; [by destruct s | done].
Qed.

Lemma Cut_char_None (c : ascii) (s : string) :
  strings.Cut s (String c "") = None ↔ ¬ contains c s.
Proof.
  induction s as [|x s IH].
  - simpl. split; [intros _; apply contains_nil | done].
  - rewrite Cut_char_cons, contains_cons. case_bool_decide as Hx.
    + split; [done | intros []; auto].
    + destruct (strings.Cut s (String c "")) as [[a b]|] eqn:Hc; simpl.
      * split; [done |]. intros Hn. exfalso. apply Hn. right.
        destruct (decide (contains c s)) as [|Hs]; [done |].
        by apply IH in Hs.
      * split; [|done]. intros _ [-> | Hs]; [done |]. by apply IH in Hs.
Qed.

Lemma Cut_char_app (c : ascii) (a b : string) :
  ¬ contains c a → strings.Cut (a +:+ String c b) (String c "") = Some (a, b).
Proof.
  induction a as [|x a IH]; intros Hn.
  - rewrite app_nil_l_s, Cut_char_cons. by rewrite bool_decide_eq_true_2.
  - rewrite app_cons_s, Cut_char_cons. rewrite contains_cons in Hn.
    rewrite bool_decide_eq_false_2 by (intros ->; tauto).
    rewrite IH by tauto. done.
Qed.

Lemma Cut_char_Some (c : ascii) (s a b : string) :
  strings.Cut s (String c "") = Some (a, b) → s = a +:+ String c b ∧ ¬ contains c a.
Proof.
  revert a. induction s as [|x s IH]; intros a.
  - done.
  - rewrite Cut_char_cons. case_bool_decide as Hx.
    + intros [= <- <-]. subst. split; [done | apply contains_nil].
    + destruct (strings.Cut s (String c "")) as [[a' b']|] eqn:Hc; simpl; [|done].
      intros [= <- <-]. destruct (IH a' eq_refl) as [-> Hn]. split; [done |].
      rewrite contains_cons. intros [-> | ?]; tauto.
Qed.

(** [SplitN s sep 3] at a one-byte separator gives three parts exactly
    when [s] has two separators, and the parts are cut at the first two. *)
Lemma SplitN3_char (c : ascii) (s p0 p1 p2 : string) :
  strings.SplitN s (String c "") 3 = [p0; p1; p2] ↔
  s = p0 +:+ String c (p1 +:+ String c p2) ∧ ¬ contains c p0 ∧ ¬ contains c p1.
Proof.
  change (strings.SplitN s (String c "") 3) with
    (match strings.Cut s (String c "") with
     | Some (before, after) =>
         before :: match strings.Cut after (String c "") with
                   | Some (before', after') => [before'; after']
                   | None => [after]
                   end
     | None => [s]
     end).
  split.
  - destruct (strings.Cut s (String c "")) as [[a b]|] eqn:H1; [|done].
    destruct (strings.Cut b (String c "")) as [[a' b']|] eqn:H2; [|done].
    intros [= <- <- <-].
    apply Cut_char_Some in H1 as [-> ?], H2 as [-> ?]. done.
  - intros (-> & H0 & H1).
    rewrite Cut_char_app by done. rewrite Cut_char_app by done. done.
Qed.

Lemma SplitN2_char (c : ascii) (s p0 p1 : string) :
  strings.SplitN s (String c "") 2 = [p0; p1] ↔
  s = p0 +:+ String c p1 ∧ ¬ contains c p0.
Proof.
  change (strings.SplitN s (String c "") 2) with
    (match strings.Cut s (String c "") with
     | Some (before, after) => [before; after]
     | None => [s]
     end).
  split.
  - destruct (strings.Cut s (String c "")) as [[a b]|] eqn:H1; [|done].
    intros [= <- <-]. by apply Cut_char_Some in H1.
  - intros (-> & H0). by rewrite Cut_char_app.
Qed.

End string_facts.

(** ** Base names *)

Section base_facts.

Lemma takeElem_app (l r : list ascii) :
  Forall (fun c => filepath.isSep c = false) l →
  (r = [] ∨ ∃ r', r = "/"%char :: r') →
  filepath.takeElem (l ++ r) = l.
Proof.
  intros Hl Hr. induction Hl as [|c l Hc Hl IH]; simpl.
  - destruct Hr as [-> | [r' ->]]; done.
  - rewrite Hc. by rewrite IH.
Qed.

Lemma not_isSep (c : ascii) (s : string) :
  ¬ contains "/" s → c ∈ list_ascii_of_string s → filepath.isSep c = false.
Proof.
  intros Hn Hc. unfold filepath.isSep. apply bool_decide_eq_false_2.
  intros ->. by apply Hn.
Qed.

(** The base name of a path whose last element [elem] is not empty and
    follows a directory part ending in a slash (or nothing). *)
Lemma Base_elem (dir elem : string) :
  elem ≠ "" → ¬ contains "/" elem →
  (dir = "" ∨ ∃ d, dir = d +:+ "/") →
  filepath.Base (dir +:+ elem) = elem.
Proof.
  intros Hne Hns Hdir. unfold filepath.Base.
  rewrite bool_decide_eq_false_2; last first.
  { destruct dir; [by rewrite app_nil_l_s | by rewrite app_cons_s]. }
  rewrite list_ascii_app, rev_app_distr.
  assert (Hall : Forall (fun c => filepath.isSep c = false) (rev (list_ascii_of_string elem))).
  { apply Forall_forall. intros c Hc. apply (not_isSep c elem Hns).
    apply list_elem_of_In. apply in_rev. by apply list_elem_of_In. }
  assert (Hcons : ∃ c l, rev (list_ascii_of_string elem) = c :: l).
  { destruct (rev (list_ascii_of_string elem)) as [|c l] eqn:Hr; [|by eauto].
    exfalso. apply Hne. apply (f_equal (@rev ascii)) in Hr. rewrite rev_involutive in Hr.
    simpl in Hr. destruct elem; [done | discriminate]. }
  destruct Hcons as (c & l & Hr). rewrite Hr in *.
  assert (Hc : filepath.isSep c = false) by (by inversion Hall).
  simpl filepath.dropSeps. rewrite Hc.
  change (c :: l ++ rev (list_ascii_of_string dir)) with ((c :: l) ++ rev (list_ascii_of_string dir)).
  rewrite takeElem_app; [| done |].
  - rewrite bool_decide_eq_false_2 by done.
    rewrite <- Hr, rev_involutive. apply string_of_list_ascii_of_string.
  - destruct Hdir as [-> | [d ->]]; [by left | right].
    rewrite list_ascii_app, rev_app_distr. simpl. eauto.
Qed.

Lemma Base_plain (elem : string) :
  elem ≠ "" → ¬ contains "/" elem → filepath.Base elem = elem.
Proof. intros. apply (Base_elem "" elem); auto. Qed.

End base_facts.

(** ** Block identifiers *)

Lemma elem_of_byteRange (z : Z) : 0 ≤ z < 256 → z ∈ byteRange.
Proof.
  intros Hz. unfold byteRange. apply list_elem_of_fmap. exists (Z.to_nat z).
  split; [lia |]. apply elem_of_seq. lia.
Qed.

(** Checking a decidable property of one or two bytes on all values. *)
Lemma brute1 (Q : Z → Prop) `{∀ a, Decision (Q a)} :
  forallb (fun a => bool_decide (Q a)) byteRange = true →
  ∀ a, 0 ≤ a < 256 → Q a.
Proof.
  intros Hall a Ha. rewrite forallb_forall in Hall.
  specialize (Hall a). rewrite bool_decide_eq_true in Hall. apply Hall.
  apply list_elem_of_In. by apply elem_of_byteRange.
Qed.

Lemma brute2 (Q : Z → Z → Prop) `{∀ a b, Decision (Q a b)} :
  forallb (fun a => forallb (fun b => bool_decide (Q a b)) byteRange) byteRange = true →
  ∀ a b, 0 ≤ a < 256 → 0 ≤ b < 256 → Q a b.
Proof.
  intros Hall a b Ha Hb. rewrite forallb_forall in Hall.
  specialize (Hall a (proj1 (list_elem_of_In _ _) (elem_of_byteRange a Ha))).
  rewrite forallb_forall in Hall.
  specialize (Hall b (proj1 (list_elem_of_In _ _) (elem_of_byteRange b Hb))).
  by rewrite bool_decide_eq_true in Hall.
Qed.

Ltac brute :=
  lazymatch goal with
  | |- ∀ a b, 0 ≤ a < 256 → 0 ≤ b < 256 → @?Q a b =>
      let d := constr:(ltac:(intros; cbv beta; apply _) : ∀ a b, Decision (Q a b)) in
      apply (@brute2 Q d); vm_compute; reflexivity
  | |- ∀ a, 0 ≤ a < 256 → @?Q a =>
      let d := constr:(ltac:(intros; cbv beta; apply _) : ∀ a, Decision (Q a)) in
      apply (@brute1 Q d); vm_compute; reflexivity
  end.

Lemma dec_enc (d : Z) : 0 ≤ d < 32 → ulid.dec (ulid.enc d) = d.
Proof.
  intros Hd. assert (Hb : 0 ≤ d < 256) by lia. revert Hd. revert d Hb. brute.
Qed.

Lemma enc_first (d : Z) :
  0 ≤ d < 8 → N.ltb (N_of_ascii "7") (N_of_ascii (ulid.enc d)) = false.
Proof.
  intros Hd. assert (Hb : 0 ≤ d < 256) by lia. revert Hd. revert d Hb. brute.
Qed.

(** [Parse] inverts the text of 26 digits, the first below 8. *)
Lemma Parse_enc (ds : list Z) :
  length ds = 26%nat → Forall (fun d => 0 ≤ d < 32) ds → ds !!! 0%nat < 8 →
  ulid.Parse (string_of_list_ascii (ulid.enc <$> ds)) = inr (ulid.bytes ds).
Proof.
  intros Hlen Hall Hfirst. unfold ulid.Parse.
  rewrite list_ascii_of_string_of_list_ascii, length_fmap, Hlen.
  rewrite bool_decide_eq_true_2 by done. simpl negb. cbv iota.
  destruct ds as [|d0 ds]; [done |]. simpl in Hfirst.
  change ((ulid.enc <$> d0 :: ds) !!! 0%nat) with (ulid.enc d0).
  rewrite enc_first by (inversion Hall; lia).
  do 2 f_equal. rewrite <- list_fmap_compose.
  rewrite <- (list_fmap_id (d0 :: ds)) at 2.
  apply Forall_fmap_ext_1. eapply Forall_impl; [exact Hall |].
  intros d Hd. simpl. by apply dec_enc.
Qed.

(** The digits of the first byte, and the byte back. *)
Lemma head_digits (a : Z) :
  0 ≤ a < 256 →
  (0 ≤ Z.shiftr (Z.land a 224) 5 < 8 ∧ 0 ≤ Z.land a 31 < 32)
  ∧ Z.lor (ulid.shl8 (Z.shiftr (Z.land a 224) 5) 5) (Z.land a 31) = a.
Proof. revert a. brute. Qed.

Lemma digits5_range (a b c d e : Z) :
  0 ≤ a < 256 → 0 ≤ b < 256 → 0 ≤ c < 256 → 0 ≤ d < 256 → 0 ≤ e < 256 →
  Forall (fun x => 0 ≤ x < 32) (ulid.digits5 a b c d e).
Proof.
  intros Ha Hb Hc Hd He. unfold ulid.digits5.
  repeat apply Forall_cons_2; [..| apply Forall_nil_2].
  - revert a Ha. brute.
  - revert a b Ha Hb. brute.
  - revert b Hb. brute.
  - revert b c Hb Hc. brute.
  - revert c d Hc Hd. brute.
  - revert d Hd. brute.
  - revert d e Hd He. brute.
  - revert e He. brute.
Qed.

(** Eight digits of five bytes give the five bytes back. *)
Lemma bytes5_digits5 (a b c d e : Z) :
  0 ≤ a < 256 → 0 ≤ b < 256 → 0 ≤ c < 256 → 0 ≤ d < 256 → 0 ≤ e < 256 →
  ulid.bytes5
    (Z.shiftr (Z.land a 248) 3)
    (Z.lor (Z.shiftl (Z.land a 7) 2) (Z.shiftr (Z.land b 192) 6))
    (Z.shiftr (Z.land b 62) 1)
    (Z.lor (Z.shiftl (Z.land b 1) 4) (Z.shiftr (Z.land c 240) 4))
    (Z.lor (Z.shiftl (Z.land c 15) 1) (Z.shiftr (Z.land d 128) 7))
    (Z.shiftr (Z.land d 124) 2)
    (Z.lor (Z.shiftl (Z.land d 3) 3) (Z.shiftr (Z.land e 224) 5))
    (Z.land e 31)
  = [a; b; c; d; e].
Proof.
  intros Ha Hb Hc Hd He. unfold ulid.bytes5.
  (* byte a *)
  assert (A1 : ulid.shl8 (Z.shiftr (Z.land a 248) 3) 3 = Z.land a 248) by (clear -Ha; revert a Ha; brute).
  assert (A2 : Z.shiftr (Z.lor (Z.shiftl (Z.land a 7) 2) (Z.shiftr (Z.land b 192) 6)) 2
               = Z.land a 7) by (clear -Ha Hb; revert a b Ha Hb; brute).
  assert (A3 : Z.lor (Z.land a 248) (Z.land a 7) = a) by (clear -Ha; revert a Ha; brute).
  (* byte b *)
  assert (B1 : ulid.shl8 (Z.lor (Z.shiftl (Z.land a 7) 2) (Z.shiftr (Z.land b 192) 6)) 6
               = Z.land b 192) by (clear -Ha Hb; revert a b Ha Hb; brute).
  assert (B2 : ulid.shl8 (Z.shiftr (Z.land b 62) 1) 1 = Z.land b 62) by (clear -Hb; revert b Hb; brute).
  assert (B3 : Z.shiftr (Z.lor (Z.shiftl (Z.land b 1) 4) (Z.shiftr (Z.land c 240) 4)) 4
               = Z.land b 1) by (clear -Hb Hc; revert b c Hb Hc; brute).
  assert (B4 : Z.lor (Z.lor (Z.land b 192) (Z.land b 62)) (Z.land b 1) = b) by (clear -Hb; revert b Hb; brute).
  (* byte c *)
  assert (C1 : ulid.shl8 (Z.lor (Z.shiftl (Z.land b 1) 4) (Z.shiftr (Z.land c 240) 4)) 4
               = Z.land c 240) by (clear -Hb Hc; revert b c Hb Hc; brute).
  assert (C2 : Z.shiftr (Z.lor (Z.shiftl (Z.land c 15) 1) (Z.shiftr (Z.land d 128) 7)) 1
               = Z.land c 15) by (clear -Hc Hd; revert c d Hc Hd; brute).
  assert (C3 : Z.lor (Z.land c 240) (Z.land c 15) = c) by (clear -Hc; revert c Hc; brute).
  (* byte d *)
  assert (D1 : ulid.shl8 (Z.lor (Z.shiftl (Z.land c 15) 1) (Z.shiftr (Z.land d 128) 7)) 7
               = Z.land d 128) by (clear -Hc Hd; revert c d Hc Hd; brute).
  assert (D2 : ulid.shl8 (Z.shiftr (Z.land d 124) 2) 2 = Z.land d 124) by (clear -Hd; revert d Hd; brute).
  assert (D3 : Z.shiftr (Z.lor (Z.shiftl (Z.land d 3) 3) (Z.shiftr (Z.land e 224) 5)) 3
               = Z.land d 3) by (clear -Hd He; revert d e Hd He; brute).
  assert (D4 : Z.lor (Z.lor (Z.land d 128) (Z.land d 124)) (Z.land d 3) = d) by (clear -Hd; revert d Hd; brute).
  (* byte e *)
  assert (E1 : ulid.shl8 (Z.lor (Z.shiftl (Z.land d 3) 3) (Z.shiftr (Z.land e 224) 5)) 5
               = Z.land e 224) by (clear -Hd He; revert d e Hd He; brute).
  assert (E2 : Z.lor (Z.land e 224) (Z.land e 31) = e) by (clear -He; revert e He; brute).
  rewrite A1, A2, A3, B1, B2, B3, B4, C1, C2, C3, D1, D2, D3, D4, E1, E2. done.
Qed.

Lemma wf_bytes (id : ulid.ULID) :
  ulid.wf id →
  ∃ b0 b1 b2 b3 b4 b5 b6 b7 b8 b9 b10 b11 b12 b13 b14 b15,
    id = [b0; b1; b2; b3; b4; b5; b6; b7; b8; b9; b10; b11; b12; b13; b14; b15]
    ∧ Forall (fun b => 0 ≤ b < 256) id.
Proof.
  intros [Hlen Hall].
  do 16 (destruct id as [|? id]; [done |]). destruct id; [|done].
  by repeat eexists.
Qed.

Local Opaque Z.shiftl Z.shiftr Z.land Z.lor ulid.shl8.

Lemma digits_length (id : ulid.ULID) : length (ulid.digits id) = 26%nat.
Proof. reflexivity. Qed.

Lemma digits_range (id : ulid.ULID) :
  ulid.wf id →
  Forall (fun d => 0 ≤ d < 32) (ulid.digits id) ∧ ulid.digits id !!! 0%nat < 8.
Proof.
  intros Hwf. destruct (wf_bytes id Hwf) as (b0&b1&b2&b3&b4&b5&b6&b7&b8&b9&b10&b11&b12&b13&b14&b15&->&Hall).
  repeat match goal with H : Forall _ (_ :: _) |- _ => apply Forall_cons_1 in H as [? H] end.
  destruct (head_digits b0) as [[Hd0 Hd1] _]; [done |].
  split; [| unfold ulid.digits; simpl; lia].
  unfold ulid.digits. cbn [lookup_total list_lookup_total]. cbv beta zeta.
  apply Forall_app_2; [apply Forall_cons_2; [lia |]; apply Forall_cons_2; [done | apply Forall_nil_2] |].
  repeat apply Forall_app_2; by apply digits5_range.
Qed.

Lemma bytes_digits (id : ulid.ULID) : ulid.wf id → ulid.bytes (ulid.digits id) = id.
Proof.
  intros Hwf. destruct (wf_bytes id Hwf) as (b0&b1&b2&b3&b4&b5&b6&b7&b8&b9&b10&b11&b12&b13&b14&b15&->&Hall).
  repeat match goal with H : Forall _ (_ :: _) |- _ => apply Forall_cons_1 in H as [? H] end.
  destruct (head_digits b0) as [_ Hb0]; [done |].
  unfold ulid.bytes, ulid.digits, ulid.digits5. cbn [lookup_total list_lookup_total app].
  rewrite Hb0, !bytes5_digits5 by done. reflexivity.
Qed.

(** The text of a block ID parses back to the block ID. *)
Lemma Parse_String (id : ulid.ULID) : ulid.wf id → ulid.Parse (ulid.String id) = inr id.
Proof.
  intros Hwf. unfold ulid.String.
  destruct (digits_range id Hwf) as [Hall Hfirst].
  rewrite Parse_enc by (done || apply digits_length).
  by rewrite bytes_digits.
Qed.

Local Transparent Z.shiftl Z.shiftr Z.land Z.lor ulid.shl8.

(** Deciding a closed proposition by evaluation. *)
Ltac by_decide := refine (bool_decide_eq_false_1 _ _); vm_compute; reflexivity.

Section marker_names.

Lemma enc_in (z : Z) : ulid.enc z ∈ list_ascii_of_string ulid.Encoding.
Proof.
  unfold ulid.enc. apply list_elem_of_In.
  destruct (nth_in_or_default (Z.to_nat z) (list_ascii_of_string ulid.Encoding) "0"%char)
    as [Hin | ->]; [done |].
  vm_compute. auto.
Qed.

Lemma String_contains (c : ascii) (id : ulid.ULID) :
  contains c (ulid.String id) → c ∈ list_ascii_of_string ulid.Encoding.
Proof.
  unfold contains, ulid.String. rewrite list_ascii_of_string_of_list_ascii.
  intros (z & -> & _)%list_elem_of_fmap. apply enc_in.
Qed.

Lemma String_no_dash (id : ulid.ULID) : ¬ contains "-" (ulid.String id).
Proof.
  intros H%String_contains.
  assert (Hn : "-"%char ∉ list_ascii_of_string ulid.Encoding) by by_decide. done.
Qed.

Lemma String_no_slash (id : ulid.ULID) : ¬ contains "/" (ulid.String id).
Proof.
  intros H%String_contains.
  assert (Hn : "/"%char ∉ list_ascii_of_string ulid.Encoding) by by_decide. done.
Qed.

Lemma String_length (id : ulid.ULID) : String.length (ulid.String id) = 26%nat.
Proof. reflexivity. Qed.

Lemma String_nonempty (id : ulid.ULID) : ulid.String id ≠ "".
Proof. intros H. pose proof (String_length id) as Hl. by rewrite H in Hl. Qed.

Lemma CopiedMark_no_dash : ¬ contains "-" CopiedMarkFilename.
Proof. by_decide. Qed.

(** When [IsCopiedToBucketMarkFilename] accepts a name, and what it
    returns. *)
Lemma IsCopied_true (name : string) (id : ulid.ULID) (bucket : string) :
  IsCopiedToBucketMarkFilename name = (true, id, bucket) ↔
  ∃ part0, name = part0 +:+ "-" +:+ CopiedMarkFilename +:+ "-" +:+ bucket
           ∧ ¬ contains "-" part0
           ∧ ulid.Parse (filepath.Base part0) = inr id.
Proof.
  unfold IsCopiedToBucketMarkFilename. split.
  - destruct (strings.SplitN name "-" 3) as [|p0 [|p1 [|p2 [|]]]] eqn:Hs; try done.
    apply (SplitN3_char "-") in Hs as (-> & H0 & H1).
    case_bool_decide as Hp1; simpl; [|done].
    destruct (ulid.Parse (filepath.Base p0)) as [e | id'] eqn:Hp; [done |].
    intros [= <- <-]. exists p0. by subst.
  - intros (p0 & -> & H0 & Hp).
    assert (Hs : strings.SplitN (p0 +:+ "-" +:+ CopiedMarkFilename +:+ "-" +:+ bucket) "-" 3
                 = [p0; CopiedMarkFilename; bucket]).
    { apply (SplitN3_char "-"). split; [done |]. split; [done | apply CopiedMark_no_dash]. }
    rewrite Hs. rewrite bool_decide_eq_true_2 by done. simpl. by rewrite Hp.
Qed.

Lemma IsCopied_cases (name : string) :
  (∃ id bucket, IsCopiedToBucketMarkFilename name = (true, id, bucket))
  ∨ IsCopiedToBucketMarkFilename name = (false, ulid.zero, "").
Proof.
  unfold IsCopiedToBucketMarkFilename.
  destruct (strings.SplitN name "-" 3) as [|p0 [|p1 [|p2 [|]]]]; auto.
  case_bool_decide; simpl; auto.
  destruct (ulid.Parse (filepath.Base p0)); eauto.
Qed.

(** [ulid.Parse] takes exactly the texts of 26 bytes whose first byte is
    not above ['7']. *)
Lemma Parse_lenient (s : string) : (∃ id, ulid.Parse s = inr id) ↔ lenientBlockID s.
Proof.
  unfold ulid.Parse, lenientBlockID, ulid.EncodedSize. cbv zeta.
  rewrite <- N.ltb_ge.
  case_bool_decide as Hlen; cbn [negb].
  - destruct (N.ltb _ _).
    + split; [by intros [? ?] | by intros [_ ?]].
    + split; [done | eauto].
  - split; [by intros [? ?] | by intros [? _]].
Qed.

Lemma copiedMarkShape_accepted (name : string) :
  copiedMarkShape name ↔ fst (fst (IsCopiedToBucketMarkFilename name)) = true.
Proof.
  split.
  - intros (p0 & bucket & Hn & H0 & [id Hp]%Parse_lenient).
    assert (H : IsCopiedToBucketMarkFilename name = (true, id, bucket))
      by (apply IsCopied_true; eauto).
    by rewrite H.
  - destruct (IsCopied_cases name) as [(id & bucket & H) | H]; rewrite H; [|done].
    intros _. apply IsCopied_true in H as (p0 & Hn & H0 & Hp).
    exists p0, bucket. split; [done |]. split; [done |]. apply Parse_lenient. eauto.
Qed.

Lemma validBlockID_lenient (s : string) : validBlockID s → lenientBlockID s.
Proof. by intros (Hlen & _ & Hfirst). Qed.

(** A byte that is no base-32 digit does not occur in a valid block
    identifier. *)
Lemma validBlockID_digits (c : ascii) (s : string) :
  validBlockID s → ¬ base32Digit c → ¬ contains c s.
Proof.
  intros (_ & Hall & _) Hc Hin. apply Hc.
  by apply (proj1 (Forall_forall _ _) Hall).
Qed.

Lemma dash_no_digit : ¬ base32Digit "-".
Proof. unfold base32Digit. by_decide. Qed.

Lemma slash_no_digit : ¬ base32Digit "/".
Proof. unfold base32Digit. by_decide. Qed.

(** A name of the spec's shape splits into the block identifier, the token
    and the bucket name. *)
Lemma specMarkShape_parts (name : string) :
  specMarkShape name →
  ∃ p0 p2, strings.SplitN name "-" 3 = [p0; CopiedMarkFilename; p2] ∧ validBlockID p0.
Proof.
  intros (blockID & bucket & -> & Hv). exists blockID, bucket. split; [| done].
  apply (SplitN3_char "-"). split; [done |].
  split; [by apply (validBlockID_digits _ _ Hv), dash_no_digit | apply CopiedMark_no_dash].
Qed.

(** The names of the spec's shape are taken for copy markers. *)
Lemma specMarkShape_accepted (name : string) :
  specMarkShape name →
  copiedMarkShape name
  ∧ ∃ id bucket, IsCopiedToBucketMarkFilename name = (true, id, bucket).
Proof.
  intros (blockID & bucket & -> & Hv).
  assert (Hne : blockID ≠ "") by (intros ->; by destruct Hv as [? _]).
  assert (Hbase : filepath.Base blockID = blockID).
  { apply Base_plain; [done |]. apply (validBlockID_digits _ _ Hv), slash_no_digit. }
  assert (Hdash : ¬ contains "-" blockID)
    by apply (validBlockID_digits _ _ Hv), dash_no_digit.
  split.
  - exists blockID, bucket. split; [done |]. split; [done |].
    rewrite Hbase. by apply validBlockID_lenient.
  - destruct (proj2 (Parse_lenient blockID) (validBlockID_lenient _ Hv)) as [id Hp].
    exists id, bucket. apply IsCopied_true. exists blockID.
    split; [done |]. split; [done |]. by rewrite Hbase.
Qed.

(** Decoding the encoded marker path. *)
Lemma IsCopied_CopiedTo (B : ulid.ULID) (T : string) :
  ulid.wf B →
  IsCopiedToBucketMarkFilename (CopiedToBucketMarkFilename B T) = (true, B, T).
Proof.
  intros Hwf. apply IsCopied_true.
  exists (MarkersPathname +:+ "/" +:+ ulid.String B). split; [|split].
  - unfold CopiedToBucketMarkFilename. by rewrite !app_assoc_s.
  - assert (Hm : ¬ contains "-" MarkersPathname) by by_decide.
    assert (Hs : ¬ contains "-" "/") by by_decide.
    rewrite !contains_app. intros [H | [H | H]]; [done | done |].
    by apply String_no_dash in H.
  - rewrite <- app_assoc_s.
    rewrite Base_elem; [by apply Parse_String | apply String_nonempty | apply String_no_slash |].
    right. by exists MarkersPathname.
Qed.

(** A marker name, as listed under the markers path, decodes as well. *)
Lemma IsCopied_listed (B : ulid.ULID) (T : string) :
  ulid.wf B →
  IsCopiedToBucketMarkFilename (ulid.String B +:+ "-" +:+ CopiedMarkFilename +:+ "-" +:+ T)
  = (true, B, T).
Proof.
  intros Hwf. apply IsCopied_true.
  exists (ulid.String B). split; [done |]. split; [apply String_no_dash |].
  rewrite Base_plain; [by apply Parse_String | apply String_nonempty | apply String_no_slash].
Qed.

End marker_names.

(** C2 as amended.  Marker names round-trip: for every block ID [B] and
    every bucket name [T], decoding the encoded marker path gives back
    [(true, B, T)].  A string decodes to [(false, zero ULID, "")] when it
    does not have the shape [<part>-copied-<bucket>] in which the first part
    holds no separator and its last path element has 26 bytes, the first
    not above ['7'].  Every name of the spec's shape
    [<validBlockID>-copied-<bucket>] has that shape and decodes to
    [true]. *)
Theorem marker_name_round_trip :
  (∀ (B : ulid.ULID) (T : string), ulid.wf B →
     IsCopiedToBucketMarkFilename (CopiedToBucketMarkFilename B T) = (true, B, T))
  ∧ (∀ name : string, ¬ copiedMarkShape name →
       IsCopiedToBucketMarkFilename name = (false, ulid.zero, ""))
  ∧ (∀ name : string, specMarkShape name →
       copiedMarkShape name
       ∧ ∃ id bucket, IsCopiedToBucketMarkFilename name = (true, id, bucket)).
Proof.
  split; [| split].
  - intros B T Hwf. by apply IsCopied_CopiedTo.
  - intros name Hshape.
    destruct (IsCopied_cases name) as [(id & bucket & H) | H]; [|done].
    exfalso. apply Hshape. apply copiedMarkShape_accepted. by rewrite H.
  - apply specMarkShape_accepted.
Qed.

Lemma marker_name_round_trip_witness :
  IsCopiedToBucketMarkFilename (CopiedToBucketMarkFilename sampleID "dst-bucket/eu")
    = (true, sampleID, "dst-bucket/eu")
  ∧ IsCopiedToBucketMarkFilename "01EZED0X3YZMNJ3NHGMJJKMHCR-deletion-mark.json"
    = (false, ulid.zero, "").
Proof.
  split.
  - apply (proj1 marker_name_round_trip). split; [reflexivity |].
    apply Forall_forall. intros b Hb.
    repeat (apply elem_of_cons in Hb as [-> | Hb]; [lia |]). by apply not_elem_of_nil in Hb.
  - apply (proj1 (proj2 marker_name_round_trip)). intros H%copiedMarkShape_accepted.
    vm_compute in H. discriminate.
Defined.

(** C2 as stated fails: names that do not have the shape
    [<validBlockID>-copied-<bucket>] are decoded as copy markers.  The last
    path element of the first part is parsed, so a name with a directory in
    front decodes to the block behind it, and so does the encoded marker
    path itself, whose first part is [markers/<blockID>]; and of the 26
    bytes only the first is checked, so 26 bytes that are no digits decode
    to a block as well. *)
Lemma marker_shape_wider :
  (¬ specMarkShape "foo/01EZED0X3YZMNJ3NHGMJJKMHCR-copied-x"
   ∧ IsCopiedToBucketMarkFilename "foo/01EZED0X3YZMNJ3NHGMJJKMHCR-copied-x"
     = (true, sampleID, "x"))
  ∧ (¬ specMarkShape (CopiedToBucketMarkFilename sampleID "dst")
     ∧ IsCopiedToBucketMarkFilename (CopiedToBucketMarkFilename sampleID "dst")
       = (true, sampleID, "dst"))
  ∧ (¬ specMarkShape "!!!!!!!!!!!!!!!!!!!!!!!!!!-copied-b"
     ∧ fst (fst (IsCopiedToBucketMarkFilename "!!!!!!!!!!!!!!!!!!!!!!!!!!-copied-b")) = true).
Proof.
  split; [| split]; (split; [| vm_compute; reflexivity]).
  - intros (p0 & p2 & Hs & Hv)%specMarkShape_parts.
    vm_compute in Hs. injection Hs as <- _. destruct Hv as [Hlen _].
    vm_compute in Hlen. discriminate.
  - intros (p0 & p2 & Hs & Hv)%specMarkShape_parts.
    vm_compute in Hs. injection Hs as <- _. destruct Hv as [Hlen _].
    vm_compute in Hlen. discriminate.
  - intros (p0 & p2 & Hs & Hv)%specMarkShape_parts.
    vm_compute in Hs. injection Hs as <- _. destruct Hv as (_ & Hall & _).
    apply Forall_cons_1 in Hall as [Hd _]. revert Hd. unfold base32Digit. by_decide.
Qed.

Section io_facts.

Lemma withEvents_nil (w : world) : withEvents w [] = w.
Proof. destruct w. unfold withEvents. simpl. by rewrite app_nil_r. Qed.

Lemma withEvents_app (w : world) (e1 e2 : list event) :
  withEvents (withEvents w e1) e2 = withEvents w (e1 ++ e2).
Proof. unfold withEvents. simpl. by rewrite app_assoc. Qed.

#[global] Instance readsOnly_preorder : PreOrder readsOnly.
Proof.
  split.
  - intros w. exists []. split; [by rewrite withEvents_nil | constructor].
  - intros w1 w2 w3 (e1 & -> & H1) (e2 & -> & H2). exists (e1 ++ e2).
    split; [apply withEvents_app | by apply Forall_app_2].
Qed.

#[global] Instance writesNothing_preorder : PreOrder writesNothing.
Proof.
  split.
  - intros w. split; [done |]. exists []. split; [by rewrite app_nil_r | constructor].
  - intros w1 w2 w3 (Ho1 & e1 & Ht1 & H1) (Ho2 & e2 & Ht2 & H2). split; [congruence |].
    exists (e1 ++ e2). split; [by rewrite Ht2, Ht1, app_assoc | by apply Forall_app_2].
Qed.

Lemma readsOnly_writesNothing (w w' : world) : readsOnly w w' → writesNothing w w'.
Proof. intros (evs & -> & H). split; [done |]. by exists evs. Qed.

Lemma bind_run {A B : Type} (m : IO A) (f : A → IO B) (w : world) :
  (m ≫= f) w = f (fst (m w)) (snd (m w)).
Proof. unfold mbind, IO_bind. by destruct (m w). Qed.

Lemma ret_run {A : Type} (a : A) (w : world) : mret (M := IO) a w = (a, w).
Proof. reflexivity. Qed.

Lemma keeps_ret (R : world → world → Prop) `{!Reflexive R} {A : Type} (a : A) :
  keeps R (mret (M := IO) a).
Proof. intros w. simpl. reflexivity. Qed.

Lemma keeps_bind (R : world → world → Prop) `{!Transitive R} {A B : Type}
    (m : IO A) (f : A → IO B) :
  keeps R m → (∀ a, keeps R (f a)) → keeps R (m ≫= f).
Proof.
  intros Hm Hf w. rewrite bind_run. etrans; [apply Hm | apply Hf].
Qed.

Lemma keeps_impl (R R' : world → world → Prop) {A : Type} (m : IO A) :
  (∀ w w', R w w' → R' w w') → keeps R m → keeps R' m.
Proof. intros HR Hm w. apply HR, Hm. Qed.

Lemma emit_run (e : event) (w : world) : emit e w = (tt, withEvents w [e]).
Proof. reflexivity. Qed.

Lemma keeps_emit (e : event) : isWrite e = false → keeps readsOnly (emit e).
Proof. intros He w. exists [e]. split; [done | by constructor]. Qed.

Lemma keeps_Log (lvl : level) (lg : logger) (msg : string) : keeps readsOnly (Log lvl lg msg).
Proof. by apply keeps_emit. Qed.

Lemma keeps_getObjects : keeps readsOnly getObjects.
Proof. intros w. simpl. reflexivity. Qed.

End io_facts.

(** Splitting a [keeps] goal along the structure of the computation. *)
Ltac keeps_step :=
  lazymatch goal with
  | |- keeps _ (mret _) => apply keeps_ret; apply _
  | |- keeps _ (_ ≫= _) => apply keeps_bind; [apply _ | | intros ?]
  | |- keeps _ (match ?x with _ => _ end) => destruct x
  | |- keeps _ (if ?b then _ else _) => destruct b
  | |- keeps _ (let '(_, _) := ?x in _) => destruct x
  end.

Section listing_facts.

Context (E : extern).

Lemma keeps_Objects (bkt prefix delimiter : string) :
  keeps readsOnly (Objects E bkt prefix delimiter).
Proof.
  unfold Objects. repeat keeps_step; first [by apply keeps_emit | apply keeps_getObjects].
Qed.

Lemma keeps_NewReader (bkt name : string) : keeps readsOnly (NewReader E bkt name).
Proof.
  unfold NewReader. repeat keeps_step; first [by apply keeps_emit | apply keeps_getObjects].
Qed.

Lemma keeps_listPrefix (bkt prefix : string) (recursive : bool) :
  keeps readsOnly (listPrefix E bkt prefix recursive).
Proof. unfold listPrefix. repeat keeps_step. apply keeps_Objects. Qed.

Lemma keeps_listTenants (bkt : string) : keeps readsOnly (listTenants E bkt).
Proof. unfold listTenants. repeat keeps_step. apply keeps_listPrefix. Qed.

Lemma keeps_listBlocksForTenant (bkt tenantID : string) :
  keeps readsOnly (listBlocksForTenant E bkt tenantID).
Proof. unfold listBlocksForTenant. repeat keeps_step. apply keeps_listPrefix. Qed.

Lemma keeps_listBlockMarkersForTenant (bkt tenantID dest : string) :
  keeps readsOnly (listBlockMarkersForTenant E bkt tenantID dest).
Proof. unfold listBlockMarkersForTenant. repeat keeps_step. apply keeps_listPrefix. Qed.

Lemma keeps_loadMetaJSONFile (bkt tenantID : string) (blockID : ulid.ULID) :
  keeps readsOnly (loadMetaJSONFile E bkt tenantID blockID).
Proof. unfold loadMetaJSONFile. repeat keeps_step. apply keeps_NewReader. Qed.

Lemma keeps_checkMinDuration (cfg : config) (lg : logger) (tenantID : string)
    (blockID : ulid.ULID) :
  keeps readsOnly (checkMinDuration E cfg lg tenantID blockID).
Proof.
  unfold checkMinDuration.
  repeat keeps_step; first [apply keeps_loadMetaJSONFile | apply keeps_Log].
Qed.

End listing_facts.

Section decision_facts.

Context (E : extern) (cfg : config) (lg : logger) (tenantID : string).

Lemma processBlock_copied (markers : gmap ulid.ULID blockMarkers)
    (blockIDStr : string) (blockID : ulid.ULID) (w : world) :
  ulid.Parse blockIDStr = inr blockID →
  copied (markers !!! blockID) = true →
  processBlock E cfg lg tenantID markers blockIDStr w =
    (None, withEvents w [EvLog Debug (blockLogger lg blockID)
                           "skipping block because it has been copied already"]).
Proof. intros Hp Hc. unfold processBlock. rewrite Hp, Hc. reflexivity. Qed.

Lemma processBlock_deletion (markers : gmap ulid.ULID blockMarkers)
    (blockIDStr : string) (blockID : ulid.ULID) (w : world) :
  ulid.Parse blockIDStr = inr blockID →
  copied (markers !!! blockID) = false →
  deletion (markers !!! blockID) = true →
  processBlock E cfg lg tenantID markers blockIDStr w =
    (None, withEvents w [EvLog Debug (blockLogger lg blockID)
                           "skipping block because it is marked for deletion"]).
Proof. intros Hp Hc Hd. unfold processBlock. rewrite Hp, Hc, Hd. reflexivity. Qed.

Lemma processBlock_unmarked (markers : gmap ulid.ULID blockMarkers)
    (blockIDStr : string) (blockID : ulid.ULID) (w : world) :
  ulid.Parse blockIDStr = inr blockID →
  copied (markers !!! blockID) = false →
  deletion (markers !!! blockID) = false →
  processBlock E cfg lg tenantID markers blockIDStr w =
    match checkMinDuration E cfg (blockLogger lg blockID) tenantID blockID w with
    | (Return err, w1) => (err, w1)
    | (Proceed, w1) => copyOrDryRun E cfg (blockLogger lg blockID) tenantID blockID w1
    end.
Proof.
  intros Hp Hc Hd. unfold processBlock. rewrite Hp, Hc, Hd.
  rewrite bind_run. unfold blockLogger.
  destruct (checkMinDuration _ _ _ _ _ w) as [[err|] w1]; reflexivity.
Qed.

Lemma copyOrDryRun_dry (blockID : ulid.ULID) (w : world) :
  dryRun cfg = true →
  copyOrDryRun E cfg lg tenantID blockID w =
    (None, withEvents w [EvLog Info lg "would copy block, but skipping due to dry-run"]).
Proof. intros Hd. unfold copyOrDryRun. rewrite Hd. reflexivity. Qed.

End decision_facts.

(** C4.  The eligibility checks of a block run in the fixed order
    copied-marker, deletion-marker, minimum-duration, dry-run, and the first
    that matches ends the processing: a copied block is skipped whatever its
    other markers, the threshold and the dry-run flag are (so a block with
    both markers is skipped as already copied); a block marked for deletion
    only is skipped before its metadata is read; the result of the
    minimum-duration check is final when it returns; dry-run is looked at
    last. *)
Theorem eligibility_order (E : extern) (cfg : config) (lg : logger) (tenantID : string)
    (markers : gmap ulid.ULID blockMarkers) (blockIDStr : string) (blockID : ulid.ULID)
    (w : world) :
  ulid.Parse blockIDStr = inr blockID →
  let bm := markers !!! blockID in
  let lg' := blockLogger lg blockID in
  let run := processBlock E cfg lg tenantID markers blockIDStr w in
  (copied bm = true →
     run = (None, withEvents w
              [EvLog Debug lg' "skipping block because it has been copied already"]))
  ∧ (copied bm = false → deletion bm = true →
     run = (None, withEvents w
              [EvLog Debug lg' "skipping block because it is marked for deletion"]))
  ∧ (copied bm = false → deletion bm = false →
     ∀ err w1, checkMinDuration E cfg lg' tenantID blockID w = (Return err, w1) →
       run = (err, w1))
  ∧ (copied bm = false → deletion bm = false →
     ∀ w1, checkMinDuration E cfg lg' tenantID blockID w = (Proceed, w1) →
       (dryRun cfg = true →
          run = (None, withEvents w1
                   [EvLog Info lg' "would copy block, but skipping due to dry-run"]))
       ∧ run = copyOrDryRun E cfg lg' tenantID blockID w1).
Proof.
  intros Hp bm lg' run. subst bm lg' run. split; [|split; [|split]].
  - by apply processBlock_copied.
  - by apply processBlock_deletion.
  - intros Hc Hd err w1 Hm. rewrite (processBlock_unmarked _ _ _ _ _ _ blockID) by done.
    by rewrite Hm.
  - intros Hc Hd w1 Hm. rewrite (processBlock_unmarked _ _ _ _ _ _ blockID) by done.
    rewrite Hm. split; [|done]. intros Hdry. by apply copyOrDryRun_dry.
Qed.

Section store_facts.

Lemma elem_of_bucketNames (objs : gmap (string * string) string) (bkt n : string) :
  n ∈ bucketNames objs bkt ↔ is_Some (objs !! (bkt, n)).
Proof.
  unfold bucketNames. rewrite merge_sort_Permutation, list_elem_of_omap. split.
  - intros ([[b n'] data] & Hin & Hf). apply elem_of_map_to_list in Hin.
    simpl in Hf. case_bool_decide as Hb; [|done]. injection Hf as ->. subst b. by eexists.
  - intros [data Hd]. exists ((bkt, n), data). split; [by apply elem_of_map_to_list |].
    by rewrite bool_decide_eq_true_2.
Qed.

(** An object right under the prefix is listed as itself. *)
Lemma queryObjects_object (objs : gmap (string * string) string)
    (bkt prefix delimiter rest : string) :
  is_Some (objs !! (bkt, prefix +:+ rest)) →
  strings.Cut rest delimiter = None →
  {| Prefix := ""; Name := prefix +:+ rest |} ∈ queryObjects objs bkt prefix delimiter.
Proof.
  intros Hin Hcut. unfold queryObjects.
  assert (Hunder : prefix +:+ rest ∈
            filter (fun n => strings.HasPrefix n prefix = true) (bucketNames objs bkt)).
  { apply list_elem_of_filter. split; [apply HasPrefix_app | by apply elem_of_bucketNames]. }
  case_bool_decide.
  - apply list_elem_of_fmap. by exists (prefix +:+ rest).
  - apply elem_of_app. left. apply list_elem_of_fmap. exists (prefix +:+ rest).
    split; [done |]. apply list_elem_of_filter. split; [|done].
    by rewrite TrimPrefix_app, Hcut.
Qed.

Lemma relativePaths_inr (prefix : string) (objs : list ObjectAttrs) (acc l : list string) :
  relativePaths prefix objs acc = inr l →
  l = acc ++ ((fun o => strings.TrimPrefix (entryPath o) prefix) <$> objs).
Proof.
  revert acc. induction objs as [|o objs IH]; intros acc; simpl.
  - intros [= <-]. by rewrite app_nil_r.
  - fold (entryPath o). destruct (strings.HasPrefix (entryPath o) prefix); [|done].
    intros ->%IH. by rewrite <- app_assoc.
Qed.

Lemma listPrefix_run (E : extern) (bkt prefix : string) (recursive : bool) (w : world) :
  listPrefix E bkt prefix recursive w =
    (match listErr E bkt (queryPrefix prefix) with
     | Some err => inl (Wrapped ("listPrefix: error listing " +:+ queryPrefix prefix) err)
     | None =>
         relativePaths (queryPrefix prefix)
           (queryObjects (objects w) bkt (queryPrefix prefix) (if recursive then "" else delim))
           []
     end,
     withEvents w [EvList bkt (queryPrefix prefix)]).
Proof.
  unfold listPrefix. fold (queryPrefix prefix). unfold Objects.
  rewrite !bind_run, emit_run. simpl.
  destruct (listErr E bkt (queryPrefix prefix)); reflexivity.
Qed.

Lemma lastByte_app (a : string) (c : ascii) (b : string) :
  strings.lastByte (a +:+ String c b) = strings.lastByte (String c b).
Proof.
  induction a as [|x a IH]; [done |].
  rewrite app_cons_s. simpl strings.lastByte at 1.
  destruct (a +:+ String c b) eqn:Ha; [by destruct a | by rewrite <- IH].
Qed.

Lemma length_app_s (a b : string) :
  String.length (a +:+ b) = (String.length a + String.length b)%nat.
Proof. induction a as [|x a IH]; [done | rewrite app_cons_s; simpl; by rewrite IH]. Qed.

Lemma queryPrefix_markers (tenantID : string) :
  queryPrefix (tenantID +:+ delim +:+ MarkersPathname) =
    tenantID +:+ delim +:+ MarkersPathname +:+ delim.
Proof.
  unfold queryPrefix. rewrite bool_decide_eq_true_2; last first.
  { rewrite !length_app_s. simpl. lia. }
  change (tenantID +:+ delim +:+ MarkersPathname) with (tenantID +:+ String "/" "markers").
  rewrite lastByte_app. simpl. by rewrite !app_assoc_s.
Qed.

Lemma queryPrefix_block (tenantID : string) (blockID : ulid.ULID) :
  queryPrefix (tenantID +:+ delim +:+ ulid.String blockID) =
    tenantID +:+ delim +:+ ulid.String blockID +:+ delim.
Proof.
  unfold queryPrefix. rewrite bool_decide_eq_true_2; last first.
  { rewrite !length_app_s. simpl. lia. }
  rewrite bool_decide_eq_false_2; [by rewrite !app_assoc_s |].
  intros Hl. pose proof (String_no_slash blockID) as Hn. apply Hn.
  assert (Hs : ∀ s, s ≠ "" → strings.lastByte s = delim → contains "/" s).
  { clear. induction s as [|x s IH]; [done |]. intros _. simpl.
    destruct s as [|y s]; [intros [= ->]; apply contains_cons; by left |].
    intros H. apply contains_cons. right. by apply IH. }
  apply Hs; [apply String_nonempty |].
  pose proof (String_nonempty blockID) as Hne.
  destruct (ulid.String blockID) as [|c s] eqn:Hid; [done |].
  change (tenantID +:+ delim +:+ String c s) with (tenantID +:+ String "/" (String c s)) in Hl.
  by rewrite lastByte_app in Hl.
Qed.

End store_facts.

Section resolver_facts.

Context (dest : string).

Lemma addMarker_copied_mono (result : gmap ulid.ULID blockMarkers) (m : string)
    (id : ulid.ULID) :
  copied (result !!! id) = true → copied (addMarker dest result m !!! id) = true.
Proof.
  intros Hc. unfold addMarker.
  destruct (IsBlockDeletionMarkFilename m) as [id1 ok1].
  destruct (IsCopiedToBucketMarkFilename m) as [[ok2 id2] T].
  set (r1 := if ok1 then _ else result).
  assert (Hr1 : copied (r1 !!! id) = true).
  { subst r1. destruct ok1; [|done].
    destruct (decide (id1 = id)) as [-> | Hne].
    - by rewrite lookup_total_insert_eq.
    - by rewrite lookup_total_insert_ne. }
  destruct (ok2 && bool_decide (T = dest)); [|done].
  destruct (decide (id2 = id)) as [-> | Hne].
  - by rewrite lookup_total_insert_eq.
  - by rewrite lookup_total_insert_ne.
Qed.

Lemma addMarker_copied_hit (result : gmap ulid.ULID blockMarkers) (m : string)
    (id : ulid.ULID) :
  IsCopiedToBucketMarkFilename m = (true, id, dest) →
  copied (addMarker dest result m !!! id) = true.
Proof.
  intros Hm. unfold addMarker. rewrite Hm.
  destruct (IsBlockDeletionMarkFilename m) as [id1 ok1].
  rewrite bool_decide_eq_true_2 by done. simpl.
  by rewrite lookup_total_insert_eq.
Qed.

Lemma addMarker_copied_inv (result : gmap ulid.ULID blockMarkers) (m : string)
    (id : ulid.ULID) :
  copied (addMarker dest result m !!! id) = true →
  copied (result !!! id) = true ∨ IsCopiedToBucketMarkFilename m = (true, id, dest).
Proof.
  unfold addMarker.
  destruct (IsBlockDeletionMarkFilename m) as [id1 ok1].
  destruct (IsCopiedToBucketMarkFilename m) as [[ok2 id2] T].
  set (r1 := if ok1 then _ else result).
  assert (Hr1 : copied (r1 !!! id) = true → copied (result !!! id) = true).
  { subst r1. destruct ok1; [|done].
    destruct (decide (id1 = id)) as [-> | Hne].
    - by rewrite lookup_total_insert_eq.
    - by rewrite lookup_total_insert_ne. }
  destruct ok2; simpl; [|auto]. case_bool_decide as HT; [|auto]. subst T.
  destruct (decide (id2 = id)) as [-> | Hne].
  - auto.
  - rewrite lookup_total_insert_ne by done. auto.
Qed.

(** The resolved state of a block is "copied" exactly when a listed name is
    a copy marker of the block whose target bucket equals the destination. *)
Lemma resolved_copied (names : list string) (acc : gmap ulid.ULID blockMarkers)
    (id : ulid.ULID) :
  copied (foldl (addMarker dest) acc names !!! id) = true ↔
  copied (acc !!! id) = true
  ∨ ∃ name, name ∈ names ∧ IsCopiedToBucketMarkFilename name = (true, id, dest).
Proof.
  revert acc. induction names as [|m names IH]; intros acc; simpl.
  - split; [auto |]. intros [? | (name & Hin & _)]; [done |]. by apply not_elem_of_nil in Hin.
  - rewrite IH. split.
    + intros [Hc | (name & Hin & Hn)].
      * apply addMarker_copied_inv in Hc as [? | ?]; [auto |].
        right. exists m. split; [apply elem_of_cons; auto | done].
      * right. exists name. split; [apply elem_of_cons; auto | done].
    + intros [Hc | (name & Hin & Hn)].
      * left. by apply addMarker_copied_mono.
      * apply elem_of_cons in Hin as [-> | Hin].
        -- left. by apply addMarker_copied_hit.
        -- right. eauto.
Qed.

Lemma empty_not_copied (id : ulid.ULID) :
  copied ((∅ : gmap ulid.ULID blockMarkers) !!! id) = false.
Proof. by rewrite lookup_total_empty. Qed.

End resolver_facts.

Section observed.

Context (E : extern).

(** The listing of the markers path contains the name of a copy marker that
    exists in the bucket, for a target bucket name without a slash. *)
Lemma markers_listed (bkt tenantID dest : string) (blockID : ulid.ULID)
    (w w' : world) (names : list string) :
  ¬ contains "/" dest →
  is_Some (objects w !! (bkt, markerPath tenantID blockID dest)) →
  listPrefix E bkt (tenantID +:+ delim +:+ MarkersPathname) false w = (inr names, w') →
  ulid.String blockID +:+ "-" +:+ CopiedMarkFilename +:+ "-" +:+ dest ∈ names.
Proof.
  intros Hdest Hin. rewrite listPrefix_run, queryPrefix_markers.
  destruct (listErr E bkt _); [done |].
  intros [= Hrel _]. apply relativePaths_inr in Hrel as ->. simpl.
  set (prefix := tenantID +:+ delim +:+ MarkersPathname +:+ delim).
  set (rest := ulid.String blockID +:+ "-" +:+ CopiedMarkFilename +:+ "-" +:+ dest).
  assert (Hpath : markerPath tenantID blockID dest = prefix +:+ rest).
  { unfold markerPath, CopiedToBucketMarkFilename, prefix, rest, delim.
    by rewrite !app_assoc_s. }
  rewrite Hpath in Hin.
  apply list_elem_of_fmap. exists {| Prefix := ""; Name := prefix +:+ rest |}.
  split; [by rewrite <- (TrimPrefix_app prefix rest) at 1 |].
  apply queryObjects_object; [done |].
  apply (Cut_char_None "/"). unfold rest. rewrite !contains_app.
  assert (H1 : ¬ contains "/" "-") by by_decide.
  assert (H2 : ¬ contains "/" CopiedMarkFilename) by by_decide.
  pose proof (String_no_slash blockID). tauto.
Qed.

(** The Marker Resolver, run on a bucket that holds the copy marker of a
    block for the destination, resolves the block as copied. *)
Lemma resolver_sees_marker (bkt tenantID dest : string) (blockID : ulid.ULID)
    (w w' : world) (markers : gmap ulid.ULID blockMarkers) :
  ulid.wf blockID → ¬ contains "/" dest →
  is_Some (objects w !! (bkt, markerPath tenantID blockID dest)) →
  listBlockMarkersForTenant E bkt tenantID dest w = (inr markers, w') →
  copied (markers !!! blockID) = true.
Proof.
  intros Hwf Hdest Hin. unfold listBlockMarkersForTenant. rewrite bind_run.
  destruct (listPrefix E bkt _ false w) as [[err | names] w1] eqn:Hl; [done |].
  simpl. intros [= <- <-]. apply resolved_copied. right.
  eexists. split; [by eapply markers_listed |]. by apply IsCopied_listed.
Qed.

End observed.

Section copy_facts.

Context (E : extern) (srcBkt destBkt : string).

Lemma copierRun_run (name : string) (w : world) :
  copierRun E srcBkt destBkt name w =
    match copyFault E (objects w) srcBkt destBkt name with
    | Some e => (Some e, withEvents w [EvCopy srcBkt destBkt name])
    | None =>
        (None, {| objects := copyAll srcBkt destBkt [name] (objects w);
                  counters := counters w;
                  trace := trace w ++ [EvCopy srcBkt destBkt name] |})
    end.
Proof.
  unfold copierRun, copyFault, copyAll. rewrite bind_run, emit_run. simpl.
  destruct (copyErr E srcBkt destBkt name); [done |].
  rewrite bind_run. simpl. destruct (objects w !! (srcBkt, name)); reflexivity.
Qed.

(** A copy does not change what the source bucket holds. *)
Lemma copy_keeps_source (objs : gmap (string * string) string) (n m data : string) :
  objs !! (srcBkt, n) = Some data →
  <[(destBkt, n) := data]> objs !! (srcBkt, m) = objs !! (srcBkt, m).
Proof.
  intros Hn. destruct (decide ((destBkt, n) = (srcBkt, m))) as [Heq | Hne].
  - rewrite Heq, lookup_insert_eq. injection Heq as -> ->. done.
  - by rewrite lookup_insert_ne.
Qed.

Lemma copyFault_insert (objs : gmap (string * string) string) (n m data : string) :
  objs !! (srcBkt, n) = Some data →
  copyFault E (<[(destBkt, n) := data]> objs) srcBkt destBkt m
  = copyFault E objs srcBkt destBkt m.
Proof. intros Hn. unfold copyFault. by rewrite (copy_keeps_source _ _ _ _ Hn). Qed.

Lemma copyAll_source (names : list string) (objs : gmap (string * string) string) (m : string) :
  copyAll srcBkt destBkt names objs !! (srcBkt, m) = objs !! (srcBkt, m).
Proof.
  revert objs. induction names as [|n names IH]; intros objs; [done |].
  unfold copyAll in *. simpl. rewrite IH.
  destruct (objs !! (srcBkt, n)) as [data|] eqn:Hn; [|done].
  by apply copy_keeps_source.
Qed.

Lemma copyAll_other (names : list string) (objs : gmap (string * string) string)
    (key : string * string) :
  (∀ q, q ∈ names → key ≠ (destBkt, q)) →
  copyAll srcBkt destBkt names objs !! key = objs !! key.
Proof.
  revert objs. induction names as [|n names IH]; intros objs Hk; [done |].
  unfold copyAll in *. simpl. rewrite IH.
  - destruct (objs !! (srcBkt, n)); [|done].
    rewrite lookup_insert_ne; [done |]. intros Heq. eapply Hk; [|done]. apply elem_of_cons; auto.
  - intros q Hq. apply Hk. apply elem_of_cons; auto.
Qed.

Lemma copyAll_copied (names : list string) (objs : gmap (string * string) string) (q : string) :
  q ∈ names → is_Some (objs !! (srcBkt, q)) →
  copyAll srcBkt destBkt names objs !! (destBkt, q) = objs !! (srcBkt, q).
Proof.
  revert objs. induction names as [|n names IH]; intros objs Hq Hs.
  { by apply not_elem_of_nil in Hq. }
  change (copyAll srcBkt destBkt (n :: names) objs) with
    (copyAll srcBkt destBkt names
       (match objs !! (srcBkt, n) with
        | Some data => <[(destBkt, n) := data]> objs
        | None => objs
        end)).
  set (objs1 := match objs !! (srcBkt, n) with Some data => _ | None => objs end).
  assert (Hsrc : ∀ m, objs1 !! (srcBkt, m) = objs !! (srcBkt, m)).
  { intros m. subst objs1. destruct (objs !! (srcBkt, n)) eqn:Hn; [|done].
    by apply copy_keeps_source. }
  destruct (decide (q ∈ names)) as [Hin | Hnin].
  - rewrite IH; [apply Hsrc | done | by rewrite Hsrc].
  - apply elem_of_cons in Hq as [-> | ?]; [|done].
    rewrite copyAll_other; last first.
    { intros q' Hq' [= ->]. done. }
    subst objs1. destruct Hs as [data Hd]. rewrite Hd. by rewrite lookup_insert_eq.
Qed.

Context (tenantID : string) (blockID : ulid.ULID).

Let full := blockPath tenantID blockID.

(** The copy loop up to its first failure. *)
Lemma copyPaths_stop (pre : list string) (p : string) (post : list string)
    (e : error) (w : world) :
  Forall (fun q => copyFault E (objects w) srcBkt destBkt (full q) = None) pre →
  copyFault E (objects w) srcBkt destBkt (full p) = Some e →
  copyPaths E tenantID blockID srcBkt destBkt (pre ++ p :: post) w =
    (Some (Wrapped ("copySingleBlock: failed to copy " +:+ full p) e),
     {| objects := copyAll srcBkt destBkt (full <$> pre) (objects w);
        counters := counters w;
        trace := trace w ++ copyEvents srcBkt destBkt (full <$> pre ++ [p]) |}).
Proof.
  revert w. induction pre as [|q pre IH]; intros w Hpre Hp.
  - simpl. rewrite bind_run, copierRun_run. fold (full p). rewrite Hp. reflexivity.
  - apply Forall_cons_1 in Hpre as [Hq Hpre].
    change ((q :: pre) ++ p :: post) with (q :: (pre ++ p :: post)).
    cbn [copyPaths]. rewrite bind_run, copierRun_run. fold (full q). rewrite Hq.
    pose proof Hq as Hex. unfold copyFault in Hex.
    destruct (copyErr E srcBkt destBkt (full q)); [done |].
    destruct (objects w !! (srcBkt, full q)) as [data|] eqn:Hd; [|done].
    assert (Hone : copyAll srcBkt destBkt [full q] (objects w)
                   = <[(destBkt, full q) := data]> (objects w)).
    { unfold copyAll. simpl. by rewrite Hd. }
    cbn [fst snd]. rewrite IH.
    + cbn [objects counters trace]. f_equal. f_equal. rewrite <- app_assoc. reflexivity.
    + cbn [objects]. rewrite Hone. eapply Forall_impl; [exact Hpre |].
      intros q'. cbv beta. by rewrite copyFault_insert.
    + cbn [objects]. rewrite Hone. by rewrite copyFault_insert.
Qed.

End copy_facts.

(** C7.  On the first object-copy failure the Block Copier returns at once,
    with an error that names the full path of the failing object; the
    objects after it in the sequence are not attempted, and the objects
    copied before it stay in the destination as copied, with every other
    object of every bucket untouched. *)
Theorem copy_stops_at_first_failure (E : extern) (tenantID : string) (blockID : ulid.ULID)
    (srcBkt destBkt : string) (w w1 : world) (paths pre : list string) (p : string)
    (post : list string) (e : error) :
  listPrefix E srcBkt (tenantID +:+ delim +:+ ulid.String blockID) true w = (inr paths, w1) →
  reorder paths = pre ++ p :: post →
  Forall (fun q => copyFault E (objects w) srcBkt destBkt (blockPath tenantID blockID q) = None)
         pre →
  copyFault E (objects w) srcBkt destBkt (blockPath tenantID blockID p) = Some e →
  ∃ w2,
    copySingleBlock E tenantID blockID srcBkt destBkt w =
      (Some (Wrapped ("copySingleBlock: failed to copy " +:+ blockPath tenantID blockID p) e), w2)
    ∧ trace w2 = trace w1
                 ++ copyEvents srcBkt destBkt (blockPath tenantID blockID <$> pre ++ [p])
    ∧ counters w2 = counters w
    ∧ (∀ q, q ∈ pre →
         objects w2 !! (destBkt, blockPath tenantID blockID q)
         = objects w !! (srcBkt, blockPath tenantID blockID q))
    ∧ (∀ key, (∀ q, q ∈ pre → key ≠ (destBkt, blockPath tenantID blockID q)) →
         objects w2 !! key = objects w !! key).
Proof.
  intros Hlist Hre Hpre Hp.
  destruct (keeps_listPrefix E srcBkt (tenantID +:+ delim +:+ ulid.String blockID) true w)
    as (evs & Hw1 & _).
  rewrite Hlist in Hw1. simpl in Hw1.
  assert (Hobj : objects w1 = objects w) by (by rewrite Hw1).
  assert (Hcnt : counters w1 = counters w) by (by rewrite Hw1).
  eexists. split; [|split; [|split; [|split]]].
  - unfold copySingleBlock. rewrite bind_run, Hlist. cbn [fst snd]. rewrite Hre.
    apply copyPaths_stop; by rewrite Hobj.
  - reflexivity.
  - done.
  - intros q Hq. cbn [objects]. rewrite Hobj. apply copyAll_copied.
    + apply list_elem_of_fmap. by exists q.
    + rewrite Forall_forall in Hpre. specialize (Hpre q Hq). unfold copyFault in Hpre.
      destruct (copyErr E srcBkt destBkt _); [done |].
      destruct (objects w !! _); [by eexists | done].
  - intros key Hkey. cbn [objects]. rewrite Hobj. apply copyAll_other.
    intros q' (q & -> & Hq)%list_elem_of_fmap. by apply Hkey.
Qed.

Create HintDb keeps.

Section frame_facts.

#[global] Instance changesOnly_preorder K : PreOrder (changesOnly K).
Proof.
  split.
  - by intros w key _.
  - intros w1 w2 w3 H1 H2 key Hk. by rewrite H2, H1.
Qed.

#[global] Instance countersKept_preorder : PreOrder countersKept.
Proof.
  split; [done |]. intros w1 w2 w3 H1 H2. unfold countersKept in *. congruence.
Qed.

Lemma readsOnly_changesOnly K (w w' : world) : readsOnly w w' → changesOnly K w w'.
Proof. by intros (evs & -> & _) key _. Qed.

Lemma readsOnly_countersKept (w w' : world) : readsOnly w w' → countersKept w w'.
Proof. by intros (evs & -> & _). Qed.

Lemma keeps_ro_changesOnly K {A : Type} (m : IO A) :
  keeps readsOnly m → keeps (changesOnly K) m.
Proof. apply keeps_impl, readsOnly_changesOnly. Qed.

Lemma keeps_ro_countersKept {A : Type} (m : IO A) :
  keeps readsOnly m → keeps countersKept m.
Proof. apply keeps_impl, readsOnly_countersKept. Qed.

Lemma keeps_ro_writesNothing {A : Type} (m : IO A) :
  keeps readsOnly m → keeps writesNothing m.
Proof. apply keeps_impl, readsOnly_writesNothing. Qed.

Lemma keeps_putObject_changesOnly (K : string * string → Prop) (bkt name data : string) :
  K (bkt, name) → keeps (changesOnly K) (putObject bkt name data).
Proof.
  intros HK w key Hkey. simpl. rewrite lookup_insert_ne; [done |]. by intros <-.
Qed.

Lemma keeps_putObject_countersKept (bkt name data : string) :
  keeps countersKept (putObject bkt name data).
Proof. by intros w. Qed.

Lemma keeps_emit_changesOnly K (e : event) : keeps (changesOnly K) (emit e).
Proof. by intros w key _. Qed.

Lemma keeps_emit_countersKept (e : event) : keeps countersKept (emit e).
Proof. by intros w. Qed.

Lemma keeps_incr_changesOnly K (f : metrics → metrics) : keeps (changesOnly K) (incr f).
Proof. by intros w key _. Qed.

Lemma keeps_incr_writesNothing (f : metrics → metrics) : keeps writesNothing (incr f).
Proof. intros w. split; [done |]. exists []. by rewrite app_nil_r. Qed.

End frame_facts.

#[export] Hint Resolve keeps_emit keeps_Log keeps_getObjects keeps_Objects keeps_NewReader
  keeps_listPrefix keeps_listTenants keeps_listBlocksForTenant
  keeps_listBlockMarkersForTenant keeps_loadMetaJSONFile keeps_checkMinDuration : keeps.
#[export] Hint Resolve keeps_ro_changesOnly keeps_ro_countersKept keeps_ro_writesNothing
  keeps_putObject_changesOnly keeps_putObject_countersKept keeps_incr_changesOnly
  keeps_emit_changesOnly keeps_emit_countersKept
  keeps_incr_writesNothing : keeps.

Ltac keeps_auto := repeat keeps_step; eauto with keeps.

Section copy_frames.

Context (E : extern).

Lemma keeps_copierRun_changesOnly K (srcBkt destBkt name : string) :
  K (destBkt, name) → keeps (changesOnly K) (copierRun E srcBkt destBkt name).
Proof. intros HK. unfold copierRun. keeps_auto. Qed.

Lemma keeps_copierRun_countersKept (srcBkt destBkt name : string) :
  keeps countersKept (copierRun E srcBkt destBkt name).
Proof. unfold copierRun. keeps_auto. Qed.

Lemma keeps_writeEmpty_changesOnly K (bkt name : string) :
  K (bkt, name) → keeps (changesOnly K) (writeEmpty E bkt name).
Proof. intros HK. unfold writeEmpty. keeps_auto. Qed.

Lemma keeps_copyPaths_changesOnly K (tenantID : string) (blockID : ulid.ULID)
    (srcBkt destBkt : string) (paths : list string) :
  (∀ p, K (destBkt, blockPath tenantID blockID p)) →
  keeps (changesOnly K) (copyPaths E tenantID blockID srcBkt destBkt paths).
Proof.
  intros HK. induction paths as [|p paths IH]; simpl; [keeps_auto |].
  keeps_auto. by apply keeps_copierRun_changesOnly.
Qed.

Lemma keeps_copyPaths_countersKept (tenantID : string) (blockID : ulid.ULID)
    (srcBkt destBkt : string) (paths : list string) :
  keeps countersKept (copyPaths E tenantID blockID srcBkt destBkt paths).
Proof.
  induction paths as [|p paths IH]; simpl; [keeps_auto |].
  keeps_auto. apply keeps_copierRun_countersKept.
Qed.

Lemma keeps_copySingleBlock_changesOnly K (tenantID : string) (blockID : ulid.ULID)
    (srcBkt destBkt : string) :
  (∀ p, K (destBkt, blockPath tenantID blockID p)) →
  keeps (changesOnly K) (copySingleBlock E tenantID blockID srcBkt destBkt).
Proof.
  intros HK. unfold copySingleBlock. keeps_auto. by apply keeps_copyPaths_changesOnly.
Qed.

Lemma keeps_copySingleBlock_countersKept (tenantID : string) (blockID : ulid.ULID)
    (srcBkt destBkt : string) :
  keeps countersKept (copySingleBlock E tenantID blockID srcBkt destBkt).
Proof. unfold copySingleBlock. keeps_auto. apply keeps_copyPaths_countersKept. Qed.

Context (cfg : config) (tenantID : string).

Lemma keeps_copyOrDryRun_changesOnly (lg : logger) (blockID : ulid.ULID) :
  keeps (changesOnly (blockKeys cfg tenantID blockID))
        (copyOrDryRun E cfg lg tenantID blockID).
Proof.
  unfold copyOrDryRun, uploadCopiedMarkerFile. keeps_auto.
  - apply keeps_copySingleBlock_changesOnly. intros p. right. by exists p.
  - apply keeps_writeEmpty_changesOnly. by left.
Qed.

Lemma keeps_processBlock_changesOnly (lg : logger) (markers : gmap ulid.ULID blockMarkers)
    (blockIDStr : string) (blockID : ulid.ULID) :
  ulid.Parse blockIDStr = inr blockID →
  keeps (changesOnly (blockKeys cfg tenantID blockID))
        (processBlock E cfg lg tenantID markers blockIDStr).
Proof.
  intros Hp. unfold processBlock. rewrite Hp. keeps_auto.
  apply keeps_copyOrDryRun_changesOnly.
Qed.

(** A real copy that succeeds leaves the marker in the source bucket, and
    the marker write is its last event. *)
Lemma copyOrDryRun_copied (lg : logger) (blockID : ulid.ULID) (w w' : world) :
  copyOrDryRun E cfg lg tenantID blockID w = (None, w') →
  blocksCopied (counters w') = S (blocksCopied (counters w)) →
  objects w' !! (sourceBucket cfg, markerPath tenantID blockID (destBucket cfg)) = Some ""
  ∧ last (trace w')
    = Some (EvWrite (sourceBucket cfg) (markerPath tenantID blockID (destBucket cfg))).
Proof.
  unfold copyOrDryRun. destruct (dryRun cfg).
  { intros [= <-]. simpl. lia. }
  rewrite !bind_run. cbn [fst snd Log emit].
  set (w0 := {| objects := objects w; counters := counters w; trace := _ |}).
  pose proof (keeps_copySingleBlock_countersKept tenantID blockID
                (sourceBucket cfg) (destBucket cfg) w0) as Hc.
  destruct (copySingleBlock E tenantID blockID (sourceBucket cfg) (destBucket cfg) w0)
    as [[e|] w2]; [done |].
  cbn [fst snd]. unfold uploadCopiedMarkerFile, writeEmpty.
  rewrite !bind_run. cbn [fst snd emit incr Log].
  fold (markerPath tenantID blockID (destBucket cfg)).
  destruct (writeErr E (sourceBucket cfg) (markerPath tenantID blockID (destBucket cfg)));
    [done |].
  rewrite !bind_run. cbn [fst snd putObject mret IO_ret Wrapf fmap option_fmap option_map].
  intros [= <-] _. cbn [objects trace]. split; [by rewrite lookup_insert_eq |].
  by rewrite last_snoc.
Qed.

Lemma processBlock_copied_marker (lg : logger) (markers : gmap ulid.ULID blockMarkers)
    (blockIDStr : string) (blockID : ulid.ULID) (w w' : world) :
  ulid.Parse blockIDStr = inr blockID →
  processBlock E cfg lg tenantID markers blockIDStr w = (None, w') →
  blocksCopied (counters w') = S (blocksCopied (counters w)) →
  objects w' !! (sourceBucket cfg, markerPath tenantID blockID (destBucket cfg)) = Some ""
  ∧ last (trace w')
    = Some (EvWrite (sourceBucket cfg) (markerPath tenantID blockID (destBucket cfg))).
Proof.
  intros Hp. destruct (copied (markers !!! blockID)) eqn:Hc.
  { rewrite (processBlock_copied _ _ _ _ _ _ blockID) by done. intros [= <-]. simpl. lia. }
  destruct (deletion (markers !!! blockID)) eqn:Hd.
  { rewrite (processBlock_deletion _ _ _ _ _ _ blockID) by done. intros [= <-]. simpl. lia. }
  rewrite (processBlock_unmarked _ _ _ _ _ _ blockID) by done.
  pose proof (keeps_ro_countersKept _
                (keeps_checkMinDuration E cfg (blockLogger lg blockID) tenantID blockID) w)
    as Hk.
  destruct (checkMinDuration E cfg (blockLogger lg blockID) tenantID blockID w)
    as [[err|] w1].
  - intros [= -> <-]. unfold countersKept in Hk. simpl in Hk. rewrite Hk. lia.
  - unfold countersKept in Hk. simpl in Hk. rewrite <- Hk. apply copyOrDryRun_copied.
Qed.

End copy_frames.

Section parse_facts.

Lemma dec_byte (c : ascii) : 0 ≤ ulid.dec c < 256.
Proof.
  assert (H : ∀ l i, 0 ≤ i → ∀ j, ulid.indexOf c l i = Some j → i ≤ j < i + Z.of_nat (length l)).
  { induction l as [|x l IH]; intros i Hi j; simpl; [done |].
    case_bool_decide; [intros [= <-]; lia |]. intros Hj%IH; lia. }
  unfold ulid.dec.
  destruct (ulid.indexOf c (list_ascii_of_string ulid.Encoding) 0) as [i|] eqn:H1.
  { apply H in H1; [|lia]. simpl in H1. lia. }
  destruct (ulid.indexOf c (list_ascii_of_string ulid.lower) 0) as [i|] eqn:H2; simpl; [|lia].
  apply H in H2; [|lia]. simpl in H2. lia.
Qed.

Lemma lor_byte (a b : Z) : 0 ≤ a < 256 → 0 ≤ b < 256 → 0 ≤ Z.lor a b < 256.
Proof. revert a b. brute. Qed.

Lemma shl8_byte (x n : Z) : 0 ≤ ulid.shl8 x n < 256.
Proof. unfold ulid.shl8. apply Z.mod_pos_bound. lia. Qed.

Lemma shiftr_byte (x n : Z) : 0 ≤ n → 0 ≤ x < 256 → 0 ≤ Z.shiftr x n < 256.
Proof.
  intros Hn Hx. rewrite Z.shiftr_div_pow2 by done.
  assert (0 < 2 ^ n) by (apply Z.pow_pos_nonneg; lia).
  split; [apply Z.div_pos; lia |].
  apply Z.le_lt_trans with x; [|lia]. apply Z.div_le_upper_bound; [lia |]. nia.
Qed.

Lemma bytes5_wf (x0 x1 x2 x3 x4 x5 x6 x7 : Z) :
  0 ≤ x1 < 256 → 0 ≤ x3 < 256 → 0 ≤ x4 < 256 → 0 ≤ x6 < 256 → 0 ≤ x7 < 256 →
  Forall (fun b => 0 ≤ b < 256) (ulid.bytes5 x0 x1 x2 x3 x4 x5 x6 x7).
Proof.
  intros. unfold ulid.bytes5.
  repeat apply Forall_cons_2; [..| apply Forall_nil_2];
    repeat apply lor_byte; first [apply shl8_byte | apply shiftr_byte; lia | done].
Qed.

(** What [Parse] returns is a [[16]byte]. *)
Lemma Parse_wf (s : string) (id : ulid.ULID) : ulid.Parse s = inr id → ulid.wf id.
Proof.
  unfold ulid.Parse. case_bool_decide as Hlen; simpl; [|done].
  destruct (N.ltb _ _); [done |]. intros [= <-].
  set (v := ulid.dec <$> list_ascii_of_string s).
  assert (Hv : ∀ k, 0 ≤ v !!! k < 256).
  { intros k. unfold v. rewrite list_lookup_total_alt, list_lookup_fmap.
    destruct (list_ascii_of_string s !! k); simpl; [apply dec_byte |].
    compute. split; congruence. }
  split; [reflexivity |]. unfold ulid.bytes.
  apply Forall_app_2; [apply Forall_cons_2; [|apply Forall_nil_2] |].
  { apply lor_byte; [apply shl8_byte | apply Hv]. }
  repeat apply Forall_app_2; by apply bytes5_wf.
Qed.

Lemma String_first (id : ulid.ULID) :
  ulid.wf id → ∃ c s, ulid.String id = String c s ∧ c ≠ "m"%char.
Proof.
  intros Hwf.
  destruct (wf_bytes id Hwf) as (b0&b1&b2&b3&b4&b5&b6&b7&b8&b9&b10&b11&b12&b13&b14&b15&->&Hall).
  eexists _, _. split; [reflexivity |].
  apply Forall_cons_1 in Hall as [Hb0 _]. cbn [lookup_total list_lookup_total].
  clear -Hb0. revert b0 Hb0. brute.
Qed.

(** No object of a block lies under the markers path of its tenant. *)
Lemma blockPath_not_marker (tenantID : string) (blockID : ulid.ULID) (p : string) :
  ulid.wf blockID →
  strings.HasPrefix (blockPath tenantID blockID p)
                    (tenantID +:+ delim +:+ MarkersPathname +:+ delim) = false.
Proof.
  intros Hwf. apply not_true_iff_false. intros (r & Hr)%HasPrefix_true.
  unfold blockPath in Hr. rewrite !app_assoc_s in Hr.
  apply (inj (String.app tenantID)) in Hr.
  destruct (String_first blockID Hwf) as (c & s & Hs & Hc). rewrite Hs in Hr.
  unfold delim, MarkersPathname in Hr.
  repeat (rewrite app_cons_s in Hr || rewrite app_nil_l_s in Hr).
  injection Hr as Hc' _. done.
Qed.

End parse_facts.


Lemma sampleID_wf : ulid.wf sampleID.
Proof.
  split; [reflexivity |]. apply Forall_forall. intros b Hb.
  repeat (apply elem_of_cons in Hb as [-> | Hb]; [lia |]). by apply not_elem_of_nil in Hb.
Qed.

(** C1: the claim fails on the listing of a block with two chunks.  The
    store lists [chunks/000001], [chunks/000002], [index], [meta.json],
    [tombstones]; the reorder loop looks at the even indices only, so
    [meta.json], at index 3, stays where it is, and the run succeeds with
    [tombstones] copied after [meta.json]. *)
Theorem meta_not_last_on_odd_index :
  let run := copySingleBlock sampleExtern sampleTenant sampleID "src" "dst"
               (sampleWorld meta25h []) in
  fst run = None
  ∧ reorder ["chunks/000001"; "chunks/000002"; "index"; "meta.json"; "tombstones"]
    = ["chunks/000001"; "chunks/000002"; "index"; "meta.json"; "tombstones"]
  ∧ copiedNames (trace (snd run))
    = blockPath sampleTenant sampleID
        <$> ["chunks/000001"; "chunks/000002"; "index"; "meta.json"; "tombstones"]
  ∧ last (copiedNames (trace (snd run)))
    ≠ Some (blockPath sampleTenant sampleID MetaFilename).
Proof. vm_compute. repeat split; congruence. Qed.



Lemma run_eta {A : Type} (x : A * world) (a : A) : fst x = a → x = (a, snd x).
Proof. intros <-. by destruct x. Qed.

Lemma run_inr_eta {A B : Type} (x : (A + B) * world) (d : B) :
  match fst x with inr _ => true | inl _ => false end = true →
  x = (inr (match fst x with inr m => m | inl _ => d end), snd x).
Proof. destruct x as [[a | b] w]; [done |]. reflexivity. Qed.



Section duration_facts.

Lemma wrap64_small (z : Z) : - 2 ^ 63 ≤ z < 2 ^ 63 → wrap64 z = z.
Proof. intros Hz. unfold wrap64. rewrite Z.mod_small; lia. Qed.

Context (E : extern) (cfg : config) (lg : logger) (tenantID : string) (blockID : ulid.ULID).

Lemma loadMetaJSONFile_ok (w : world) (data : string) (meta : Meta) :
  let name := blockPath tenantID blockID MetaFilename in
  readErr E (sourceBucket cfg) name = None →
  objects w !! (sourceBucket cfg, name) = Some data →
  decodeMeta E data = inr meta →
  closeErr E (sourceBucket cfg) name = None →
  loadMetaJSONFile E (sourceBucket cfg) tenantID blockID w
  = ((meta, None), withEvents w [EvRead (sourceBucket cfg) name]).
Proof.
  intros name Hr Ho Hd Hc. unfold loadMetaJSONFile, NewReader. fold name.
  rewrite !bind_run, emit_run. cbn [fst snd]. rewrite Hr.
  rewrite !bind_run. cbn [fst snd getObjects mret IO_ret withEvents objects].
  rewrite Ho, Hd, Hc. reflexivity.
Qed.

Lemma checkMinDuration_ok (w : world) (data : string) (meta : Meta) :
  let name := blockPath tenantID blockID MetaFilename in
  0 < minBlockDuration cfg →
  readErr E (sourceBucket cfg) name = None →
  objects w !! (sourceBucket cfg, name) = Some data →
  decodeMeta E data = inr meta →
  closeErr E (sourceBucket cfg) name = None →
  checkMinDuration E cfg lg tenantID blockID w =
    if wrap64 (Millisecond * wrap64 (MaxTime meta - MinTime meta)) <? minBlockDuration cfg
    then (Return None,
          withEvents w [EvRead (sourceBucket cfg) name;
                        EvLog Debug lg
                          "skipping block, block duration is smaller than minimum duration"])
    else (Proceed, withEvents w [EvRead (sourceBucket cfg) name]).
Proof.
  intros name Hpos Hr Ho Hd Hc. unfold checkMinDuration.
  rewrite (proj2 (Z.ltb_lt _ _) Hpos). rewrite bind_run.
  rewrite (loadMetaJSONFile_ok w data meta) by done. cbn [fst snd].
  destruct (_ <? minBlockDuration cfg); [|reflexivity].
  rewrite bind_run. unfold Log. rewrite emit_run. cbn [fst snd].
  rewrite withEvents_app. reflexivity.
Qed.

Lemma checkMinDuration_off (w : world) :
  minBlockDuration cfg ≤ 0 → checkMinDuration E cfg lg tenantID blockID w = (Proceed, w).
Proof.
  intros Hle. unfold checkMinDuration. by rewrite (proj2 (Z.ltb_ge _ _) Hle).
Qed.

End duration_facts.

(** C6 as amended.  For a block with neither marker: when the minimum
    block duration is greater than zero, the metadata descriptor is read,
    decoded and closed without error, and [(maxTime - minTime)]
    milliseconds are representable as [int64] nanoseconds, the block is
    skipped if that duration is strictly smaller than the threshold and
    goes on to the dry-run check otherwise; when the threshold is zero or
    negative the block goes on to the dry-run check without any read. *)
Theorem min_duration_check (E : extern) (cfg : config) (lg : logger) (tenantID : string)
    (markers : gmap ulid.ULID blockMarkers) (blockIDStr : string) (blockID : ulid.ULID)
    (w : world) :
  ulid.Parse blockIDStr = inr blockID →
  copied (markers !!! blockID) = false →
  deletion (markers !!! blockID) = false →
  let name := blockPath tenantID blockID MetaFilename in
  let lg' := blockLogger lg blockID in
  let run := processBlock E cfg lg tenantID markers blockIDStr w in
  (∀ data meta,
     0 < minBlockDuration cfg →
     readErr E (sourceBucket cfg) name = None →
     objects w !! (sourceBucket cfg, name) = Some data →
     decodeMeta E data = inr meta →
     closeErr E (sourceBucket cfg) name = None →
     - 2 ^ 63 ≤ (MaxTime meta - MinTime meta) * Millisecond < 2 ^ 63 →
     ((MaxTime meta - MinTime meta) * Millisecond < minBlockDuration cfg →
        run = (None,
               withEvents w
                 [EvRead (sourceBucket cfg) name;
                  EvLog Debug lg'
                    "skipping block, block duration is smaller than minimum duration"]))
     ∧ (minBlockDuration cfg ≤ (MaxTime meta - MinTime meta) * Millisecond →
        run = copyOrDryRun E cfg lg' tenantID blockID
                (withEvents w [EvRead (sourceBucket cfg) name])))
  ∧ (minBlockDuration cfg ≤ 0 → run = copyOrDryRun E cfg lg' tenantID blockID w).
Proof.
  intros Hp Hc Hd name lg' run. subst run.
  rewrite (processBlock_unmarked _ _ _ _ _ _ blockID) by done. fold lg'. split.
  - intros data meta Hpos Hr Ho Hdec Hcl Hfit.
    rewrite (checkMinDuration_ok E cfg lg' tenantID blockID w data meta) by done.
    fold name.
    assert (Hw : wrap64 (Millisecond * wrap64 (MaxTime meta - MinTime meta))
                 = (MaxTime meta - MinTime meta) * Millisecond).
    { unfold Millisecond in *. rewrite (wrap64_small (MaxTime meta - MinTime meta)) by lia.
      rewrite wrap64_small by lia. lia. }
    rewrite Hw. split; intros Hcmp.
    + by rewrite (proj2 (Z.ltb_lt _ _) Hcmp).
    + by rewrite (proj2 (Z.ltb_ge _ _) Hcmp).
  - intros Hle. by rewrite checkMinDuration_off.
Qed.

(** With the threshold of 24 hours a block of 23 hours is skipped and a
    block of 25 hours goes on to be copied. *)
Lemma min_duration_check_witness :
  run23h = (None,
            withEvents (sampleWorld meta23h [])
              [EvRead "src" sampleMetaName;
               EvLog Debug (blockLogger [] sampleID)
                 "skipping block, block duration is smaller than minimum duration"])
  ∧ run25h = copyOrDryRun sampleExtern sampleCfg (blockLogger [] sampleID) sampleTenant sampleID
               (withEvents (sampleWorld meta25h []) [EvRead "src" sampleMetaName]).
Proof.
  assert (Hp : ulid.Parse sampleBlockStr = inr sampleID) by (vm_compute; reflexivity).
  assert (Hm : ∀ x, (∅ : gmap ulid.ULID blockMarkers) !!! x = {| deletion := false; copied := false |}).
  { intros x. by rewrite lookup_total_empty. }
  split.
  - refine (proj1 (proj1 (min_duration_check sampleExtern sampleCfg [] sampleTenant ∅
                            sampleBlockStr sampleID (sampleWorld meta23h []) Hp _ _)
                     meta23h {| MinTime := 0; MaxTime := 82800000 |} _ _ _ _ _ _) _);
      first [by rewrite Hm | vm_compute; reflexivity | vm_compute; split; congruence].
  - refine (proj2 (proj1 (min_duration_check sampleExtern sampleCfg [] sampleTenant ∅
                            sampleBlockStr sampleID (sampleWorld meta25h []) Hp _ _)
                     meta25h {| MinTime := 0; MaxTime := 90000000 |} _ _ _ _ _ _) _);
      first [by rewrite Hm | vm_compute; reflexivity | vm_compute; split; congruence
            | vm_compute; congruence].
Defined.

(** C6 as stated fails where the multiplication wraps around: a block of
    9223372036855 milliseconds, which is not smaller than the threshold of
    24 hours, is skipped as too short. *)
Lemma min_duration_wraps :
  ¬ ((9223372036855 - 0) * Millisecond < minBlockDuration sampleCfg)
  ∧ sampleDecode metaLong = inr {| MinTime := 0; MaxTime := 9223372036855 |}
  ∧ fst runLong = None
  ∧ trace (snd runLong)
    = [EvRead "src" sampleMetaName;
       EvLog Debug (blockLogger [] sampleID)
         "skipping block, block duration is smaller than minimum duration"].
Proof.
  split; [vm_compute; congruence |]. split; [reflexivity |]. split; vm_compute; reflexivity.
Qed.

Section dry_run_facts.

Context (cfg : config) (Hdry : dryRun cfg = true).

Lemma keeps_copyOrDryRun_dry (E : extern) (lg : logger) (tenantID : string)
    (blockID : ulid.ULID) :
  keeps writesNothing (copyOrDryRun E cfg lg tenantID blockID).
Proof. unfold copyOrDryRun. rewrite Hdry. keeps_auto. Qed.

Lemma keeps_processBlock_dry (E : extern) (lg : logger) (tenantID : string)
    (markers : gmap ulid.ULID blockMarkers) (blockIDStr : string) :
  keeps writesNothing (processBlock E cfg lg tenantID markers blockIDStr).
Proof.
  unfold processBlock. keeps_auto. apply keeps_copyOrDryRun_dry.
Qed.

Lemma keeps_runJobs (R : world → world → Prop) `{!PreOrder R}
    (userIDs : list string) (userFunc : string → IO (option error)) :
  (∀ userID, keeps R (userFunc userID)) → keeps R (runJobs userIDs userFunc).
Proof.
  intros Hf. induction userIDs as [|u userIDs IH]; simpl.
  - apply keeps_ret. apply _.
  - apply keeps_bind; [apply _ | apply Hf | intros err].
    apply keeps_bind; [apply _ | apply IH | intros errs].
    apply keeps_ret. apply _.
Qed.

Lemma keeps_ForEachUser (R : world → world → Prop) `{!PreOrder R}
    (userIDs : list string) (concurrency : Z) (userFunc : string → IO (option error)) :
  (∀ userID, keeps R (userFunc userID)) → keeps R (ForEachUser userIDs concurrency userFunc).
Proof.
  intros Hf. unfold ForEachUser.
  destruct (bool_decide (userIDs = [])); [apply keeps_ret; apply _ |].
  destruct (concurrency <=? 0); [apply keeps_ret; apply _ |].
  apply keeps_bind; [apply _ | by apply keeps_runJobs | intros errs].
  apply keeps_ret. apply _.
Qed.

Lemma keeps_processTenant_dry (E : extern) (lg : logger) (enabled disabled : gset string)
    (tenantID : string) :
  keeps writesNothing (processTenant E cfg lg enabled disabled tenantID).
Proof.
  unfold processTenant. keeps_auto.
  apply keeps_ForEachUser; [apply _ |]. intros blockIDStr. apply keeps_processBlock_dry.
Qed.

Lemma keeps_copyBlocks_dry (E : extern) (lg : logger) :
  keeps writesNothing (copyBlocks E cfg lg).
Proof.
  unfold copyBlocks. keeps_auto.
  apply keeps_ForEachUser; [apply _ |]. intros tenantID. apply keeps_processTenant_dry.
Qed.

Lemma keeps_runCopy_dry (E : extern) (lg : logger) : keeps writesNothing (runCopy E cfg lg).
Proof. unfold runCopy. keeps_auto. apply keeps_copyBlocks_dry. Qed.

Lemma keeps_tickerLoop_dry (ticks : list extern) (lg : logger) :
  keeps writesNothing (tickerLoop ticks cfg lg).
Proof.
  induction ticks as [|E ticks IH]; simpl; [keeps_auto |].
  keeps_auto. apply keeps_runCopy_dry.
Qed.

Lemma keeps_main_dry (E : extern) (ticks : list extern) :
  keeps writesNothing (main E ticks cfg).
Proof.
  unfold main. keeps_auto; first [apply keeps_runCopy_dry | apply keeps_tickerLoop_dry].
Qed.

End dry_run_facts.

(** C8.  With the dry-run flag set, the processing of a block changes no
    object of any bucket and adds no copy or write event, whatever the
    block; a block that gets to the dry-run check is reported and the
    processing returns success; and a whole cycle, and the whole program,
    leave every bucket as it was. *)
Theorem dry_run_writes_nothing (E : extern) (cfg : config) (lg : logger) :
  dryRun cfg = true →
  (∀ tenantID markers blockIDStr w,
     writesNothing w (snd (processBlock E cfg lg tenantID markers blockIDStr w)))
  ∧ (∀ tenantID markers blockIDStr blockID w w1,
       ulid.Parse blockIDStr = inr blockID →
       copied (markers !!! blockID) = false →
       deletion (markers !!! blockID) = false →
       checkMinDuration E cfg (blockLogger lg blockID) tenantID blockID w = (Proceed, w1) →
       processBlock E cfg lg tenantID markers blockIDStr w =
         (None, withEvents w1 [EvLog Info (blockLogger lg blockID)
                                 "would copy block, but skipping due to dry-run"])
       ∧ objects w1 = objects w)
  ∧ (∀ w, writesNothing w (snd (copyBlocks E cfg lg w)))
  ∧ (∀ ticks w, writesNothing w (snd (main E ticks cfg w))).
Proof.
  intros Hdry. split; [|split; [|split]].
  - intros tenantID markers blockIDStr w. by apply keeps_processBlock_dry.
  - intros tenantID markers blockIDStr blockID w w1 Hp Hc Hd Hm. split.
    + rewrite (processBlock_unmarked _ _ _ _ _ _ blockID) by done. rewrite Hm.
      by apply copyOrDryRun_dry.
    + pose proof (keeps_checkMinDuration E cfg (blockLogger lg blockID) tenantID blockID w)
        as (evs & Hw & _).
      rewrite Hm in Hw. simpl in Hw. by rewrite Hw.
  - intros w. by apply keeps_copyBlocks_dry.
  - intros ticks w. by apply keeps_main_dry.
Qed.

(** C10.  With an empty source bucket name, an empty destination bucket
    name, or the two names equal, the program exits with status 1; all it
    does before is log the error: no cycle runs, nothing is listed, no
    object and no counter changes. *)
Theorem main_rejects_bad_buckets (E : extern) (ticks : list extern) (cfg : config)
    (w : world) :
  sourceBucket cfg = "" ∨ destBucket cfg = "" ∨ sourceBucket cfg = destBucket cfg →
  main E ticks cfg w =
    (1, withEvents w
          [EvLog Error [] "no source or destination bucket, or buckets are the same"]).
Proof.
  intros Hbad. unfold main.
  assert (Hb : bool_decide (sourceBucket cfg = "") || bool_decide (destBucket cfg = "")
               || bool_decide (sourceBucket cfg = destBucket cfg) = true).
  { destruct Hbad as [H | [H | H]]; rewrite !orb_true_iff, !bool_decide_eq_true; auto. }
  rewrite Hb. reflexivity.
Qed.

Lemma sample_parse : ulid.Parse sampleBlockStr = inr sampleID.
Proof. vm_compute. reflexivity. Qed.

(** A block with both markers is skipped as already copied. *)
Lemma eligibility_order_witness :
  copied (bothMarkers !!! sampleID) = true
  ∧ deletion (bothMarkers !!! sampleID) = true
  ∧ processBlock sampleExtern sampleCfg [] sampleTenant bothMarkers sampleBlockStr
      (snd bothListing)
    = (None, withEvents (snd bothListing)
               [EvLog Debug (blockLogger [] sampleID)
                  "skipping block because it has been copied already"]).
Proof.
  assert (Hc : copied (bothMarkers !!! sampleID) = true) by (vm_compute; reflexivity).
  assert (Hd : deletion (bothMarkers !!! sampleID) = true) by (vm_compute; reflexivity).
  split; [exact Hc |]. split; [exact Hd |].
  exact (proj1 (eligibility_order sampleExtern sampleCfg [] sampleTenant bothMarkers
                  sampleBlockStr sampleID (snd bothListing) sample_parse) Hc).
Defined.

(** The copy of the index fails: the two chunks are in the destination, the
    metadata descriptor and the tombstones were not attempted. *)
Lemma copy_stops_at_first_failure_witness :
  ∃ w2,
    copySingleBlock indexFails sampleTenant sampleID "src" "dst" (sampleWorld meta25h []) =
      (Some (Wrapped ("copySingleBlock: failed to copy "
                        +:+ blockPath sampleTenant sampleID "index")
               (errorString "googleapi: Error 503")), w2)
    ∧ trace w2 = trace (snd sampleListing)
                 ++ copyEvents "src" "dst"
                      (blockPath sampleTenant sampleID
                         <$> ["chunks/000001"; "chunks/000002"] ++ ["index"])
    ∧ counters w2 = counters (sampleWorld meta25h [])
    ∧ (∀ q, q ∈ ["chunks/000001"; "chunks/000002"] →
         objects w2 !! ("dst", blockPath sampleTenant sampleID q)
         = objects (sampleWorld meta25h []) !! ("src", blockPath sampleTenant sampleID q))
    ∧ (∀ key, (∀ q, q ∈ ["chunks/000001"; "chunks/000002"] →
               key ≠ ("dst", blockPath sampleTenant sampleID q)) →
         objects w2 !! key = objects (sampleWorld meta25h []) !! key).
Proof.
  assert (Hl : listPrefix indexFails "src" (sampleTenant +:+ delim +:+ ulid.String sampleID)
                 true (sampleWorld meta25h [])
               = (inr ["chunks/000001"; "chunks/000002"; "index"; "meta.json"; "tombstones"],
                  snd sampleListing)).
  { exact (run_eta sampleListing _ ltac:(vm_compute; reflexivity)). }
  refine (copy_stops_at_first_failure indexFails sampleTenant sampleID "src" "dst"
            (sampleWorld meta25h []) (snd sampleListing)
            ["chunks/000001"; "chunks/000002"; "index"; "meta.json"; "tombstones"]
            ["chunks/000001"; "chunks/000002"] "index" ["meta.json"; "tombstones"]
            (errorString "googleapi: Error 503") Hl _ _ _).
  - vm_compute. reflexivity.
  - repeat apply Forall_cons_2; [vm_compute; reflexivity .. | apply Forall_nil_2].
  - vm_compute. reflexivity.
Defined.


(** A dry run of the whole program on the sample bucket. *)
Lemma dry_run_writes_nothing_witness :
  writesNothing (sampleWorld meta25h [])
    (snd (main sampleExtern [] dryCfg (sampleWorld meta25h []))).
Proof.
  exact (proj2 (proj2 (proj2 (dry_run_writes_nothing sampleExtern dryCfg [] eq_refl)))
           [] (sampleWorld meta25h [])).
Defined.

(** The same bucket as source and destination. *)
Lemma main_rejects_bad_buckets_witness :
  main sampleExtern [] sameBucketCfg (sampleWorld meta25h []) =
    (1, withEvents (sampleWorld meta25h [])
          [EvLog Error [] "no source or destination bucket, or buckets are the same"]).
Proof.
  exact (main_rejects_bad_buckets sampleExtern [] sameBucketCfg (sampleWorld meta25h [])
           (or_intror (or_intror eq_refl))).
Defined.

Section reorder_facts.

Local Open Scope nat_scope.

(** One iteration of the loop. *)
Lemma reorderFrom_step (paths : list string) (ix : nat) :
  reorderFrom paths ix =
    if decide (ix < length paths) then
      if bool_decide (paths !!! ix = MetaFilename) && bool_decide (ix < length paths - 1)
      then reorderFrom (take ix paths ++ drop (S ix) paths ++ [MetaFilename]) (S ix)
      else reorderFrom paths (S (S ix))
    else paths.
Proof.
  rewrite reorderFrom_equation_1. simpl.
  destruct (decide (ix < length paths)); simpl; [|done].
  by destruct (bool_decide (paths !!! ix = MetaFilename)
               && bool_decide (ix < length paths - 1)).
Qed.

(** The loop visits [ix], [ix + 2], ...: with no descriptor there (the last
    index apart) it changes nothing. *)
Lemma reorderFrom_skips (paths : list string) (ix : nat) :
  (∀ k, ix + 2 * k < length paths - 1 → paths !! (ix + 2 * k) ≠ Some MetaFilename) →
  reorderFrom paths ix = paths.
Proof.
  remember (length paths - ix) as n eqn:Hn. revert ix Hn.
  induction n as [n IH] using lt_wf_ind. intros ix Hn Hno.
  rewrite reorderFrom_step. destruct (decide (ix < length paths)) as [Hlt | Hge]; [|done].
  destruct (bool_decide (paths !!! ix = MetaFilename)
            && bool_decide (ix < length paths - 1)) eqn:Hc.
  - apply andb_true_iff in Hc as [Hm%bool_decide_eq_true Hl%bool_decide_eq_true].
    exfalso. apply (Hno 0); [lia |]. rewrite Nat.add_0_r.
    rewrite <- Hm. by apply list_lookup_lookup_total_lt.
  - apply (IH (length paths - S (S ix))); [lia | done |].
    intros k Hk. replace (S (S ix) + 2 * k) with (ix + 2 * S k) by lia.
    apply Hno. lia.
Qed.

Lemma moved_lookup (paths : list string) (i j : nat) :
  i < length paths → j < length paths - 1 →
  (take i paths ++ drop (S i) paths ++ [MetaFilename]) !! j
  = paths !! (if decide (j < i) then j else S j).
Proof.
  intros Hi Hj. destruct (decide (j < i)) as [Hlt | Hge].
  - rewrite lookup_app_l by (rewrite length_take; lia). by rewrite lookup_take_lt.
  - rewrite lookup_app_r by (rewrite length_take; lia). rewrite length_take.
    rewrite lookup_app_l by (rewrite length_drop; lia).
    rewrite lookup_drop. f_equal. lia.
Qed.

(** Up to an even distance before the descriptor, the loop gets to it. *)
Lemma reorderFrom_reaches (paths : list string) (i k : nat) :
  metaOnlyAt paths i → 2 * k ≤ i →
  reorderFrom paths (i - 2 * k) = take i paths ++ drop (S i) paths ++ [MetaFilename].
Proof.
  intros [Hi Hother] Hk.
  assert (Hlen : i < length paths) by (by eapply lookup_lt_Some).
  induction k as [|k IH].
  - rewrite Nat.sub_0_r. destruct (decide (i < length paths - 1)) as [Hlast | Hlast].
    + rewrite reorderFrom_step. rewrite decide_True by done.
      rewrite (list_lookup_total_correct _ _ _ Hi).
      rewrite !bool_decide_eq_true_2 by done. simpl.
      apply reorderFrom_skips. rewrite !length_app, length_take, length_drop. simpl.
      intros j Hj.
      assert (Hj' : S i + 2 * j < length paths - 1) by (simpl; lia).
      change ((take i paths ++ drop (S i) paths ++ [MetaFilename]) !! (S i + 2 * j)
              ≠ Some MetaFilename).
      rewrite (moved_lookup paths i (S i + 2 * j) Hlen Hj').
      destruct (decide (S i + 2 * j < i)); [lia |]. apply Hother. lia.
    + rewrite reorderFrom_skips.
      * rewrite <- (take_drop_middle paths i MetaFilename Hi) at 1.
        rewrite (drop_ge paths (S i)) by lia. done.
      * intros j Hj. apply Hother. lia.
  - rewrite reorderFrom_step. rewrite decide_True by lia.
    rewrite bool_decide_eq_false_2; last first.
    { intros Hm. apply (Hother (i - 2 * S k)); [lia |]. rewrite <- Hm.
      apply list_lookup_lookup_total_lt. lia. }
    cbn [andb]. rewrite <- IH by lia. f_equal. lia.
Qed.

End reorder_facts.

(** X1.  The descriptor at an even index is moved to the end, and the other
    paths keep their order. *)
Theorem reorder_even (paths : list string) (i : nat) :
  metaOnlyAt paths i → Nat.even i = true →
  reorder paths = take i paths ++ drop (S i) paths ++ [MetaFilename].
Proof.
  intros Hm Hev. apply Nat.even_spec in Hev as [k ->]. unfold reorder.
  rewrite <- (reorderFrom_reaches paths (2 * k) k Hm) by lia.
  f_equal. lia.
Qed.

(** X2.  The descriptor at an odd index stays where it is. *)
Theorem reorder_odd (paths : list string) (i : nat) :
  metaOnlyAt paths i → Nat.odd i = true → reorder paths = paths.
Proof.
  intros [Hi Hother] Hodd. apply Nat.odd_spec in Hodd as [k ->]. unfold reorder.
  apply reorderFrom_skips. intros j _. apply Hother. lia.
Qed.

Lemma metaOnlyAt_sample (l1 l2 : list string) :
  bool_decide (MetaFilename ∈ l1 ++ l2) = false →
  metaOnlyAt (l1 ++ MetaFilename :: l2) (length l1).
Proof.
  intros Hn%bool_decide_eq_false. split.
  - by rewrite list_lookup_middle.
  - intros j Hj Hl. apply Hn. apply elem_of_app.
    destruct (decide (j < length l1)%nat) as [Hlt | Hge].
    + left. rewrite lookup_app_l in Hl by done. by eapply list_elem_of_lookup_2.
    + right. rewrite lookup_app_r in Hl by lia.
      destruct (j - length l1)%nat as [|m] eqn:Hm; [lia |].
      simpl in Hl. by eapply list_elem_of_lookup_2.
Qed.

Lemma reorder_even_witness :
  reorder ["chunks/000001"; "index"; "meta.json"; "tombstones"]
  = ["chunks/000001"; "index"; "tombstones"; "meta.json"].
Proof.
  exact (reorder_even ["chunks/000001"; "index"; "meta.json"; "tombstones"] 2
           (metaOnlyAt_sample ["chunks/000001"; "index"] ["tombstones"] eq_refl) eq_refl).
Defined.

Lemma reorder_odd_witness :
  reorder ["chunks/000001"; "chunks/000002"; "index"; "meta.json"; "tombstones"]
  = ["chunks/000001"; "chunks/000002"; "index"; "meta.json"; "tombstones"].
Proof.
  exact (reorder_odd ["chunks/000001"; "chunks/000002"; "index"; "meta.json"; "tombstones"] 3
           (metaOnlyAt_sample ["chunks/000001"; "chunks/000002"; "index"] ["tombstones"]
              eq_refl) eq_refl).
Defined.

Section copy_all.

Context (E : extern) (srcBkt destBkt tenantID : string) (blockID : ulid.ULID).

(** The copy loop when no copy fails. *)
Lemma copyPaths_all (paths : list string) (w : world) :
  Forall (fun q => copyFault E (objects w) srcBkt destBkt (blockPath tenantID blockID q) = None)
         paths →
  copyPaths E tenantID blockID srcBkt destBkt paths w =
    (None,
     {| objects := copyAll srcBkt destBkt (blockPath tenantID blockID <$> paths) (objects w);
        counters := counters w;
        trace := trace w ++ copyEvents srcBkt destBkt (blockPath tenantID blockID <$> paths) |}).
Proof.
  revert w. induction paths as [|q paths IH]; intros w Hall.
  - simpl. unfold copyEvents. simpl. rewrite app_nil_r. by destruct w.
  - apply Forall_cons_1 in Hall as [Hq Hall].
    cbn [copyPaths]. rewrite bind_run, copierRun_run, Hq.
    pose proof Hq as Hex. unfold copyFault in Hex.
    destruct (copyErr E srcBkt destBkt (blockPath tenantID blockID q)); [done |].
    destruct (objects w !! (srcBkt, blockPath tenantID blockID q)) as [data|] eqn:Hd; [|done].
    assert (Hone : copyAll srcBkt destBkt [blockPath tenantID blockID q] (objects w)
                   = <[(destBkt, blockPath tenantID blockID q) := data]> (objects w)).
    { unfold copyAll. simpl. by rewrite Hd. }
    cbn [fst snd]. rewrite IH.
    + cbn [objects counters trace]. f_equal. f_equal. rewrite <- app_assoc. reflexivity.
    + cbn [objects]. rewrite Hone. eapply Forall_impl; [exact Hall |].
      intros q'. cbv beta. by rewrite copyFault_insert.
Qed.

End copy_all.

(** X3.  When the listing succeeds and no copy fails, the Block Copier returns
    success after copying every listed object once, in the order the
    reorder loop leaves. *)
Theorem copy_all_in_order (E : extern) (tenantID : string) (blockID : ulid.ULID)
    (srcBkt destBkt : string) (w w1 : world) (paths : list string) :
  listPrefix E srcBkt (tenantID +:+ delim +:+ ulid.String blockID) true w = (inr paths, w1) →
  Forall (fun q => copyFault E (objects w) srcBkt destBkt (blockPath tenantID blockID q) = None)
         (reorder paths) →
  copySingleBlock E tenantID blockID srcBkt destBkt w =
    (None,
     {| objects := copyAll srcBkt destBkt (blockPath tenantID blockID <$> reorder paths)
                     (objects w);
        counters := counters w;
        trace := trace w1
                 ++ copyEvents srcBkt destBkt (blockPath tenantID blockID <$> reorder paths) |}).
Proof.
  intros Hlist Hall.
  destruct (keeps_listPrefix E srcBkt (tenantID +:+ delim +:+ ulid.String blockID) true w)
    as (evs & Hw1 & _).
  rewrite Hlist in Hw1. simpl in Hw1.
  assert (Hobj : objects w1 = objects w) by (by rewrite Hw1).
  assert (Hcnt : counters w1 = counters w) by (by rewrite Hw1).
  unfold copySingleBlock. rewrite bind_run, Hlist. cbn [fst snd].
  rewrite copyPaths_all by (by rewrite Hobj). by rewrite Hobj, Hcnt.
Qed.

Lemma sample_reorder :
  reorder ["chunks/000001"; "chunks/000002"; "index"; "meta.json"; "tombstones"]
  = ["chunks/000001"; "chunks/000002"; "index"; "meta.json"; "tombstones"].
Proof. vm_compute. reflexivity. Qed.

Lemma copy_all_in_order_witness :
  fst (copySingleBlock sampleExtern sampleTenant sampleID "src" "dst" (sampleWorld meta25h []))
  = None.
Proof.
  assert (Hl : listPrefix sampleExtern "src" (sampleTenant +:+ delim +:+ ulid.String sampleID)
                 true (sampleWorld meta25h [])
               = (inr ["chunks/000001"; "chunks/000002"; "index"; "meta.json"; "tombstones"],
                  snd plainListing)).
  { exact (run_eta plainListing _ ltac:(vm_compute; reflexivity)). }
  assert (Hall : Forall (fun q => copyFault sampleExtern (objects (sampleWorld meta25h []))
                                    "src" "dst" (blockPath sampleTenant sampleID q) = None)
                   (reorder ["chunks/000001"; "chunks/000002"; "index"; "meta.json";
                             "tombstones"])).
  { rewrite sample_reorder.
    repeat apply Forall_cons_2; [vm_compute; reflexivity .. | apply Forall_nil_2]. }
  rewrite (copy_all_in_order sampleExtern sampleTenant sampleID "src" "dst"
             (sampleWorld meta25h []) (snd plainListing) _ Hl Hall).
  reflexivity.
Defined.

Section reorder_invariants.

Local Open Scope nat_scope.

(** Taking one path out and appending it keeps the paths. *)
Lemma moved_Permutation (paths : list string) (ix : nat) (p : string) :
  paths !! ix = Some p → take ix paths ++ drop (S ix) paths ++ [p] ≡ₚ paths.
Proof.
  intros Hp. rewrite <- (take_drop_middle paths ix p Hp) at 3.
  apply Permutation_app_head. rewrite <- Permutation_cons_append. done.
Qed.

Lemma moved_filter (paths : list string) (ix : nat) :
  paths !! ix = Some MetaFilename →
  filter (λ p, p ≠ MetaFilename) (take ix paths ++ drop (S ix) paths ++ [MetaFilename])
  = filter (λ p, p ≠ MetaFilename) paths.
Proof.
  intros Hp. rewrite <- (take_drop_middle paths ix MetaFilename Hp) at 3.
  rewrite !filter_app, filter_cons_False, filter_cons_False by (intros H; by apply H).
  rewrite filter_nil. by rewrite app_nil_r.
Qed.

Lemma reorderFrom_Permutation (paths : list string) (ix : nat) :
  reorderFrom paths ix ≡ₚ paths
  ∧ filter (λ p, p ≠ MetaFilename) (reorderFrom paths ix)
    = filter (λ p, p ≠ MetaFilename) paths.
Proof.
  remember (length paths - ix) as n eqn:Hn. revert paths ix Hn.
  induction n as [n IH] using lt_wf_ind. intros paths ix Hn.
  rewrite reorderFrom_step. destruct (decide (ix < length paths)) as [Hlt | Hge]; [|done].
  destruct (bool_decide (paths !!! ix = MetaFilename)
            && bool_decide (ix < length paths - 1)) eqn:Hc.
  - apply andb_true_iff in Hc as [Hm%bool_decide_eq_true Hl%bool_decide_eq_true].
    assert (Hix : paths !! ix = Some MetaFilename).
    { rewrite <- Hm. by apply list_lookup_lookup_total_lt. }
    destruct (IH (length (take ix paths ++ drop (S ix) paths ++ [MetaFilename]) - S ix))
      with (paths := take ix paths ++ drop (S ix) paths ++ [MetaFilename]) (ix := S ix)
      as [Hperm Hfil].
    + rewrite !length_app, length_take, length_drop. simpl. lia.
    + done.
    + split.
      * rewrite Hperm. by apply moved_Permutation.
      * rewrite Hfil. by apply moved_filter.
  - apply (IH (length paths - S (S ix))); [lia | done].
Qed.

End reorder_invariants.

(** X4.  The reorder loop of [copySingleBlock] neither drops, duplicates
    nor invents a path: what it leaves is a permutation of the listing, and
    the paths other than [meta.json] keep their relative order. *)
Theorem reorder_permutes (paths : list string) :
  reorder paths ≡ₚ paths
  ∧ length (reorder paths) = length paths
  ∧ filter (λ p, p ≠ MetaFilename) (reorder paths) = filter (λ p, p ≠ MetaFilename) paths.
Proof.
  destruct (reorderFrom_Permutation paths 0) as [Hperm Hfil].
  split; [done |]. split; [| done]. unfold reorder. by rewrite Hperm.
Qed.

Section listing_exact.

(** The loop of [listPrefix] does not fail on entries that carry the
    prefix. *)
Lemma relativePaths_ok (prefix : string) (objs : list ObjectAttrs) (acc : list string) :
  Forall (λ o, strings.HasPrefix (entryPath o) prefix = true) objs →
  relativePaths prefix objs acc
  = inr (acc ++ ((λ o, strings.TrimPrefix (entryPath o) prefix) <$> objs)).
Proof.
  revert acc. induction objs as [|o objs IH]; intros acc Hall.
  - simpl. by rewrite app_nil_r.
  - apply Forall_cons_1 in Hall as [Ho Hall]. cbn [relativePaths].
    fold (entryPath o). rewrite Ho, IH by done. by rewrite <- app_assoc.
Qed.

Lemma app_slash_nonempty (a : string) : a +:+ "/" ≠ "".
Proof. destruct a; [by_decide | by rewrite app_cons_s]. Qed.

Lemma entryPath_object (n : string) : entryPath {| Prefix := ""; Name := n |} = n.
Proof. reflexivity. Qed.

Lemma entryPath_dir (prefix d : string) :
  entryPath {| Prefix := prefix +:+ d +:+ delim; Name := "" |} = prefix +:+ d +:+ delim.
Proof.
  unfold entryPath. cbn [Prefix Name]. rewrite bool_decide_eq_false_2; [done |].
  rewrite <- app_assoc_s. apply app_slash_nonempty.
Qed.

(** The entries of a listing carry the prefix of the query. *)
Lemma queryObjects_prefixed (objs : gmap (string * string) string)
    (bkt prefix : string) (recursive : bool) :
  Forall (λ o, strings.HasPrefix (entryPath o) prefix = true)
         (queryObjects objs bkt prefix (if recursive then "" else delim)).
Proof.
  unfold queryObjects. destruct recursive.
  - rewrite bool_decide_eq_true_2 by done.
    apply Forall_fmap, Forall_forall. intros n [Hn _]%list_elem_of_filter. done.
  - rewrite bool_decide_eq_false_2 by by_decide.
    apply Forall_app. split.
    + apply Forall_fmap, Forall_forall.
      intros n [_ [Hn _]%list_elem_of_filter]%list_elem_of_filter. done.
    + apply Forall_fmap, Forall_forall. intros d _. unfold compose.
      rewrite entryPath_dir. apply HasPrefix_app.
Qed.

(** What a run of [listPrefix] on a store without listing fault returns. *)
Lemma listPrefix_listed (E : extern) (bkt prefix : string) (recursive : bool) (w : world) :
  listErr E bkt (queryPrefix prefix) = None →
  listPrefix E bkt prefix recursive w =
    (inr ((λ o, strings.TrimPrefix (entryPath o) (queryPrefix prefix))
            <$> queryObjects (objects w) bkt (queryPrefix prefix)
                  (if recursive then "" else delim)),
     withEvents w [EvList bkt (queryPrefix prefix)]).
Proof.
  intros Herr. rewrite listPrefix_run, Herr.
  by rewrite relativePaths_ok by apply queryObjects_prefixed.
Qed.

(** The paths of a recursive listing: the rest of the name of every object
    under the prefix. *)
Lemma listed_recursive (objs : gmap (string * string) string) (bkt prefix p : string) :
  p ∈ (λ o, strings.TrimPrefix (entryPath o) prefix) <$> queryObjects objs bkt prefix ""
  ↔ is_Some (objs !! (bkt, prefix +:+ p)).
Proof.
  unfold queryObjects. rewrite bool_decide_eq_true_2 by done.
  rewrite <- list_fmap_compose. rewrite list_elem_of_fmap. split.
  - intros (n & -> & [Hn Hin]%list_elem_of_filter). unfold compose. rewrite entryPath_object.
    apply HasPrefix_true in Hn as [r ->]. rewrite TrimPrefix_app.
    by apply elem_of_bucketNames.
  - intros Hp. exists (prefix +:+ p). split.
    + unfold compose. by rewrite entryPath_object, TrimPrefix_app.
    + apply list_elem_of_filter. split; [apply HasPrefix_app | by apply elem_of_bucketNames].
Qed.

(** The paths of a listing with the delimiter: the objects right under the
    prefix, and one entry [d/] for every next path segment [d]. *)
Lemma listed_flat (objs : gmap (string * string) string) (bkt prefix p : string) :
  p ∈ (λ o, strings.TrimPrefix (entryPath o) prefix) <$> queryObjects objs bkt prefix delim
  ↔ (¬ contains "/" p ∧ is_Some (objs !! (bkt, prefix +:+ p)))
    ∨ (∃ d rest, p = d +:+ "/" ∧ ¬ contains "/" d
                 ∧ is_Some (objs !! (bkt, prefix +:+ d +:+ "/" +:+ rest))).
Proof.
  unfold queryObjects. rewrite bool_decide_eq_false_2 by by_decide.
  rewrite fmap_app, elem_of_app, <- !list_fmap_compose, !list_elem_of_fmap. split.
  - intros [(n & -> & [Hg [Hn Hin]%list_elem_of_filter]%list_elem_of_filter)
           | (d & -> & Hd)].
    + left. unfold compose. rewrite entryPath_object.
      apply HasPrefix_true in Hn as [r ->]. rewrite TrimPrefix_app in *.
      split; [| by apply elem_of_bucketNames].
      apply Cut_char_None. unfold delim in Hg.
      by destruct (strings.Cut r "/").
    + right. apply elem_of_remove_dups, list_elem_of_omap in Hd as (n & Hin & Hg).
      apply list_elem_of_filter in Hin as [Hn Hin].
      apply HasPrefix_true in Hn as [r ->]. rewrite TrimPrefix_app in Hg.
      unfold delim in Hg.
      destruct (strings.Cut r "/") as [[before after]|] eqn:Hcut; [|done].
      simpl in Hg. injection Hg as ->.
      apply Cut_char_Some in Hcut as [-> Hno].
      exists d, after. unfold compose. rewrite entryPath_dir, TrimPrefix_app.
      split; [done |]. split; [done |]. by apply elem_of_bucketNames.
  - intros [[Hno Hp] | (d & rest & -> & Hno & Hp)].
    + left. exists (prefix +:+ p). split; [unfold compose; by rewrite entryPath_object, TrimPrefix_app |].
      apply list_elem_of_filter. split.
      * rewrite TrimPrefix_app. unfold delim.
        apply Cut_char_None in Hno. by rewrite Hno.
      * apply list_elem_of_filter. split; [apply HasPrefix_app | by apply elem_of_bucketNames].
    + right. exists d. split; [unfold compose; by rewrite entryPath_dir, TrimPrefix_app |].
      apply elem_of_remove_dups, list_elem_of_omap.
      exists (prefix +:+ d +:+ "/" +:+ rest). split.
      * apply list_elem_of_filter. split; [apply HasPrefix_app | by apply elem_of_bucketNames].
      * rewrite TrimPrefix_app. unfold delim.
        change (d +:+ "/" +:+ rest) with (d +:+ String "/" rest).
        by rewrite Cut_char_app.
Qed.

End listing_exact.

Section listing_nodup.

Lemma bucketNames_NoDup (objs : gmap (string * string) string) (bkt : string) :
  NoDup (bucketNames objs bkt).
Proof.
  unfold bucketNames. rewrite merge_sort_Permutation.
  pose proof (NoDup_fst_map_to_list objs) as Hnd.
  induction (map_to_list objs) as [|[[b n] v] l IH]; [constructor |].
  rewrite fmap_cons in Hnd. apply NoDup_cons in Hnd as [Hfresh Hnd].
  cbn [omap list_omap]. destruct (bool_decide (b = bkt)) eqn:Hb; [| by apply IH].
  apply bool_decide_eq_true in Hb as ->.
  apply NoDup_cons. split; [| by apply IH].
  intros ([[b' n'] v'] & Hin & Hf)%list_elem_of_omap. apply Hfresh.
  destruct (bool_decide (b' = bkt)) eqn:Hb'; [|done].
  apply bool_decide_eq_true in Hb' as ->. injection Hf as ->.
  apply list_elem_of_fmap. by exists (bkt, n, v').
Qed.

Lemma listed_recursive_NoDup (objs : gmap (string * string) string) (bkt prefix : string) :
  NoDup ((λ o, strings.TrimPrefix (entryPath o) prefix) <$> queryObjects objs bkt prefix "").
Proof.
  unfold queryObjects. rewrite bool_decide_eq_true_2 by done.
  rewrite <- list_fmap_compose. apply NoDup_fmap_2_strong.
  - intros n m [Hn _]%list_elem_of_filter [Hm _]%list_elem_of_filter.
    unfold compose. rewrite !entryPath_object.
    apply HasPrefix_true in Hn as [r ->]. apply HasPrefix_true in Hm as [r' ->].
    rewrite !TrimPrefix_app. by intros ->.
  - apply NoDup_filter, bucketNames_NoDup.
Qed.

End listing_nodup.

Section trim_facts.

(** [trimDelimSuffix] takes one trailing delimiter off. *)
Lemma TrimSuffix_slash (d : string) : strings.TrimSuffix (d +:+ "/") "/" = d.
Proof.
  induction d as [|c d IH]; [reflexivity |].
  rewrite app_cons_s. cbn [strings.TrimSuffix]. rewrite bool_decide_eq_false_2.
  - by rewrite IH.
  - intros Heq. injection Heq as _ Heq. by apply app_slash_nonempty in Heq.
Qed.

Lemma TrimSuffix_plain (p : string) : ¬ contains "/" p → strings.TrimSuffix p "/" = p.
Proof.
  induction p as [|c p IH]; [done |]. intros Hno.
  cbn [strings.TrimSuffix]. rewrite bool_decide_eq_false_2.
  - rewrite IH; [done |]. intros Hp. apply Hno. apply contains_cons. by right.
  - intros Heq. injection Heq as -> _. apply Hno. apply contains_cons. by left.
Qed.

Lemma queryPrefix_empty : queryPrefix "" = "".
Proof. reflexivity. Qed.

(** The entries of a listing with the delimiter, after [trimDelimSuffix]:
    the first segments of what lies under the prefix. *)
Lemma trimmed_flat (objs : gmap (string * string) string) (bkt prefix d : string) :
  d ∈ trimDelimSuffix
        ((λ o, strings.TrimPrefix (entryPath o) prefix) <$> queryObjects objs bkt prefix delim)
  ↔ ¬ contains "/" d
    ∧ (is_Some (objs !! (bkt, prefix +:+ d))
       ∨ ∃ rest, is_Some (objs !! (bkt, prefix +:+ d +:+ "/" +:+ rest))).
Proof.
  unfold trimDelimSuffix. rewrite list_elem_of_fmap. split.
  - intros (p & -> & [[Hno Hp] | (d' & rest & -> & Hno & Hp)]%listed_flat).
    + unfold delim. rewrite TrimSuffix_plain by done. split; [done | by left].
    + unfold delim. rewrite TrimSuffix_slash. split; [done |]. right. by exists rest.
  - intros [Hno [Hp | [rest Hp]]].
    + exists d. unfold delim. rewrite TrimSuffix_plain by done. split; [done |].
      apply listed_flat. by left.
    + exists (d +:+ "/"). unfold delim. rewrite TrimSuffix_slash. split; [done |].
      apply listed_flat. right. by exists d, rest.
Qed.

End trim_facts.

(** X5.  [listPrefix], run recursively: when the iterator fails, the
    error wrapped with the queried prefix and no path; otherwise every
    object under the prefix once, as the rest of its name after the prefix,
    and nothing else.  The prefix queried is the one given, with a
    delimiter added unless it is empty or ends with one. *)
Theorem listPrefix_recursive_exact (E : extern) (bkt prefix : string) (w : world) :
  let queried := queryPrefix prefix in
  (∀ e, listErr E bkt queried = Some e →
     listPrefix E bkt prefix true w =
       (inl (Wrapped ("listPrefix: error listing " +:+ queried) e),
        withEvents w [EvList bkt queried]))
  ∧ (listErr E bkt queried = None →
     ∃ paths,
       listPrefix E bkt prefix true w = (inr paths, withEvents w [EvList bkt queried])
       ∧ NoDup paths
       ∧ ∀ p, p ∈ paths ↔ is_Some (objects w !! (bkt, queried +:+ p))).
Proof.
  intros queried. subst queried. split.
  - intros e He. by rewrite listPrefix_run, He.
  - intros Hnone. eexists. split; [by apply listPrefix_listed |].
    split; [apply listed_recursive_NoDup | apply listed_recursive].
Qed.

(** X6.  [listTenants]: a listing error is passed on; otherwise the
    tenants are the first path segments of the object names of the bucket,
    the names of objects at the root of the bucket among them. *)
Theorem listTenants_exact (E : extern) (bkt : string) (w : world) :
  (∀ e, listErr E bkt "" = Some e →
     listTenants E bkt w =
       (inl (Wrapped "listPrefix: error listing " e), withEvents w [EvList bkt ""]))
  ∧ (listErr E bkt "" = None →
     ∃ tenants,
       listTenants E bkt w = (inr tenants, withEvents w [EvList bkt ""])
       ∧ ∀ t, t ∈ tenants ↔
              ¬ contains "/" t
              ∧ (is_Some (objects w !! (bkt, t))
                 ∨ ∃ rest, is_Some (objects w !! (bkt, t +:+ "/" +:+ rest)))).
Proof.
  split.
  - intros e He. unfold listTenants. rewrite bind_run, listPrefix_run, queryPrefix_empty, He.
    reflexivity.
  - intros Hnone. eexists. split.
    + unfold listTenants. rewrite bind_run, listPrefix_listed by done.
      rewrite queryPrefix_empty. reflexivity.
    + intros t. rewrite trimmed_flat. by rewrite !app_nil_l_s.
Qed.

Section blocks_listed.

Lemma Parse_nonempty (s : string) (id : ulid.ULID) : ulid.Parse s = inr id → s ≠ "".
Proof. by intros Hp ->. Qed.

Lemma IsBlockDir_Some (d : string) (id : ulid.ULID) :
  ¬ contains "/" d →
  (let '(id', ok) := IsBlockDir d in if ok then Some id' else None) = Some id
  ↔ ulid.Parse d = inr id.
Proof.
  intros Hno. unfold IsBlockDir. destruct (decide (d = "")) as [-> | Hne].
  - split; [by vm_compute | by intros ?%Parse_nonempty].
  - rewrite Base_plain by done. destruct (ulid.Parse d) as [e | id']; [done |].
    split; by intros [= ->].
Qed.

End blocks_listed.

(** X7.  [listBlocksForTenant]: the blocks are the identifiers of the
    entries right under the tenant's prefix whose name parses as a block
    ID; entries that do not parse are left out.  Every identifier returned
    is a well-formed one whose text form parses back to it, so the block
    function's own [ulid.Parse] never fails on it, and a block that has an
    object under [tenant/<block ID>/] is found. *)
Theorem listBlocksForTenant_exact (E : extern) (bkt tenantID : string) (w w' : world)
    (blocks : list ulid.ULID) :
  listBlocksForTenant E bkt tenantID w = (inr blocks, w') →
  let queried := queryPrefix tenantID in
  Forall (λ b, ulid.wf b ∧ ulid.Parse (ulid.String b) = inr b) blocks
  ∧ (∀ id, id ∈ blocks ↔
       ∃ d, ¬ contains "/" d ∧ ulid.Parse d = inr id
            ∧ (is_Some (objects w !! (bkt, queried +:+ d))
               ∨ ∃ rest, is_Some (objects w !! (bkt, queried +:+ d +:+ "/" +:+ rest))))
  ∧ (∀ id p, ulid.wf id →
       is_Some (objects w !! (bkt, queried +:+ ulid.String id +:+ "/" +:+ p)) →
       id ∈ blocks).
Proof.
  intros Hrun queried. unfold listBlocksForTenant in Hrun.
  rewrite bind_run, listPrefix_run in Hrun. cbn [fst snd] in Hrun. fold queried in Hrun.
  destruct (listErr E bkt queried) as [e|] eqn:He; [done |].
  rewrite relativePaths_ok in Hrun by apply (queryObjects_prefixed _ _ _ false).
  rewrite app_nil_l in Hrun. injection Hrun as <- _.
  assert (Hiff : ∀ id, id ∈ omap (λ b, let '(id, ok) := IsBlockDir b in
                                       if ok then Some id else None)
                         (trimDelimSuffix
                            ((λ o, strings.TrimPrefix (entryPath o) queried)
                               <$> queryObjects (objects w) bkt queried delim))
               ↔ ∃ d, ¬ contains "/" d ∧ ulid.Parse d = inr id
                      ∧ (is_Some (objects w !! (bkt, queried +:+ d))
                         ∨ ∃ rest, is_Some (objects w !! (bkt, queried +:+ d +:+ "/" +:+ rest)))).
  { intros id. rewrite list_elem_of_omap. split.
    - intros (d & [Hno Hd]%trimmed_flat & Hok). exists d.
      split; [done |]. split; [by apply IsBlockDir_Some | done].
    - intros (d & Hno & Hp & Hd). exists d. split; [by apply trimmed_flat |].
      by apply IsBlockDir_Some. }
  split; [| split; [exact Hiff |]].
  - apply Forall_forall. intros id (d & _ & Hp & _)%Hiff.
    pose proof (Parse_wf _ _ Hp) as Hwf. split; [done | by apply Parse_String].
  - intros id p Hwf Hobj. apply Hiff. exists (ulid.String id).
    split; [apply String_no_slash |]. split; [by apply Parse_String |]. right. by exists p.
Qed.

Lemma listBlocksForTenant_exact_witness :
  Forall (λ b, ulid.wf b ∧ ulid.Parse (ulid.String b) = inr b)
         (match fst sampleBlocks with inr l => l | inl _ => [] end)
  ∧ sampleID ∈ match fst sampleBlocks with inr l => l | inl _ => [] end.
Proof.
  pose proof (listBlocksForTenant_exact sampleExtern "src" sampleTenant
                (sampleWorld meta25h []) (snd sampleBlocks)
                (match fst sampleBlocks with inr l => l | inl _ => [] end)
                (run_inr_eta sampleBlocks [] ltac:(vm_compute; reflexivity)))
    as (Hwf & _ & Hfound).
  split; [exact Hwf |].
  apply (Hfound sampleID "index" sampleID_wf). vm_compute. eauto.
Defined.

Section resolver_deletion.

Context (dest : string).

Lemma addMarker_deletion (result : gmap ulid.ULID blockMarkers) (m : string)
    (id : ulid.ULID) :
  deletion (addMarker dest result m !!! id) = true ↔
  deletion (result !!! id) = true ∨ IsBlockDeletionMarkFilename m = (id, true).
Proof.
  unfold addMarker.
  destruct (IsBlockDeletionMarkFilename m) as [id1 ok1].
  destruct (IsCopiedToBucketMarkFilename m) as [[ok2 id2] T].
  set (r1 := if ok1 then _ else result).
  assert (Hr1 : deletion (r1 !!! id) = true ↔
                deletion (result !!! id) = true ∨ (id1, ok1) = (id, true)).
  { subst r1. destruct ok1.
    - destruct (decide (id1 = id)) as [-> | Hne].
      + rewrite lookup_total_insert_eq. simpl. split; auto.
      + rewrite lookup_total_insert_ne by done.
        split; [auto |]. intros [? | [= ?]]; done.
    - split; [auto |]. intros [? | [= ? ?]]; done. }
  destruct (ok2 && bool_decide (T = dest)); [| done].
  destruct (decide (id2 = id)) as [-> | Hne].
  - by rewrite lookup_total_insert_eq.
  - by rewrite lookup_total_insert_ne.
Qed.

Lemma resolved_deletion (names : list string) (acc : gmap ulid.ULID blockMarkers)
    (id : ulid.ULID) :
  deletion (foldl (addMarker dest) acc names !!! id) = true ↔
  deletion (acc !!! id) = true
  ∨ ∃ name, name ∈ names ∧ IsBlockDeletionMarkFilename name = (id, true).
Proof.
  revert acc. induction names as [|m names IH]; intros acc; simpl.
  - split; [auto |]. intros [? | (name & Hin & _)]; [done |]. by apply not_elem_of_nil in Hin.
  - rewrite IH, addMarker_deletion. split.
    + intros [[Hd | Hm] | (name & Hin & Hn)]; [auto | |].
      * right. exists m. split; [apply elem_of_cons; auto | done].
      * right. exists name. split; [apply elem_of_cons; auto | done].
    + intros [Hd | (name & Hin & Hn)]; [auto |].
      apply elem_of_cons in Hin as [-> | Hin]; [auto |]. right. eauto.
Qed.

Lemma blockMarkers_eq (a b : blockMarkers) :
  (deletion a = true ↔ deletion b = true) → (copied a = true ↔ copied b = true) → a = b.
Proof.
  destruct a as [[] []], b as [[] []]; simpl; intros [H1 H2] [H3 H4]; try done;
    first [by discriminate H1 | by discriminate H2 | by discriminate H3 | by discriminate H4].
Qed.

End resolver_deletion.

(** X8.  The loop of [listBlockMarkersForTenant]: a block is resolved as
    marked for deletion exactly when a listed name is a deletion marker of
    it, a block no listed name is a marker of reads as the zero value, and
    the resolved state of a block does not depend on the order in which the
    store lists the names. *)
Theorem resolver_flags (dest : string) (names : list string) (id : ulid.ULID) :
  let resolved := foldl (addMarker dest) ∅ names in
  (deletion (resolved !!! id) = true ↔
     ∃ name, name ∈ names ∧ IsBlockDeletionMarkFilename name = (id, true))
  ∧ ((∀ name, name ∈ names →
        IsBlockDeletionMarkFilename name ≠ (id, true)
        ∧ IsCopiedToBucketMarkFilename name ≠ (true, id, dest)) →
     resolved !!! id = {| deletion := false; copied := false |})
  ∧ (∀ names', names ≡ₚ names' →
       foldl (addMarker dest) ∅ names' !!! id = resolved !!! id).
Proof.
  intros resolved. subst resolved.
  assert (Hdel : ∀ l, deletion (foldl (addMarker dest) ∅ l !!! id) = true ↔
                      ∃ name, name ∈ l ∧ IsBlockDeletionMarkFilename name = (id, true)).
  { intros l. rewrite resolved_deletion, lookup_total_empty.
    split; [intros [? | ?]; done | auto]. }
  assert (Hcop : ∀ l, copied (foldl (addMarker dest) ∅ l !!! id) = true ↔
                      ∃ name, name ∈ l ∧ IsCopiedToBucketMarkFilename name = (true, id, dest)).
  { intros l. rewrite resolved_copied, lookup_total_empty.
    split; [intros [? | ?]; done | auto]. }
  split; [apply Hdel |]. split.
  - intros Hnone. apply blockMarkers_eq; simpl.
    + rewrite Hdel. split; [| done]. intros (name & Hin & Hn).
      by destruct (Hnone name Hin) as [Hd _].
    + rewrite Hcop. split; [| done]. intros (name & Hin & Hn).
      by destruct (Hnone name Hin) as [_ Hc].
  - intros names' Hperm. apply blockMarkers_eq.
    + rewrite !Hdel. by setoid_rewrite Hperm.
    + rewrite !Hcop. by setoid_rewrite Hperm.
Qed.

Section copy_complete.

Context (E : extern) (srcBkt destBkt tenantID : string) (blockID : ulid.ULID).

(** A copy loop that returns no error met no fault. *)
Lemma copyPaths_None (paths : list string) (w w' : world) :
  copyPaths E tenantID blockID srcBkt destBkt paths w = (None, w') →
  Forall (λ q, copyFault E (objects w) srcBkt destBkt (blockPath tenantID blockID q) = None)
         paths.
Proof.
  revert w. induction paths as [|q paths IH]; intros w Hrun; [constructor |].
  cbn [copyPaths] in Hrun. rewrite bind_run, copierRun_run in Hrun.
  destruct (copyFault E (objects w) srcBkt destBkt (blockPath tenantID blockID q))
    as [e|] eqn:Hq; [done |].
  cbn [fst snd] in Hrun. apply IH in Hrun. cbn [objects] in Hrun.
  constructor; [done |].
  unfold copyFault in Hq.
  destruct (copyErr E srcBkt destBkt (blockPath tenantID blockID q)); [done |].
  destruct (objects w !! (srcBkt, blockPath tenantID blockID q)) as [data|] eqn:Hd; [|done].
  assert (Hone : copyAll srcBkt destBkt [blockPath tenantID blockID q] (objects w)
                 = <[(destBkt, blockPath tenantID blockID q) := data]> (objects w)).
  { unfold copyAll. simpl. by rewrite Hd. }
  rewrite Hone in Hrun. eapply Forall_impl; [exact Hrun |].
  intros q'. cbv beta. by rewrite copyFault_insert.
Qed.

Lemma blockPath_queried (p : string) :
  blockPath tenantID blockID p
  = queryPrefix (tenantID +:+ delim +:+ ulid.String blockID) +:+ p.
Proof. rewrite queryPrefix_block. unfold blockPath. by rewrite !app_assoc_s. Qed.

End copy_complete.

Section whole_block.

Context (E : extern) (srcBkt destBkt tenantID : string) (blockID : ulid.ULID).

(** After a run of [copySingleBlock] that returns nil every object of the
    block is in the destination bucket. *)
Lemma copySingleBlock_whole (w w' : world) (p data : string) :
  copySingleBlock E tenantID blockID srcBkt destBkt w = (None, w') →
  objects w !! (srcBkt, blockPath tenantID blockID p) = Some data →
  objects w' !! (destBkt, blockPath tenantID blockID p) = Some data.
Proof.
  intros Hrun Hp. unfold copySingleBlock in Hrun.
  rewrite bind_run, listPrefix_run in Hrun. cbn [fst snd] in Hrun.
  destruct (listErr E srcBkt _) as [e|] eqn:He; [done |].
  rewrite relativePaths_ok in Hrun by apply (queryObjects_prefixed _ _ _ true).
  rewrite app_nil_l in Hrun.
  set (paths := _ <$> queryObjects _ _ _ _) in Hrun.
  assert (Hin : p ∈ reorder paths).
  { rewrite (proj1 (reorderFrom_Permutation paths 0)). subst paths.
    apply listed_recursive. rewrite <- blockPath_queried. by rewrite Hp. }
  pose proof (copyPaths_None _ _ _ _ _ _ _ _ Hrun) as Hall.
  rewrite copyPaths_all in Hrun by done. injection Hrun as <-. cbn [objects].
  rewrite copyAll_copied.
  - done.
  - apply list_elem_of_fmap. by exists p.
  - by rewrite Hp.
Qed.

End whole_block.

(** X9.  A run of [copySingleBlock] that returns nil has copied the whole
    block: every object under [tenant/<block ID>/] in the source bucket is
    in the destination bucket under the same name with the same content,
    and no other object has changed. *)
Theorem copy_whole_block (E : extern) (tenantID : string) (blockID : ulid.ULID)
    (srcBkt destBkt : string) (w w' : world) :
  copySingleBlock E tenantID blockID srcBkt destBkt w = (None, w') →
  (∀ p data,
     objects w !! (srcBkt, blockPath tenantID blockID p) = Some data →
     objects w' !! (destBkt, blockPath tenantID blockID p) = Some data)
  ∧ (∀ key, (∀ p, key ≠ (destBkt, blockPath tenantID blockID p)) →
            objects w' !! key = objects w !! key).
Proof.
  intros Hrun. split.
  - intros p data. by apply (copySingleBlock_whole E).
  - intros key Hkey.
    pose proof (keeps_copySingleBlock_changesOnly E
                  (λ key, ∃ p, key = (destBkt, blockPath tenantID blockID p))
                  tenantID blockID srcBkt destBkt (λ p, ex_intro _ p eq_refl) w) as Hk.
    rewrite Hrun in Hk. apply Hk. intros [p ->]. by apply (Hkey p).
Qed.

Lemma copy_whole_block_witness :
  objects (snd plainCopy) !! ("dst", blockPath sampleTenant sampleID "chunks/000002")
  = Some "chunk2".
Proof.
  apply (proj1 (copy_whole_block sampleExtern sampleTenant sampleID "src" "dst"
                  (sampleWorld meta25h []) (snd plainCopy)
                  (run_eta plainCopy None ltac:(vm_compute; reflexivity)))).
  vm_compute. reflexivity.
Defined.

Section mirror_facts.

Context (srcBkt destBkt : string) (K : string → Prop).

#[global] Instance mirrors_preorder : PreOrder (mirrors srcBkt destBkt K).
Proof.
  split.
  - intros w. split; [done |]. intros key. by left.
  - intros w1 w2 w3 [Hs1 Hd1] [Hs2 Hd2]. split.
    + intros n. by rewrite Hs2, Hs1.
    + intros key. destruct (Hd2 key) as [Heq | (n & -> & Hn & Hsome & Heq)].
      * rewrite Heq. apply Hd1.
      * right. exists n. rewrite <- Hs1. done.
Qed.

Lemma readsOnly_mirrors (w w' : world) : readsOnly w w' → mirrors srcBkt destBkt K w w'.
Proof. intros (evs & -> & _). split; [done |]. intros key. by left. Qed.

Lemma keeps_ro_mirrors {A : Type} (m : IO A) :
  keeps readsOnly m → keeps (mirrors srcBkt destBkt K) m.
Proof. apply keeps_impl, readsOnly_mirrors. Qed.

Lemma keeps_emit_mirrors (e : event) : keeps (mirrors srcBkt destBkt K) (emit e).
Proof. intros w. split; [done |]. intros key. by left. Qed.

Context (E : extern) (Hne : srcBkt ≠ destBkt).

Lemma keeps_copierRun_mirrors (name : string) :
  K name → keeps (mirrors srcBkt destBkt K) (copierRun E srcBkt destBkt name).
Proof.
  intros HK w. rewrite copierRun_run. unfold copyFault.
  destruct (copyErr E srcBkt destBkt name).
  { split; [done |]. intros key. by left. }
  destruct (objects w !! (srcBkt, name)) as [data|] eqn:Hd.
  - cbn [snd]. split; cbn [objects]; unfold copyAll; simpl; rewrite Hd.
    + intros n. rewrite lookup_insert_ne; [done |]. by intros [= ->].
    + intros key. destruct (decide (key = (destBkt, name))) as [-> | Hkey].
      * right. exists name. rewrite lookup_insert_eq, Hd. eauto.
      * left. by rewrite lookup_insert_ne.
  - cbn [snd]. split; [done |]. intros key. by left.
Qed.

Lemma keeps_copyPaths_mirrors (tenantID : string) (blockID : ulid.ULID) (paths : list string) :
  (∀ p, K (blockPath tenantID blockID p)) →
  keeps (mirrors srcBkt destBkt K) (copyPaths E tenantID blockID srcBkt destBkt paths).
Proof.
  intros HK. induction paths as [|p paths IH]; simpl.
  - apply keeps_ret. apply _.
  - apply keeps_bind; [apply _ | by apply keeps_copierRun_mirrors |].
    intros [e|]; [apply keeps_ret; apply _ | done].
Qed.

Lemma keeps_copySingleBlock_mirrors (tenantID : string) (blockID : ulid.ULID) :
  (∀ p, K (blockPath tenantID blockID p)) →
  keeps (mirrors srcBkt destBkt K) (copySingleBlock E tenantID blockID srcBkt destBkt).
Proof.
  intros HK. unfold copySingleBlock.
  apply keeps_bind; [apply _ | apply keeps_ro_mirrors, keeps_listPrefix |].
  intros [e | paths]; [apply keeps_ret; apply _ | by apply keeps_copyPaths_mirrors].
Qed.

End mirror_facts.

(** X10.  Whatever its outcome, [copySingleBlock] between two different
    buckets leaves the source bucket and the counters alone, and an object
    it changes is an object of the block in the destination bucket that now
    holds what the source object of the same name holds. *)
Theorem copy_mirrors_source (E : extern) (tenantID : string) (blockID : ulid.ULID)
    (srcBkt destBkt : string) (w w' : world) (err : option error) :
  srcBkt ≠ destBkt →
  copySingleBlock E tenantID blockID srcBkt destBkt w = (err, w') →
  (∀ n, objects w' !! (srcBkt, n) = objects w !! (srcBkt, n))
  ∧ (∀ key, objects w' !! key ≠ objects w !! key →
       ∃ p, key = (destBkt, blockPath tenantID blockID p)
            ∧ is_Some (objects w !! (srcBkt, blockPath tenantID blockID p))
            ∧ objects w' !! key = objects w !! (srcBkt, blockPath tenantID blockID p))
  ∧ counters w' = counters w.
Proof.
  intros Hne Hrun.
  pose proof (keeps_copySingleBlock_mirrors srcBkt destBkt
                (λ n, ∃ p, n = blockPath tenantID blockID p) E Hne tenantID blockID
                (λ p, ex_intro _ p eq_refl) w) as [Hsrc Hdst].
  pose proof (keeps_copySingleBlock_countersKept E tenantID blockID srcBkt destBkt w) as Hc.
  rewrite Hrun in Hsrc, Hdst, Hc. cbn [snd] in *.
  split; [done |]. split; [| done].
  intros key Hkey. destruct (Hdst key) as [Heq | (n & -> & [p ->] & Hsome & Heq)]; [done |].
  by exists p.
Qed.

Lemma copy_mirrors_source_witness :
  (∀ n, objects (snd partialCopy) !! ("src", n) = objects (sampleWorld meta25h []) !! ("src", n))
  ∧ counters (snd partialCopy) = noCounts.
Proof.
  pose proof (copy_mirrors_source indexFails sampleTenant sampleID "src" "dst"
                (sampleWorld meta25h []) (snd partialCopy) (fst partialCopy)
                ltac:(by_decide) (run_eta partialCopy (fst partialCopy) eq_refl))
    as (Hsrc & _ & Hc).
  split; [exact Hsrc | exact Hc].
Defined.

Section outcome_facts.

Context (E : extern) (cfg : config) (tenantID : string) (blockID : ulid.ULID).
Context (Hne : sourceBucket cfg ≠ destBucket cfg).

(** How the copy of a block ends, from the world [w] in which the block's
    processing began and the world [w1] before the dry-run check, which
    holds the same objects and counters. *)
Lemma copyOrDryRun_outcomes (lg : logger) (w w1 w' : world) (err : option error) :
  objects w1 = objects w → counters w1 = counters w →
  copyOrDryRun E cfg lg tenantID blockID w1 = (err, w') →
  (counters w' = counters w ∧ objects w' = objects w)
  ∨ (counters w' = incBlocksCopyFailed (counters w) ∧ is_Some err
     ∧ ∀ n, objects w' !! (sourceBucket cfg, n) = objects w !! (sourceBucket cfg, n))
  ∨ (counters w' = incBlocksCopied (counters w)
     ∧ (∀ p data,
          objects w !! (sourceBucket cfg, blockPath tenantID blockID p) = Some data →
          objects w' !! (destBucket cfg, blockPath tenantID blockID p) = Some data)
     ∧ ((err = None
         ∧ objects w' !! (sourceBucket cfg, markerPath tenantID blockID (destBucket cfg))
           = Some "")
        ∨ (∃ e, err = Some (Wrapped "uploadCopiedMarkerFile" e)
                ∧ ∀ n, objects w' !! (sourceBucket cfg, n)
                       = objects w !! (sourceBucket cfg, n)))).
Proof.
  intros Ho Hc. unfold copyOrDryRun. destruct (dryRun cfg).
  { intros [= <- <-]. left. by split. }
  rewrite !bind_run. cbn [fst snd Log emit].
  set (w0 := {| objects := objects w1; counters := counters w1; trace := _ |}).
  pose proof (keeps_copySingleBlock_countersKept E tenantID blockID
                (sourceBucket cfg) (destBucket cfg) w0) as Hcnt.
  pose proof (keeps_copySingleBlock_mirrors (sourceBucket cfg) (destBucket cfg)
                (λ _, True) E Hne tenantID blockID (λ _, I) w0) as [Hsrc _].
  pose proof (copySingleBlock_whole E (sourceBucket cfg) (destBucket cfg) tenantID blockID w0)
    as Hwhole.
  unfold countersKept in Hcnt.
  change (counters w0) with (counters w1) in Hcnt.
  change (objects w0) with (objects w1) in Hsrc, Hwhole.
  rewrite Hc in Hcnt. rewrite Ho in Hwhole. setoid_rewrite Ho in Hsrc.
  destruct (copySingleBlock E tenantID blockID (sourceBucket cfg) (destBucket cfg) w0)
    as [[e|] w2]; cbn [snd] in Hcnt, Hsrc.
  - rewrite ?bind_run. cbn [fst snd Log emit incr mret IO_ret].
    intros [= <- <-]. right. left. cbn [counters objects]. rewrite Hcnt.
    split; [done |]. split; [by eexists | done].
  - unfold uploadCopiedMarkerFile, writeEmpty.
    rewrite ?bind_run. cbn [fst snd emit incr Log].
    fold (markerPath tenantID blockID (destBucket cfg)).
    specialize (Hwhole w2).
    destruct (writeErr E (sourceBucket cfg) (markerPath tenantID blockID (destBucket cfg)))
      as [e|].
    + rewrite ?bind_run. cbn [fst snd emit Log mret IO_ret Wrapf fmap option_fmap option_map].
      intros [= <- <-]. right. right. cbn [counters objects].
      rewrite Hcnt. split; [done |]. split.
      * intros p data Hp. by apply Hwhole.
      * right. by exists e.
    + rewrite ?bind_run. cbn [fst snd putObject mret IO_ret Wrapf fmap option_fmap option_map].
      intros [= <- <-]. right. right. cbn [counters objects].
      rewrite Hcnt. split; [done |]. split.
      * intros p data Hp. rewrite lookup_insert_ne by (by intros [= ? _]).
        by apply Hwhole.
      * left. split; [done |]. by rewrite lookup_insert_eq.
Qed.

End outcome_facts.

(** X11.  The ways the processing of one block between two different
    buckets can end.  Either nothing is counted and no object changes (the
    block is skipped, the run is dry, or the metadata cannot be read); or
    the copy failed: [blocksCopyFailed] is one higher, an error is returned
    and the source bucket holds what it held, so no marker is written; or
    the copy succeeded: [blocksCopied] is one higher and the whole block is
    in the destination bucket, and then either the marker is in the source
    bucket and nil is returned, or the marker could not be written, its
    error is returned wrapped and the source bucket holds what it held. *)
Theorem block_outcomes (E : extern) (cfg : config) (lg : logger) (tenantID : string)
    (markers : gmap ulid.ULID blockMarkers) (blockIDStr : string) (blockID : ulid.ULID)
    (w w' : world) (err : option error) :
  ulid.Parse blockIDStr = inr blockID →
  sourceBucket cfg ≠ destBucket cfg →
  processBlock E cfg lg tenantID markers blockIDStr w = (err, w') →
  (counters w' = counters w ∧ objects w' = objects w)
  ∨ (counters w' = incBlocksCopyFailed (counters w) ∧ is_Some err
     ∧ ∀ n, objects w' !! (sourceBucket cfg, n) = objects w !! (sourceBucket cfg, n))
  ∨ (counters w' = incBlocksCopied (counters w)
     ∧ (∀ p data,
          objects w !! (sourceBucket cfg, blockPath tenantID blockID p) = Some data →
          objects w' !! (destBucket cfg, blockPath tenantID blockID p) = Some data)
     ∧ ((err = None
         ∧ objects w' !! (sourceBucket cfg, markerPath tenantID blockID (destBucket cfg))
           = Some "")
        ∨ (∃ e, err = Some (Wrapped "uploadCopiedMarkerFile" e)
                ∧ ∀ n, objects w' !! (sourceBucket cfg, n)
                       = objects w !! (sourceBucket cfg, n)))).
Proof.
  intros Hp Hne. destruct (copied (markers !!! blockID)) eqn:Hc.
  { rewrite (processBlock_copied _ _ _ _ _ _ blockID) by done. intros [= <- <-]. by left. }
  destruct (deletion (markers !!! blockID)) eqn:Hd.
  { rewrite (processBlock_deletion _ _ _ _ _ _ blockID) by done. intros [= <- <-]. by left. }
  rewrite (processBlock_unmarked _ _ _ _ _ _ blockID) by done.
  destruct (keeps_checkMinDuration E cfg (blockLogger lg blockID) tenantID blockID w)
    as (evs & Hw1 & _).
  destruct (checkMinDuration E cfg (blockLogger lg blockID) tenantID blockID w)
    as [[err1|] w1]; cbn [snd] in Hw1.
  - intros [= <- <-]. left. by rewrite Hw1.
  - apply copyOrDryRun_outcomes; [done | by rewrite Hw1 ..].
Qed.

Lemma block_outcomes_witness :
  counters (snd unmarkedCycle) = incBlocksCopied noCounts
  ∧ objects (snd unmarkedCycle) !! ("src", markerPath sampleTenant sampleID "dst") = None
  ∧ objects (snd unmarkedCycle) !! ("dst", blockPath sampleTenant sampleID "index")
    = Some "index".
Proof.
  destruct (block_outcomes writeFails sampleCfg [] sampleTenant ∅ sampleBlockStr sampleID
              (sampleWorld meta25h []) (snd unmarkedCycle) (fst unmarkedCycle)
              sample_parse ltac:(by_decide)
              (run_eta unmarkedCycle (fst unmarkedCycle) eq_refl))
    as [[Hc _] | [(Hc & _) | (Hc & Hwhole & [[Herr _] | (e & _ & Hsrc)])]].
  - exfalso. revert Hc. vm_compute. discriminate.
  - exfalso. revert Hc. vm_compute. discriminate.
  - exfalso. revert Herr. vm_compute. discriminate.
  - split; [exact Hc |]. split.
    + rewrite Hsrc. vm_compute. reflexivity.
    + apply Hwhole. vm_compute. reflexivity.
Defined.

Section meta_failures.

Context (E : extern) (cfg : config) (lg : logger) (tenantID : string) (blockID : ulid.ULID).

Lemma NewReader_run (bkt name : string) (w : world) :
  NewReader E bkt name w =
    (match readErr E bkt name with
     | Some err => inl err
     | None => match objects w !! (bkt, name) with
               | Some data => inr data
               | None => inl ErrObjectNotExist
               end
     end, withEvents w [EvRead bkt name]).
Proof.
  unfold NewReader. rewrite bind_run, emit_run. cbn [fst snd].
  destruct (readErr E bkt name); [done |]. by rewrite bind_run.
Qed.

(** What [loadMetaJSONFile] returns, by what the reader, the decoder and the
    close give. *)
Lemma loadMetaJSONFile_run (w : world) :
  let name := blockPath tenantID blockID MetaFilename in
  loadMetaJSONFile E (sourceBucket cfg) tenantID blockID w =
    (match fst (NewReader E (sourceBucket cfg) name w) with
     | inl err => (zeroMeta, Some (Wrapped ("failed to read " +:+ name) err))
     | inr data =>
         match decodeMeta E data with
         | inl err => (zeroMeta, Some (Wrapped ("read " +:+ name) err))
         | inr m =>
             match closeErr E (sourceBucket cfg) name with
             | Some _ => (zeroMeta, None)
             | None => (m, None)
             end
         end
     end, withEvents w [EvRead (sourceBucket cfg) name]).
Proof.
  intros name. unfold loadMetaJSONFile. fold name. rewrite bind_run, NewReader_run.
  cbn [fst snd].
  destruct (match readErr E (sourceBucket cfg) name with
            | Some err => inl err
            | None => _
            end) as [err | data]; [done |].
  destruct (decodeMeta E data); [done |].
  by destruct (closeErr E (sourceBucket cfg) name).
Qed.

(** The check of the minimum duration when the descriptor cannot be
    loaded. *)
Lemma checkMinDuration_failed (w : world) (e : error) :
  let name := blockPath tenantID blockID MetaFilename in
  0 < minBlockDuration cfg →
  fst (fst (loadMetaJSONFile E (sourceBucket cfg) tenantID blockID w)) = zeroMeta →
  snd (fst (loadMetaJSONFile E (sourceBucket cfg) tenantID blockID w)) = Some e →
  checkMinDuration E cfg lg tenantID blockID w =
    (Return (Some e),
     withEvents w [EvRead (sourceBucket cfg) name;
                   EvLog Error lg "skipping block, failed to read meta.json file"]).
Proof.
  intros name Hpos _ Herr. unfold checkMinDuration.
  rewrite (proj2 (Z.ltb_lt _ _) Hpos), bind_run.
  pose proof (loadMetaJSONFile_run w) as Hrun. fold name in Hrun.
  destruct (loadMetaJSONFile E (sourceBucket cfg) tenantID blockID w) as [[meta err] w1].
  cbn [fst snd] in *. subst err. injection Hrun as _ ->.
  rewrite bind_run. unfold Log. rewrite emit_run. cbn [fst snd].
  by rewrite withEvents_app.
Qed.

(** The check when the close of the reader fails after a good decode: the
    zero descriptor, of duration zero, is compared with the threshold. *)
Lemma checkMinDuration_close (w : world) (data : string) (meta : Meta) (e : error) :
  let name := blockPath tenantID blockID MetaFilename in
  0 < minBlockDuration cfg →
  readErr E (sourceBucket cfg) name = None →
  objects w !! (sourceBucket cfg, name) = Some data →
  decodeMeta E data = inr meta →
  closeErr E (sourceBucket cfg) name = Some e →
  checkMinDuration E cfg lg tenantID blockID w =
    (Return None,
     withEvents w [EvRead (sourceBucket cfg) name;
                   EvLog Debug lg
                     "skipping block, block duration is smaller than minimum duration"]).
Proof.
  intros name Hpos Hr Ho Hd Hc. unfold checkMinDuration.
  rewrite (proj2 (Z.ltb_lt _ _) Hpos), bind_run, loadMetaJSONFile_run, NewReader_run.
  fold name. cbn [fst snd]. rewrite Hr, Ho, Hd, Hc.
  change (wrap64 (Millisecond * wrap64 (MaxTime zeroMeta - MinTime zeroMeta))) with 0.
  rewrite (proj2 (Z.ltb_lt _ _) Hpos).
  rewrite bind_run. unfold Log. rewrite emit_run. cbn [fst snd].
  by rewrite withEvents_app.
Qed.

End meta_failures.

(** X12.  A block whose metadata descriptor is read and decoded, but
    whose reader fails to close, is skipped as too short whatever its
    duration, and without an error: [loadMetaJSONFile] wraps the decoding
    error, which is nil at that point, instead of the error of the close, so
    it returns the zero descriptor and nil. *)
Theorem close_failure_skips_block (E : extern) (cfg : config) (lg : logger)
    (tenantID : string) (markers : gmap ulid.ULID blockMarkers) (blockIDStr : string)
    (blockID : ulid.ULID) (w : world) (data : string) (meta : Meta) (e : error) :
  ulid.Parse blockIDStr = inr blockID →
  copied (markers !!! blockID) = false →
  deletion (markers !!! blockID) = false →
  0 < minBlockDuration cfg →
  let name := blockPath tenantID blockID MetaFilename in
  readErr E (sourceBucket cfg) name = None →
  objects w !! (sourceBucket cfg, name) = Some data →
  decodeMeta E data = inr meta →
  closeErr E (sourceBucket cfg) name = Some e →
  loadMetaJSONFile E (sourceBucket cfg) tenantID blockID w
    = ((zeroMeta, None), withEvents w [EvRead (sourceBucket cfg) name])
  ∧ processBlock E cfg lg tenantID markers blockIDStr w =
      (None,
       withEvents w
         [EvRead (sourceBucket cfg) name;
          EvLog Debug (blockLogger lg blockID)
            "skipping block, block duration is smaller than minimum duration"]).
Proof.
  intros Hp Hc Hd Hpos name Hr Ho Hdec Hcl. split.
  - rewrite loadMetaJSONFile_run, NewReader_run. fold name. cbn [fst].
    by rewrite Hr, Ho, Hdec, Hcl.
  - rewrite (processBlock_unmarked _ _ _ _ _ _ blockID) by done.
    by rewrite (checkMinDuration_close E cfg _ tenantID blockID w data meta e).
Qed.

Lemma close_failure_skips_block_witness :
  sampleDecode meta25h = inr {| MinTime := 0; MaxTime := 90000000 |}
  ∧ processBlock closeFails sampleCfg [] sampleTenant ∅ sampleBlockStr (sampleWorld meta25h [])
    = (None,
       withEvents (sampleWorld meta25h [])
         [EvRead "src" (blockPath sampleTenant sampleID MetaFilename);
          EvLog Debug (blockLogger [] sampleID)
            "skipping block, block duration is smaller than minimum duration"]).
Proof.
  split; [reflexivity |].
  exact (proj2 (close_failure_skips_block closeFails sampleCfg [] sampleTenant ∅
                  sampleBlockStr sampleID (sampleWorld meta25h []) meta25h
                  {| MinTime := 0; MaxTime := 90000000 |} (errorString "context canceled")
                  sample_parse eq_refl eq_refl eq_refl eq_refl
                  ltac:(vm_compute; reflexivity) eq_refl eq_refl)).
Defined.

(** X13.  With a threshold above zero, a block whose metadata descriptor
    cannot be read (a fault of the store, or no such object) or decoded
    fails with the wrapped error after an error log; nothing is copied, and
    the counters, [blocksCopyFailed] among them, stay as they are. *)
Theorem unreadable_meta_fails_block (E : extern) (cfg : config) (lg : logger)
    (tenantID : string) (markers : gmap ulid.ULID blockMarkers) (blockIDStr : string)
    (blockID : ulid.ULID) (w : world) :
  ulid.Parse blockIDStr = inr blockID →
  copied (markers !!! blockID) = false →
  deletion (markers !!! blockID) = false →
  0 < minBlockDuration cfg →
  let name := blockPath tenantID blockID MetaFilename in
  let run := processBlock E cfg lg tenantID markers blockIDStr w in
  let after :=
    withEvents w [EvRead (sourceBucket cfg) name;
                  EvLog Error (blockLogger lg blockID)
                    "skipping block, failed to read meta.json file"] in
  (∀ e, readErr E (sourceBucket cfg) name = Some e →
        run = (Some (Wrapped ("failed to read " +:+ name) e), after))
  ∧ (readErr E (sourceBucket cfg) name = None →
     objects w !! (sourceBucket cfg, name) = None →
     run = (Some (Wrapped ("failed to read " +:+ name) ErrObjectNotExist), after))
  ∧ (∀ data e, readErr E (sourceBucket cfg) name = None →
       objects w !! (sourceBucket cfg, name) = Some data →
       decodeMeta E data = inl e →
       run = (Some (Wrapped ("read " +:+ name) e), after)).
Proof.
  intros Hp Hc Hd Hpos name run after. subst run after.
  rewrite (processBlock_unmarked _ _ _ _ _ _ blockID) by done.
  split; [| split].
  - intros e Hr.
    rewrite (checkMinDuration_failed E cfg _ tenantID blockID w
               (Wrapped ("failed to read " +:+ name) e)); [done | done | |];
      rewrite loadMetaJSONFile_run, NewReader_run; fold name; cbn [fst]; by rewrite Hr.
  - intros Hr Ho.
    rewrite (checkMinDuration_failed E cfg _ tenantID blockID w
               (Wrapped ("failed to read " +:+ name) ErrObjectNotExist)); [done | done | |];
      rewrite loadMetaJSONFile_run, NewReader_run; fold name; cbn [fst]; by rewrite Hr, Ho.
  - intros data e Hr Ho Hdec.
    rewrite (checkMinDuration_failed E cfg _ tenantID blockID w
               (Wrapped ("read " +:+ name) e)); [done | done | |];
      rewrite loadMetaJSONFile_run, NewReader_run; fold name; cbn [fst];
      by rewrite Hr, Ho, Hdec.
Qed.

Lemma unreadable_meta_fails_block_witness :
  processBlock sampleExtern sampleCfg [] sampleTenant ∅ sampleBlockStr (sampleWorld "{" [])
  = (Some (Wrapped ("read " +:+ blockPath sampleTenant sampleID MetaFilename)
             (errorString "invalid character")),
     withEvents (sampleWorld "{" [])
       [EvRead "src" (blockPath sampleTenant sampleID MetaFilename);
        EvLog Error (blockLogger [] sampleID)
          "skipping block, failed to read meta.json file"]).
Proof.
  exact (proj2 (proj2 (unreadable_meta_fails_block sampleExtern sampleCfg [] sampleTenant ∅
                         sampleBlockStr sampleID (sampleWorld "{" [])
                         sample_parse eq_refl eq_refl eq_refl))
           "{" (errorString "invalid character") eq_refl
           ltac:(vm_compute; reflexivity) eq_refl).
Defined.

Section program_frames.

(** A relation that the reads, the events, the copies into the destination
    bucket, the marker writes and the block counters keep is kept by a
    whole cycle. *)
Context (R : world → world → Prop) `{!PreOrder R} (cfg : config).
Context (R_reads : ∀ w w', readsOnly w w' → R w w').
Context (R_emit : ∀ e, keeps R (emit e)).
Context (R_copy : ∀ name data, keeps R (putObject (destBucket cfg) name data)).
Context (R_mark : ∀ name, keeps R (putObject (sourceBucket cfg) name "")).
Context (R_count : keeps R (incr incBlocksCopied) ∧ keeps R (incr incBlocksCopyFailed)).
Context (E : extern).

Lemma keeps_ro_R {A : Type} (m : IO A) : keeps readsOnly m → keeps R m.
Proof. by apply keeps_impl. Qed.

Local Hint Resolve keeps_ro_R : keeps.

Lemma keeps_copierRun_R (name : string) :
  keeps R (copierRun E (sourceBucket cfg) (destBucket cfg) name).
Proof. unfold copierRun. keeps_auto. Qed.

Lemma keeps_copyPaths_R (tenantID : string) (blockID : ulid.ULID) (paths : list string) :
  keeps R (copyPaths E tenantID blockID (sourceBucket cfg) (destBucket cfg) paths).
Proof.
  induction paths as [|p paths IH]; simpl; [keeps_auto |].
  keeps_auto. apply keeps_copierRun_R.
Qed.

Lemma keeps_copySingleBlock_R (tenantID : string) (blockID : ulid.ULID) :
  keeps R (copySingleBlock E tenantID blockID (sourceBucket cfg) (destBucket cfg)).
Proof. unfold copySingleBlock. keeps_auto. apply keeps_copyPaths_R. Qed.

Lemma keeps_uploadCopiedMarkerFile_R (tenantID : string) (blockID : ulid.ULID) :
  keeps R (uploadCopiedMarkerFile E (sourceBucket cfg) tenantID blockID (destBucket cfg)).
Proof. unfold uploadCopiedMarkerFile, writeEmpty. keeps_auto. Qed.

Lemma keeps_copyOrDryRun_R (lg : logger) (tenantID : string) (blockID : ulid.ULID) :
  keeps R (copyOrDryRun E cfg lg tenantID blockID).
Proof.
  destruct R_count as [Hcopied Hfailed]. unfold copyOrDryRun. keeps_auto.
  - apply keeps_copySingleBlock_R.
  - apply keeps_uploadCopiedMarkerFile_R.
Qed.

Lemma keeps_processBlock_R (lg : logger) (tenantID : string)
    (markers : gmap ulid.ULID blockMarkers) (blockIDStr : string) :
  keeps R (processBlock E cfg lg tenantID markers blockIDStr).
Proof. unfold processBlock. keeps_auto. apply keeps_copyOrDryRun_R. Qed.

Lemma keeps_processTenant_R (lg : logger) (enabled disabled : gset string)
    (tenantID : string) :
  keeps R (processTenant E cfg lg enabled disabled tenantID).
Proof.
  unfold processTenant. keeps_auto.
  apply keeps_ForEachUser; [apply _ |]. intros blockIDStr. apply keeps_processBlock_R.
Qed.

Lemma keeps_copyBlocks_R (lg : logger) : keeps R (copyBlocks E cfg lg).
Proof.
  unfold copyBlocks. keeps_auto.
  apply keeps_ForEachUser; [apply _ |]. intros tenantID. apply keeps_processTenant_R.
Qed.

End program_frames.

Section cycle_frames.

#[global] Instance cyclesKept_preorder : PreOrder cyclesKept.
Proof.
  split; [done |]. intros w1 w2 w3 [H1 H2] [H3 H4]. unfold cyclesKept. split; congruence.
Qed.

Lemma keeps_copyBlocks_cyclesKept (E : extern) (cfg : config) (lg : logger) :
  keeps cyclesKept (copyBlocks E cfg lg).
Proof.
  apply keeps_copyBlocks_R; try done.
  - apply _.
  - by intros w w' (evs & -> & _).
Qed.

Context (srcBkt destBkt : string).

#[global] Instance grows_preorder : PreOrder (grows srcBkt destBkt).
Proof.
  split.
  - intros w. split; [done |]. split; [by left | done].
  - intros w1 w2 w3 (Ha1 & Hb1 & Hc1) (Ha2 & Hb2 & Hc2). split; [| split].
    + intros key Hk. by apply Ha2, Ha1.
    + intros n. destruct (Hb2 n) as [-> | ->]; [apply Hb1 | by right].
    + intros bkt n H1 H2. by rewrite Hc2, Hc1.
Qed.

Lemma readsOnly_grows (w w' : world) : readsOnly w w' → grows srcBkt destBkt w w'.
Proof. intros (evs & -> & _). split; [done |]. split; [by left | done]. Qed.

Lemma keeps_emit_grows (e : event) : keeps (grows srcBkt destBkt) (emit e).
Proof. intros w. split; [done |]. split; [by left | done]. Qed.

Lemma keeps_incr_grows (f : metrics → metrics) : keeps (grows srcBkt destBkt) (incr f).
Proof. intros w. split; [done |]. split; [by left | done]. Qed.

Lemma keeps_put_dest_grows (name data : string) :
  srcBkt ≠ destBkt → keeps (grows srcBkt destBkt) (putObject destBkt name data).
Proof.
  intros Hne w. unfold putObject. split; [| split]; cbn [snd objects].
  - intros key Hk. destruct (decide ((destBkt, name) = key)) as [<- | Hkey].
    + by rewrite lookup_insert_eq.
    + by rewrite lookup_insert_ne.
  - intros n. left. rewrite lookup_insert_ne; [done |]. by intros [= ->].
  - intros bkt n _ Hb. rewrite lookup_insert_ne; [done |]. by intros [= ->].
Qed.

Lemma keeps_put_marker_grows (name : string) :
  keeps (grows srcBkt destBkt) (putObject srcBkt name "").
Proof.
  intros w. unfold putObject. split; [| split]; cbn [snd objects].
  - intros key Hk. destruct (decide ((srcBkt, name) = key)) as [<- | Hkey].
    + by rewrite lookup_insert_eq.
    + by rewrite lookup_insert_ne.
  - intros n. destruct (decide (name = n)) as [<- | Hn].
    + right. by rewrite lookup_insert_eq.
    + left. rewrite lookup_insert_ne; [done |]. by intros [= ->].
  - intros bkt n Hb _. rewrite lookup_insert_ne; [done |]. by intros [= ->].
Qed.

End cycle_frames.

Section cycle_facts.

Context (cfg : config) (Hne : sourceBucket cfg ≠ destBucket cfg).

Lemma keeps_copyBlocks_grows (E : extern) (lg : logger) :
  keeps (grows (sourceBucket cfg) (destBucket cfg)) (copyBlocks E cfg lg).
Proof.
  apply keeps_copyBlocks_R.
  - apply _.
  - apply readsOnly_grows.
  - apply keeps_emit_grows.
  - intros name data. by apply keeps_put_dest_grows.
  - apply keeps_put_marker_grows.
  - split; apply keeps_incr_grows.
Qed.

Lemma keeps_runCopy_grows (E : extern) (lg : logger) :
  keeps (grows (sourceBucket cfg) (destBucket cfg)) (runCopy E cfg lg).
Proof.
  unfold runCopy, Log. apply keeps_bind; [apply _ | apply keeps_copyBlocks_grows |].
  intros [e|]; (apply keeps_bind; [apply _ | apply keeps_incr_grows | intros ?]);
    (apply keeps_bind; [apply _ | apply keeps_emit_grows | intros ?]);
    apply keeps_ret; apply _.
Qed.

Lemma keeps_tickerLoop_grows (ticks : list extern) (lg : logger) :
  keeps (grows (sourceBucket cfg) (destBucket cfg)) (tickerLoop ticks cfg lg).
Proof.
  induction ticks as [|E ticks IH]; simpl; [apply keeps_ret; apply _ |].
  apply keeps_bind; [apply _ | apply keeps_runCopy_grows | done].
Qed.

End cycle_facts.

(** What one cycle does to the counters of cycles. *)
Lemma runCopy_run (E : extern) (cfg : config) (lg : logger) (w : world) :
  let cycle := copyBlocks E cfg lg w in
  runCopy E cfg lg w =
    match fst cycle with
    | Some _ =>
        (false, {| objects := objects (snd cycle);
                   counters := incCopyCyclesFailed (counters (snd cycle));
                   trace := trace (snd cycle) ++ [EvLog Error lg "failed to copy blocks"] |})
    | None =>
        (true, {| objects := objects (snd cycle);
                  counters := incCopyCyclesSucceeded (counters (snd cycle));
                  trace := trace (snd cycle) ++ [EvLog Info lg "finished copying blocks"] |})
    end.
Proof.
  intros cycle. unfold runCopy. rewrite bind_run. fold cycle.
  by destruct (fst cycle).
Qed.

(** X14.  [runCopy] counts every cycle once: it returns true and
    increments [copyCyclesSucceeded] exactly when [copyBlocks] returns nil,
    and returns false and increments [copyCyclesFailed] otherwise; nothing
    else in a cycle touches the two cycle counters, and [runCopy] itself
    changes neither an object nor a block counter. *)
Theorem cycle_counted (E : extern) (cfg : config) (lg : logger) (w : world) :
  let cycle := copyBlocks E cfg lg w in
  let run := runCopy E cfg lg w in
  (fst run = true ↔ fst cycle = None)
  ∧ copyCyclesSucceeded (counters (snd run))
    = (copyCyclesSucceeded (counters w) + (if fst run then 1 else 0))%nat
  ∧ copyCyclesFailed (counters (snd run))
    = (copyCyclesFailed (counters w) + (if fst run then 0 else 1))%nat
  ∧ blocksCopied (counters (snd run)) = blocksCopied (counters (snd cycle))
  ∧ blocksCopyFailed (counters (snd run)) = blocksCopyFailed (counters (snd cycle))
  ∧ objects (snd run) = objects (snd cycle).
Proof.
  intros cycle run. subst run. rewrite runCopy_run. fold cycle.
  destruct (keeps_copyBlocks_cyclesKept E cfg lg w) as [Hs Hf]. fold cycle in Hs, Hf.
  destruct (fst cycle); cbn [fst snd counters objects incCopyCyclesFailed
                              incCopyCyclesSucceeded copyCyclesSucceeded copyCyclesFailed
                              blocksCopied blocksCopyFailed];
    rewrite Hs, Hf; repeat split; try done; lia.
Qed.

Section cycle_counts.

Context (cfg : config) (lg : logger).

Lemma runCopy_cycles (E : extern) (w : world) :
  cycles (snd (runCopy E cfg lg w)) = S (cycles w).
Proof.
  rewrite runCopy_run. destruct (keeps_copyBlocks_cyclesKept E cfg lg w) as [Hs Hf].
  unfold cycles.
  destruct (fst (copyBlocks E cfg lg w)); cbn [fst snd counters incCopyCyclesFailed
    incCopyCyclesSucceeded copyCyclesSucceeded copyCyclesFailed]; rewrite Hs, Hf; lia.
Qed.

Lemma tickerLoop_cycles (ticks : list extern) (w : world) :
  cycles (snd (tickerLoop ticks cfg lg w)) = (cycles w + length ticks)%nat.
Proof.
  revert w. induction ticks as [|E ticks IH]; intros w; cbn [tickerLoop length].
  - rewrite ret_run. cbn [snd]. lia.
  - rewrite bind_run, IH, runCopy_cycles. lia.
Qed.

End cycle_counts.

(** X15.  The exit status of the process, for two different, non-empty
    bucket names.  When the metrics server fails before the main line has
    ended the process, the status is 1.  When it still serves: with a copy
    period of zero or less the main line runs one cycle and the status is 0
    if [copyBlocks] returned nil and 1 otherwise; with a positive period the
    main line runs the first cycle and one more for every tick, the failure
    of a cycle does not end it, every cycle is counted, and when the context
    is cancelled the status is 0. *)
Theorem main_exit_status (E : extern) (ticks : list extern) (cfg : config) (w : world) :
  sourceBucket cfg ≠ "" → destBucket cfg ≠ "" → sourceBucket cfg ≠ destBucket cfg →
  let status httpErr := exitStatus httpErr E ticks cfg w in
  let mainLine := main E ticks cfg w in
  (∀ e, status (Some e) = 1)
  ∧ (copyPeriod cfg ≤ 0 →
     (status None = 0 ↔ fst (copyBlocks E cfg [] w) = None)
     ∧ (status None = 1 ↔ is_Some (fst (copyBlocks E cfg [] w)))
     ∧ cycles (snd mainLine) = S (cycles w))
  ∧ (0 < copyPeriod cfg →
     status None = 0 ∧ cycles (snd mainLine) = S (cycles w + length ticks)).
Proof.
  intros Hs Hd Hne status mainLine. subst status mainLine. unfold exitStatus, main.
  rewrite !bool_decide_eq_false_2 by done. cbn [orb].
  split; [done |]. rewrite bind_run. split.
  - intros Hle. rewrite (proj2 (Z.leb_le _ _) Hle), ret_run. cbn [fst snd].
    split; [| split; [| apply runCopy_cycles]].
    + rewrite runCopy_run. by destruct (fst (copyBlocks E cfg [] w)).
    + rewrite runCopy_run. destruct (fst (copyBlocks E cfg [] w)); cbn [fst].
      * split; [by eexists | done].
      * split; [done | by intros [? ?]].
  - intros Hpos. rewrite (proj2 (Z.leb_gt _ _) Hpos), bind_run, ret_run. cbn [fst snd].
    split; [done |]. rewrite tickerLoop_cycles, runCopy_cycles. lia.
Qed.

Lemma main_exit_status_witness :
  exitStatus None sampleExtern [] sampleCfg (sampleWorld meta25h []) = 0
  ∧ exitStatus (Some (errorString "listen tcp :8080: bind: address already in use"))
      sampleExtern [] sampleCfg (sampleWorld meta25h []) = 1.
Proof.
  pose proof (main_exit_status sampleExtern [] sampleCfg (sampleWorld meta25h [])
                ltac:(by_decide) ltac:(by_decide) ltac:(by_decide)) as (Hfail & Hone & _).
  split; [| apply Hfail].
  apply (proj1 (Hone ltac:(vm_compute; discriminate))). vm_compute. reflexivity.
Defined.

(** X16.  A cycle that cannot create the storage client, or cannot list
    the tenants, fails at once: [copyBlocks] returns the wrapped error
    before any tenant is looked at, and [runCopy] counts a failed cycle,
    logs the failure and returns false, with every object as it was. *)
Theorem cycle_fails_early (E : extern) (cfg : config) (lg : logger) (w : world) :
  (∀ e, clientErr E = Some e →
     copyBlocks E cfg lg w = (Some (Wrapped "failed to create client" e), w)
     ∧ runCopy E cfg lg w =
         (false, {| objects := objects w;
                    counters := incCopyCyclesFailed (counters w);
                    trace := trace w ++ [EvLog Error lg "failed to copy blocks"] |}))
  ∧ (∀ e, clientErr E = None → listErr E (sourceBucket cfg) "" = Some e →
     copyBlocks E cfg lg w =
       (Some (Wrapped "failed to list tenants" (Wrapped "listPrefix: error listing " e)),
        withEvents w [EvList (sourceBucket cfg) ""])
     ∧ runCopy E cfg lg w =
         (false, {| objects := objects w;
                    counters := incCopyCyclesFailed (counters w);
                    trace := trace w ++ [EvList (sourceBucket cfg) "";
                                         EvLog Error lg "failed to copy blocks"] |})).
Proof.
  split.
  - intros e He.
    assert (Hc : copyBlocks E cfg lg w = (Some (Wrapped "failed to create client" e), w)).
    { unfold copyBlocks. by rewrite He. }
    split; [done |]. by rewrite runCopy_run, Hc.
  - intros e Hc He.
    assert (Hb : copyBlocks E cfg lg w =
                 (Some (Wrapped "failed to list tenants"
                          (Wrapped "listPrefix: error listing " e)),
                  withEvents w [EvList (sourceBucket cfg) ""])).
    { unfold copyBlocks, listTenants. rewrite Hc, !bind_run, listPrefix_run.
      rewrite queryPrefix_empty, He. reflexivity. }
    split; [done |]. rewrite runCopy_run, Hb. cbn [fst snd withEvents objects counters trace].
    by rewrite <- app_assoc.
Qed.

Section empty_bucket.

Lemma bucketNames_empty (objs : gmap (string * string) string) (bkt : string) :
  (∀ n, objs !! (bkt, n) = None) → bucketNames objs bkt = [].
Proof.
  intros Hnone. apply elem_of_nil_inv. intros n Hn%elem_of_bucketNames.
  rewrite Hnone in Hn. by destruct Hn.
Qed.

Lemma queryObjects_empty (objs : gmap (string * string) string)
    (bkt prefix delimiter : string) :
  (∀ n, objs !! (bkt, n) = None) → queryObjects objs bkt prefix delimiter = [].
Proof.
  intros Hnone. unfold queryObjects. rewrite bucketNames_empty by done.
  by destruct (bool_decide (delimiter = "")).
Qed.

End empty_bucket.

(** X17.  A cycle on a source bucket without objects: the tenants are
    listed, there is none, and the cycle succeeds without any other
    action. *)
Theorem empty_source_cycle (E : extern) (cfg : config) (lg : logger) (w : world) :
  clientErr E = None →
  listErr E (sourceBucket cfg) "" = None →
  (∀ n, objects w !! (sourceBucket cfg, n) = None) →
  copyBlocks E cfg lg w = (None, withEvents w [EvList (sourceBucket cfg) ""])
  ∧ runCopy E cfg lg w =
      (true, {| objects := objects w;
                counters := incCopyCyclesSucceeded (counters w);
                trace := trace w ++ [EvList (sourceBucket cfg) "";
                                     EvLog Info lg "finished copying blocks"] |}).
Proof.
  intros Hc Hl Hnone.
  assert (Hb : copyBlocks E cfg lg w = (None, withEvents w [EvList (sourceBucket cfg) ""])).
  { unfold copyBlocks, listTenants. rewrite Hc, !bind_run, listPrefix_listed by done.
    rewrite queryPrefix_empty, queryObjects_empty by done. reflexivity. }
  split; [done |]. rewrite runCopy_run, Hb. cbn [fst snd withEvents objects counters trace].
  by rewrite <- app_assoc.
Qed.

Lemma empty_source_cycle_witness :
  runCopy sampleExtern sampleCfg [] emptyWorld =
    (true, {| objects := ∅;
              counters := incCopyCyclesSucceeded noCounts;
              trace := [EvList "src" ""; EvLog Info [] "finished copying blocks"] |}).
Proof.
  exact (proj2 (empty_source_cycle sampleExtern sampleCfg [] emptyWorld eq_refl eq_refl
                  (λ n, lookup_empty _))).
Defined.

(** X18.  [main] never removes an object.  An object of the source bucket
    changes only by being written empty (the marker write), and the buckets
    other than the source and the destination are left alone. *)
Theorem main_never_deletes (E : extern) (ticks : list extern) (cfg : config) (w : world) :
  let w' := snd (main E ticks cfg w) in
  (∀ key, is_Some (objects w !! key) → is_Some (objects w' !! key))
  ∧ (∀ n, objects w' !! (sourceBucket cfg, n) = objects w !! (sourceBucket cfg, n)
          ∨ objects w' !! (sourceBucket cfg, n) = Some "")
  ∧ (∀ bkt n, bkt ≠ sourceBucket cfg → bkt ≠ destBucket cfg →
              objects w' !! (bkt, n) = objects w !! (bkt, n)).
Proof.
  intros w'. subst w'.
  change (grows (sourceBucket cfg) (destBucket cfg) w (snd (main E ticks cfg w))).
  revert w. change (keeps (grows (sourceBucket cfg) (destBucket cfg)) (main E ticks cfg)).
  unfold main.
  destruct (bool_decide (sourceBucket cfg = "") || bool_decide (destBucket cfg = "")
            || bool_decide (sourceBucket cfg = destBucket cfg)) eqn:Hbad.
  - apply keeps_bind; [apply _ | apply keeps_emit_grows |]. intros _.
    apply keeps_ret. apply _.
  - apply orb_false_iff in Hbad as [_ Hne%bool_decide_eq_false].
    apply keeps_bind; [apply _ | by apply keeps_runCopy_grows |]. intros success.
    destruct (copyPeriod cfg <=? 0); [apply keeps_ret; apply _ |].
    apply keeps_bind; [apply _ | by apply keeps_tickerLoop_grows |]. intros _.
    apply keeps_ret. apply _.
Qed.

Section marker_paths.

Lemma app_inv_head_s (a b c : string) : a +:+ b = a +:+ c → b = c.
Proof.
  intros Heq. rewrite <- (TrimPrefix_app a b), <- (TrimPrefix_app a c). by rewrite Heq.
Qed.

End marker_paths.

(** X19.  The marker names of two blocks, or of one block for two
    destination buckets, differ, and the marker of a block is no object of a
    block of the same tenant: writing a marker overwrites neither another
    marker nor block data. *)
Theorem marker_paths_distinct (tenantID : string) (B B' : ulid.ULID) (T T' : string) :
  ulid.wf B → ulid.wf B' →
  (CopiedToBucketMarkFilename B T = CopiedToBucketMarkFilename B' T' → B = B' ∧ T = T')
  ∧ (markerPath tenantID B T = markerPath tenantID B' T' → B = B' ∧ T = T')
  ∧ (∀ p, markerPath tenantID B T ≠ blockPath tenantID B' p).
Proof.
  intros Hwf Hwf'.
  assert (Hinj : CopiedToBucketMarkFilename B T = CopiedToBucketMarkFilename B' T' →
                 B = B' ∧ T = T').
  { intros Heq. pose proof (IsCopied_CopiedTo B T Hwf) as H1.
    rewrite Heq, (IsCopied_CopiedTo B' T' Hwf') in H1. by injection H1 as <- <-. }
  split; [done |]. split.
  - unfold markerPath. intros Heq. by apply Hinj, (app_inv_head_s delim), (app_inv_head_s tenantID).
  - intros p Heq. pose proof (blockPath_not_marker tenantID B' p Hwf') as Hno.
    rewrite <- Heq in Hno. unfold markerPath, CopiedToBucketMarkFilename in Hno.
    assert (Hpre : strings.HasPrefix
                     (tenantID +:+ delim +:+ MarkersPathname +:+ "/" +:+ ulid.String B +:+ "-"
                        +:+ CopiedMarkFilename +:+ "-" +:+ T)
                     (tenantID +:+ delim +:+ MarkersPathname +:+ delim) = true).
    { apply HasPrefix_true. eexists. unfold delim. by rewrite !app_assoc_s. }
    by rewrite Hpre in Hno.
Qed.

Lemma marker_paths_distinct_witness :
  markerPath sampleTenant sampleID "dst" ≠ blockPath sampleTenant sampleID "index"
  ∧ markerPath sampleTenant sampleID "dst" ≠ blockPath sampleTenant sampleID "meta.json".
Proof.
  split;
    apply (proj2 (proj2 (marker_paths_distinct sampleTenant sampleID sampleID "dst" "dst"
                           sampleID_wf sampleID_wf))).
Defined.

(** X20.  A tenant whose blocks or whose markers cannot be listed fails
    as a unit, with the error wrapped and logged: after a failed listing of
    the markers no block is processed, although the blocks were listed. *)
Theorem tenant_listing_failure (E : extern) (cfg : config) (lg : logger)
    (enabled disabled : gset string) (tenantID : string) (w : world) :
  isAllowedUser enabled disabled tenantID = true →
  let lg' := lg ++ [("tenantID", tenantID)] in
  let blocksAt := queryPrefix tenantID in
  let markersAt := tenantID +:+ delim +:+ MarkersPathname +:+ delim in
  (∀ e, listErr E (sourceBucket cfg) blocksAt = Some e →
     processTenant E cfg lg enabled disabled tenantID w =
       (Some (Wrapped ("failed to list blocks for tenant " +:+ tenantID)
                (Wrapped ("listPrefix: error listing " +:+ blocksAt) e)),
        withEvents w [EvList (sourceBucket cfg) blocksAt;
                      EvLog Error lg' "failed to list blocks for tenant"]))
  ∧ (∀ e, listErr E (sourceBucket cfg) blocksAt = None →
       listErr E (sourceBucket cfg) markersAt = Some e →
       processTenant E cfg lg enabled disabled tenantID w =
         (Some (Wrapped ("failed to list block markers for tenant " +:+ tenantID)
                  (Wrapped ("listPrefix: error listing " +:+ markersAt) e)),
          withEvents w [EvList (sourceBucket cfg) blocksAt;
                        EvList (sourceBucket cfg) markersAt;
                        EvLog Error lg' "failed to list blocks markers for tenant"])).
Proof.
  intros Hallowed lg' blocksAt markersAt. unfold processTenant. rewrite Hallowed.
  cbn [negb]. fold lg'. split.
  - intros e He. unfold listBlocksForTenant. rewrite !bind_run, listPrefix_run.
    fold blocksAt. rewrite He. cbn [fst snd]. rewrite ret_run. cbn [fst snd].
    rewrite bind_run. unfold Log. rewrite emit_run. cbn [fst snd].
    by rewrite ret_run, withEvents_app.
  - intros e Hb He. unfold listBlocksForTenant, listBlockMarkersForTenant.
    rewrite !bind_run, listPrefix_listed by done. cbn [fst snd].
    rewrite ret_run. cbn [fst snd]. rewrite !bind_run, listPrefix_run, queryPrefix_markers.
    fold markersAt. rewrite He. cbn [fst snd]. rewrite ret_run. cbn [fst snd].
    rewrite bind_run. unfold Log. rewrite emit_run. cbn [fst snd].
    by rewrite ret_run, !withEvents_app.
Qed.

Lemma tenant_listing_failure_witness :
  processTenant markersListFails sampleCfg [] (userSet []) (userSet []) sampleTenant
    (sampleWorld meta25h []) =
    (Some (Wrapped ("failed to list block markers for tenant " +:+ sampleTenant)
             (Wrapped ("listPrefix: error listing "
                         +:+ (sampleTenant +:+ delim +:+ MarkersPathname +:+ delim))
                (errorString "googleapi: Error 503"))),
     withEvents (sampleWorld meta25h [])
       [EvList "src" (queryPrefix sampleTenant);
        EvList "src" (sampleTenant +:+ delim +:+ MarkersPathname +:+ delim);
        EvLog Error ([] ++ [("tenantID", sampleTenant)])
          "failed to list blocks markers for tenant"]).
Proof.
  assert (Hallowed : isAllowedUser (userSet []) (userSet []) sampleTenant = true)
    by (vm_compute; reflexivity).
  exact (proj2 (tenant_listing_failure markersListFails sampleCfg [] (userSet []) (userSet [])
                  sampleTenant (sampleWorld meta25h []) Hallowed)
           (errorString "googleapi: Error 503") eq_refl eq_refl).
Defined.

Section configured_users.

Lemma elem_of_userSet (users : list string) (u : string) : u ∈ userSet users ↔ u ∈ users.
Proof.
  unfold userSet.
  assert (Hgen : ∀ acc : gset string,
            u ∈ foldl (λ s u, {[u]} ∪ s) acc users ↔ u ∈ acc ∨ u ∈ users).
  { induction users as [|x users IH]; intros acc; simpl.
    - rewrite elem_of_nil. tauto.
    - rewrite IH, elem_of_union, elem_of_singleton, elem_of_cons. tauto. }
  rewrite Hgen, elem_of_empty. tauto.
Qed.

Lemma userSet_empty (users : list string) : userSet users = ∅ ↔ users = [].
Proof.
  split; [| by intros ->]. intros Hempty. apply elem_of_nil_inv. intros u Hu.
  apply elem_of_userSet in Hu. rewrite Hempty in Hu. by apply elem_of_empty in Hu.
Qed.

Lemma isAllowedUser_true (enabled disabled : gset string) (tenantID : string) :
  isAllowedUser enabled disabled tenantID = true ↔
  (enabled = ∅ ∨ tenantID ∈ enabled) ∧ tenantID ∉ disabled.
Proof.
  unfold isAllowedUser.
  assert (Hsz : ∀ s : gset string, (0 < size s)%nat ↔ s ≠ ∅).
  { intros s. rewrite <- (leibniz_equiv_iff s ∅), <- size_non_empty_iff. lia. }
  destruct (decide (enabled = ∅)) as [He | He];
    destruct (decide (disabled = ∅)) as [Hd | Hd];
    repeat case_bool_decide; simpl; rewrite ?Hsz in *; split; try done; try tauto;
    try (intros [[? | ?] ?]; done);
    try (intros _; split; [tauto |]; subst disabled; apply not_elem_of_empty).
Qed.

End configured_users.


Section prefix_facts.

Lemma lastByte_slash (a : string) : strings.lastByte (a +:+ "/") = "/".
Proof. change (a +:+ "/") with (a +:+ String "/" ""). by rewrite lastByte_app. Qed.

(** The prefix queried has its delimiter: asking for it changes nothing. *)
Lemma queryPrefix_idemp (prefix : string) : queryPrefix (queryPrefix prefix) = queryPrefix prefix.
Proof.
  unfold queryPrefix at 2.
  destruct (bool_decide (0 < String.length prefix)%nat
            && negb (bool_decide (strings.lastByte prefix = delim))) eqn:Hc.
  - unfold queryPrefix. rewrite lastByte_slash.
    rewrite (bool_decide_eq_true_2 ("/" = delim)) by done.
    cbn [negb]. by rewrite andb_false_r, Hc.
  - unfold queryPrefix. by rewrite Hc.
Qed.

End prefix_facts.

(** X22.  [listPrefix] with the delimiter (not recursive), on a store
    without listing fault: the paths are the names, relative to the prefix,
    of the objects right under it, and one entry [d/] for every directory
    [d] under it, whatever lies below; and a prefix given with or without
    its trailing delimiter lists the same. *)
Theorem listPrefix_flat_exact (E : extern) (bkt prefix : string) (w : world) :
  let queried := queryPrefix prefix in
  (listErr E bkt queried = None →
     ∃ paths,
       listPrefix E bkt prefix false w = (inr paths, withEvents w [EvList bkt queried])
       ∧ ∀ p, p ∈ paths ↔
              (¬ contains "/" p ∧ is_Some (objects w !! (bkt, queried +:+ p)))
              ∨ (∃ d rest, p = d +:+ "/" ∧ ¬ contains "/" d
                           ∧ is_Some (objects w !! (bkt, queried +:+ d +:+ "/" +:+ rest))))
  ∧ (∀ recursive, listPrefix E bkt queried recursive w = listPrefix E bkt prefix recursive w).
Proof.
  intros queried. subst queried. split.
  - intros Hnone. eexists. split; [by apply listPrefix_listed | apply listed_flat].
  - intros recursive. by rewrite !listPrefix_run, queryPrefix_idemp.
Qed.

Section copy_edges.

Context (E : extern) (srcBkt destBkt tenantID : string) (blockID : ulid.ULID).

Lemma reorder_nil : reorder [] = [].
Proof. unfold reorder. by rewrite reorderFrom_step. Qed.

Lemma queryPrefix_blockPath :
  queryPrefix (tenantID +:+ delim +:+ ulid.String blockID) = blockPath tenantID blockID "".
Proof. by rewrite blockPath_queried, app_nil_r_s. Qed.

Lemma copySingleBlock_unlisted (w : world) (e : error) :
  listErr E srcBkt (blockPath tenantID blockID "") = Some e →
  copySingleBlock E tenantID blockID srcBkt destBkt w =
    (Some (Wrapped ("copySingleBlock: failed to list block files for "
                      +:+ tenantID +:+ "/" +:+ ulid.String blockID)
             (Wrapped ("listPrefix: error listing " +:+ blockPath tenantID blockID "") e)),
     withEvents w [EvList srcBkt (blockPath tenantID blockID "")]).
Proof.
  intros He. unfold copySingleBlock. rewrite bind_run, listPrefix_run.
  rewrite queryPrefix_blockPath, He. reflexivity.
Qed.

Lemma copySingleBlock_nothing (w : world) :
  listErr E srcBkt (blockPath tenantID blockID "") = None →
  (∀ p, objects w !! (srcBkt, blockPath tenantID blockID p) = None) →
  copySingleBlock E tenantID blockID srcBkt destBkt w =
    (None, withEvents w [EvList srcBkt (blockPath tenantID blockID "")]).
Proof.
  intros He Hnone. unfold copySingleBlock.
  rewrite bind_run, listPrefix_listed by (by rewrite queryPrefix_blockPath).
  cbn [fst snd].
  assert (Hno : (λ o, strings.TrimPrefix (entryPath o)
                        (queryPrefix (tenantID +:+ delim +:+ ulid.String blockID)))
                  <$> queryObjects (objects w) srcBkt
                        (queryPrefix (tenantID +:+ delim +:+ ulid.String blockID)) "" = []).
  { apply elem_of_nil_inv. intros p Hp%listed_recursive.
    rewrite <- blockPath_queried, Hnone in Hp. by destruct Hp. }
  rewrite Hno, reorder_nil, queryPrefix_blockPath. reflexivity.
Qed.

End copy_edges.

(** X23.  The edges of [copySingleBlock].  When the listing of the block
    fails, the error is returned wrapped and nothing is copied.  When the
    listing is empty (no object under [tenant/<block ID>/]), nothing is
    copied and nil is returned: the copy of a block without objects
    succeeds. *)
Theorem copy_listing_edges (E : extern) (tenantID : string) (blockID : ulid.ULID)
    (srcBkt destBkt : string) (w : world) :
  let queried := blockPath tenantID blockID "" in
  (∀ e, listErr E srcBkt queried = Some e →
     copySingleBlock E tenantID blockID srcBkt destBkt w =
       (Some (Wrapped ("copySingleBlock: failed to list block files for "
                         +:+ tenantID +:+ "/" +:+ ulid.String blockID)
                (Wrapped ("listPrefix: error listing " +:+ queried) e)),
        withEvents w [EvList srcBkt queried]))
  ∧ (listErr E srcBkt queried = None →
     (∀ p, objects w !! (srcBkt, blockPath tenantID blockID p) = None) →
     copySingleBlock E tenantID blockID srcBkt destBkt w =
       (None, withEvents w [EvList srcBkt queried])).
Proof.
  intros queried. subst queried. split.
  - intros e. apply copySingleBlock_unlisted.
  - apply copySingleBlock_nothing.
Qed.

Section access_facts.

Context (cfg : config).

#[global] Instance accessesOnly_preorder : PreOrder (accessesOnly cfg).
Proof.
  split.
  - intros w. exists []. by rewrite app_nil_r.
  - intros w1 w2 w3 (e1 & H1 & F1) (e2 & H2 & F2). exists (e1 ++ e2).
    split; [by rewrite H2, H1, app_assoc | by apply Forall_app].
Qed.

Lemma keeps_emit_access (e : event) : allowedAccess cfg e → keeps (accessesOnly cfg) (emit e).
Proof. intros He w. exists [e]. split; [done | by constructor]. Qed.

Lemma keeps_Log_access (lvl : level) (lg : logger) (msg : string) :
  keeps (accessesOnly cfg) (Log lvl lg msg).
Proof. by apply keeps_emit_access. Qed.

Lemma keeps_silent_access {A : Type} (m : IO A) :
  (∀ w, trace (snd (m w)) = trace w) → keeps (accessesOnly cfg) m.
Proof. intros Hm w. exists []. by rewrite app_nil_r, Hm. Qed.

Lemma keeps_getObjects_access : keeps (accessesOnly cfg) getObjects.
Proof. by apply keeps_silent_access. Qed.

Lemma keeps_putObject_access (bkt name data : string) :
  keeps (accessesOnly cfg) (putObject bkt name data).
Proof. by apply keeps_silent_access. Qed.

Lemma keeps_incr_access (f : metrics → metrics) : keeps (accessesOnly cfg) (incr f).
Proof. by apply keeps_silent_access. Qed.

Local Hint Resolve keeps_Log_access keeps_getObjects_access keeps_putObject_access
  keeps_incr_access : keeps.

Context (E : extern).

Lemma keeps_Objects_access (prefix delimiter : string) :
  keeps (accessesOnly cfg) (Objects E (sourceBucket cfg) prefix delimiter).
Proof. unfold Objects. keeps_auto. by apply keeps_emit_access. Qed.

Lemma keeps_listPrefix_access (prefix : string) (recursive : bool) :
  keeps (accessesOnly cfg) (listPrefix E (sourceBucket cfg) prefix recursive).
Proof. unfold listPrefix. keeps_auto. apply keeps_Objects_access. Qed.

Lemma keeps_NewReader_access (name : string) :
  keeps (accessesOnly cfg) (NewReader E (sourceBucket cfg) name).
Proof. unfold NewReader. keeps_auto. by apply keeps_emit_access. Qed.

Lemma keeps_copierRun_access (name : string) :
  keeps (accessesOnly cfg) (copierRun E (sourceBucket cfg) (destBucket cfg) name).
Proof. unfold copierRun. keeps_auto. by apply keeps_emit_access. Qed.

Lemma keeps_upload_access (tenantID : string) (blockID : ulid.ULID) :
  keeps (accessesOnly cfg)
        (uploadCopiedMarkerFile E (sourceBucket cfg) tenantID blockID (destBucket cfg)).
Proof.
  unfold uploadCopiedMarkerFile, writeEmpty. keeps_auto.
  apply keeps_emit_access. split; [done |]. by exists tenantID, blockID.
Qed.

Local Hint Resolve keeps_listPrefix_access keeps_NewReader_access keeps_copierRun_access
  keeps_upload_access : keeps.

Lemma keeps_copyPaths_access (tenantID : string) (blockID : ulid.ULID) (paths : list string) :
  keeps (accessesOnly cfg)
        (copyPaths E tenantID blockID (sourceBucket cfg) (destBucket cfg) paths).
Proof. induction paths as [|p paths IH]; simpl; keeps_auto. Qed.

Local Hint Resolve keeps_copyPaths_access : keeps.

Lemma keeps_processBlock_access (lg : logger) (tenantID : string)
    (markers : gmap ulid.ULID blockMarkers) (blockIDStr : string) :
  keeps (accessesOnly cfg) (processBlock E cfg lg tenantID markers blockIDStr).
Proof.
  unfold processBlock, checkMinDuration, loadMetaJSONFile, copyOrDryRun, copySingleBlock.
  keeps_auto.
Qed.

Lemma keeps_processTenant_access (lg : logger) (enabled disabled : gset string)
    (tenantID : string) :
  keeps (accessesOnly cfg) (processTenant E cfg lg enabled disabled tenantID).
Proof.
  unfold processTenant, listBlocksForTenant, listBlockMarkersForTenant. keeps_auto.
  apply keeps_ForEachUser; [apply _ |]. intros blockIDStr. apply keeps_processBlock_access.
Qed.

Lemma keeps_runCopy_access (lg : logger) : keeps (accessesOnly cfg) (runCopy E cfg lg).
Proof.
  unfold runCopy, copyBlocks, listTenants. keeps_auto.
  apply keeps_ForEachUser; [apply _ |]. intros tenantID. apply keeps_processTenant_access.
Qed.

End access_facts.

Lemma keeps_tickerLoop_access (cfg : config) (ticks : list extern) (lg : logger) :
  keeps (accessesOnly cfg) (tickerLoop ticks cfg lg).
Proof.
  induction ticks as [|E ticks IH]; simpl; [apply keeps_ret; apply _ |].
  apply keeps_bind; [apply _ | apply keeps_runCopy_access | done].
Qed.

(** X24.  Every access of [main] to the store is one the configuration
    allows: it lists and reads the source bucket only, copies from the
    source to the destination bucket only, and writes nothing but copy
    markers for the destination into the source bucket.  The destination
    bucket is never listed or read. *)
Theorem main_store_accesses (E : extern) (ticks : list extern) (cfg : config) (w : world) :
  ∃ evs, trace (snd (main E ticks cfg w)) = trace w ++ evs
         ∧ Forall (allowedAccess cfg) evs.
Proof.
  revert w. change (keeps (accessesOnly cfg) (main E ticks cfg)). unfold main.
  destruct (bool_decide (sourceBucket cfg = "") || bool_decide (destBucket cfg = "")
            || bool_decide (sourceBucket cfg = destBucket cfg)).
  - apply keeps_bind; [apply _ | apply keeps_Log_access |]. intros _.
    apply keeps_ret. apply _.
  - apply keeps_bind; [apply _ | apply keeps_runCopy_access |]. intros success.
    destruct (copyPeriod cfg <=? 0); [apply keeps_ret; apply _ |].
    apply keeps_bind; [apply _ | apply keeps_tickerLoop_access |]. intros _.
    apply keeps_ret. apply _.
Qed.
